(** * text-match: service-scoped authorization, audit trail and import/export

    A shallow embedding of the authorization helpers ([lib/auth/rbac.ts],
    [lib/auth/service-access.ts], [lib/auth/translation-access.ts]), the audit
    logger and PII redaction ([lib/audit/event-logger.ts],
    [lib/audit/pii-redaction.ts]) and the import / export / translation-update
    route handlers ([routes/api/import.ts], [routes/api/export.ts],
    [routes/api/translations/$id.ts]).

    Conventions.
    - JavaScript strings are [string]s: sequences of code units in the range
      0..255.  Character classes ([\s], [\w], [\d]) are exact on that range.
    - [T | null] is [nullable T]; an optional property [p?: T] is
      [optional T].  The two are kept apart because [null !== undefined].
    - Database access is a state-and-exception computation [M A] over a
      [World]: the tables, a log of the statements issued, and an oracle that
      says which statements throw.  A thrown exception keeps the writes made
      before it, as a Postgres session outside a transaction does.
    - [console.error] calls are not modelled. *)

From Stdlib Require Import String Ascii List ZArith Bool Arith Lia DecimalString.
Import ListNotations.
Open Scope string_scope.

Set Implicit Arguments.
Set Warnings "-register-all".

(* ===================================================================== *)
(** * JavaScript values used by the code *)
(* ===================================================================== *)

Module JS.

(** [T | null], as Drizzle types a nullable column. *)
Inductive nullable (A : Type) : Type :=
| Null : nullable A
| NVal : A -> nullable A.
Arguments Null {A}.

(** [T | undefined], as zod types an [.optional()] property. *)
Inductive optional (A : Type) : Type :=
| Undefined : optional A
| Defined : A -> optional A.
Arguments Undefined {A}.

(** [Array.prototype.includes] on an array of strings. *)
Definition includes (xs : list string) (x : string) : bool :=
  existsb (String.eqb x) xs.

(** [Array.prototype.some]. *)
Definition some {A} (p : A -> bool) (xs : list A) : bool := existsb p xs.

(** [Array.prototype.every]. *)
Definition every {A} (p : A -> bool) (xs : list A) : bool := forallb p xs.

(** Truthiness of a [string | null] value: [null] and [""] are falsy. *)
Definition truthy_nstr (v : nullable string) : bool :=
  match v with
  | Null => false
  | NVal s => negb (String.eqb s "")
  end.

(** [a !== b] for [a : string | null] and [b : string | undefined]:
    the operands are equal only when both are strings and the same one. *)
Definition strict_neq_null_undef (a : nullable string) (b : optional string) : bool :=
  match a, b with
  | NVal x, Defined y => negb (String.eqb x y)
  | _, _ => true
  end.

(** [a !== b] for [a : string | null] and [b : string]. *)
Definition strict_neq_null_str (a : nullable string) (b : string) : bool :=
  match a with
  | NVal x => negb (String.eqb x b)
  | Null => true
  end.

(** [v || undefined] for [v : string | null]. *)
Definition or_undefined (v : nullable string) : optional string :=
  match v with
  | NVal s => if String.eqb s "" then Undefined else Defined s
  | Null => Undefined
  end.

(** [v || ""] for [v : string | null]. *)
Definition or_empty (v : nullable string) : string :=
  match v with
  | NVal s => s
  | Null => ""
  end.

(** [v ?? null] for [v : string | undefined]. *)
Definition nullish_null (v : optional string) : nullable string :=
  match v with
  | Defined s => NVal s
  | Undefined => Null
  end.

(** JSON values, as stored in a [jsonb] column and as [redactSensitiveData]
    receives them.  An object is its properties in enumeration order. *)
Inductive json : Type :=
| JNull : json
| JBool : bool -> json
| JNum : Z -> json
| JStr : string -> json
| JArr : list json -> json
| JObj : list (string * json) -> json.

(** A property that is [undefined] is dropped when an object is serialised. *)
Definition prop_opt (k : string) (v : optional string) : list (string * json) :=
  match v with
  | Defined s => [(k, JStr s)]
  | Undefined => []
  end.

Definition jnullable (v : nullable string) : json :=
  match v with
  | NVal s => JStr s
  | Null => JNull
  end.

Definition jstrings (xs : list string) : json := JArr (map JStr xs).

(** Decimal rendering of a non-negative integer, as a template literal
    renders [value.length]. *)
Definition dec (n : nat) : string := NilZero.string_of_uint (Nat.to_uint n).

(** [JSON.stringify] of a string: quotes, with the two-character escapes
    and [\u00XX] for the other control characters. *)
Definition hex_digit (n : nat) : ascii :=
  nth n (list_ascii_of_string "0123456789abcdef") "0"%char.

Definition dquote : ascii := ascii_of_nat 34.

Definition quote_char (c : ascii) : string :=
  let n := nat_of_ascii c in
  if Nat.eqb n 34 then String "\"%char (String dquote "")
  else if Nat.eqb n 92 then "\\"
  else if Nat.eqb n 8 then "\b"
  else if Nat.eqb n 12 then "\f"
  else if Nat.eqb n 10 then "\n"
  else if Nat.eqb n 13 then "\r"
  else if Nat.eqb n 9 then "\t"
  else if Nat.ltb n 32 then
    "\u00" ++ String (hex_digit (n / 16)) (String (hex_digit (n mod 16)) "")
  else String c "".

Fixpoint quote_body (s : string) : string :=
  match s with
  | EmptyString => ""
  | String c r => quote_char c ++ quote_body r
  end.

Definition quote (s : string) : string :=
  String dquote (quote_body s ++ String dquote "").

Fixpoint join (sep : string) (xs : list string) : string :=
  match xs with
  | [] => ""
  | [x] => x
  | x :: r => x ++ sep ++ join sep r
  end.

(** [JSON.stringify] of an array of strings. *)
Definition stringify_strings (xs : list string) : string :=
  "[" ++ join "," (map quote xs) ++ "]".

End JS.
Import JS.

(* ===================================================================== *)
(** * lib/auth/rbac.ts: role checks *)
(* ===================================================================== *)

Module Rbac.

(** [IdentityUser]; [roles] is [string[] | undefined]. *)
Record IdentityUser : Type := mkUser {
  sub : string;
  email : optional string;
  roles : optional (list string)
}.

(** [PERMISSIONS.READ | PERMISSIONS.WRITE]. *)
Inductive Permission : Type := READ | WRITE.

(** [user?.roles], with [user : IdentityUser | undefined]. *)
Definition roles_of (user : option IdentityUser) : optional (list string) :=
  match user with
  | Some u => roles u
  | None => Undefined
  end.

Definition hasRole (user : option IdentityUser) (role : string) : bool :=
  match roles_of user with
  | Undefined => false
  | Defined rs => includes rs role
  end.

Definition hasAnyRole (user : option IdentityUser) (wanted : list string) : bool :=
  match roles_of user with
  | Undefined => false
  | Defined rs => some (fun role => includes rs role) wanted
  end.

Definition hasAllRoles (user : option IdentityUser) (wanted : list string) : bool :=
  match roles_of user with
  | Undefined => false
  | Defined rs => every (fun role => includes rs role) wanted
  end.

Definition isAdmin (user : option IdentityUser) : bool := hasRole user "Admin".
Definition isOwner (user : option IdentityUser) : bool := hasRole user "Owner".

Definition canEdit (user : option IdentityUser) : bool :=
  hasAnyRole user ["Admin"; "Owner"; "Editor"].

Definition canReview (user : option IdentityUser) : bool :=
  hasAnyRole user ["Admin"; "Owner"; "Editor"; "Reviewer"].

Definition canView (user : option IdentityUser) : bool :=
  hasAnyRole user ["Admin"; "Owner"; "Editor"; "Reviewer"; "Viewer"].

(** The [switch (permission)] that ends every access check: the decision
    taken from the roles alone. *)
Definition roleDecision (user : option IdentityUser) (permission : Permission) : bool :=
  match permission with
  | READ => canView user
  | WRITE => canEdit user
  end.

End Rbac.
Import Rbac.

(* ===================================================================== *)
(** * lib/db: tables, and database access as a computation *)
(* ===================================================================== *)

Module Db.

(** Rows of [service], [l10n_key], [translation] and [event], with the
    columns the modelled code reads or writes. *)
Record Service : Type := mkService {
  service_id : string;
  service_code : string;
  service_owners : list string
}.

Record L10nKey : Type := mkKey {
  key_id : string;
  key_serviceId : nullable string;
  key_namespaceId : nullable string;
  key_keyName : string;
  key_tags : list string;
  key_status : string
}.

Record Translation : Type := mkTranslation {
  tr_id : string;
  tr_keyId : string;
  tr_locale : string;
  tr_value : nullable string;
  tr_status : string;
  tr_version : Z;
  tr_updatedAt : nat
}.

Record Event : Type := mkEvent {
  ev_id : string;
  ev_actor : string;
  ev_action : string;
  ev_entityType : string;
  ev_entityId : string;
  ev_before : json;
  ev_after : json;
  ev_createdAt : nat
}.

Record Tables : Type := mkTables {
  services : list Service;
  keys : list L10nKey;
  translations : list Translation;
  events : list Event
}.

Inductive Table : Type := TService | TKey | TTranslation | TEvent.
Inductive Kind : Type := Select | Insert | Update.

(** One statement sent to the database. *)
Definition Op : Type := (Kind * Table)%type.

Definition is_select (o : Op) : bool :=
  match fst o with
  | Select => true
  | _ => false
  end.

(** The state a request runs against.  [faulty o] says that a statement
    [o] fails (connection lost, constraint of a column that is not
    modelled, ...); [uuid] feeds [crypto.randomUUID()] and [clock] is what
    [new Date()] reads. *)
Record World : Type := mkWorld {
  tables : Tables;
  oplog : list Op;
  faulty : Op -> bool;
  uuid : nat;
  clock : nat
}.

Inductive Error : Type :=
| DbError (o : Op)
| UniqueViolation (t : Table) (id : string)
| TypeError.

Inductive Result (A : Type) : Type :=
| Ok : A -> Result A
| Throw : Error -> Result A.
Arguments Throw {A}.

Definition M (A : Type) : Type := World -> Result A * World.

Definition ret {A} (a : A) : M A := fun w => (Ok a, w).

Definition bind {A B} (c : M A) (k : A -> M B) : M B :=
  fun w =>
    match c w with
    | (Ok a, w') => k a w'
    | (Throw e, w') => (Throw e, w')
    end.

Definition throw {A} (e : Error) : M A := fun w => (Throw e, w).

(** [try { c } catch (error) { h }]. *)
Definition tryCatch {A} (c : M A) (h : Error -> M A) : M A :=
  fun w =>
    match c w with
    | (Ok a, w') => (Ok a, w')
    | (Throw e, w') => h e w'
    end.

Definition with_tables (w : World) (t : Tables) : World :=
  mkWorld t (oplog w) (faulty w) (uuid w) (clock w).

Definition log_op (o : Op) (w : World) : World :=
  mkWorld (tables w) (oplog w ++ [o]) (faulty w) (uuid w) (clock w).

(** Send one statement: it is logged, and throws when the oracle says so. *)
Definition issue (o : Op) : M unit :=
  fun w =>
    if faulty w o then (Throw (DbError o), log_op o w)
    else (Ok tt, log_op o w).

Definition getTables : M Tables := fun w => (Ok (tables w), w).
Definition putTables (t : Tables) : M unit := fun w => (Ok tt, with_tables w t).
Definition now : M nat := fun w => (Ok (clock w), w).

(** [crypto.randomUUID()]: a fresh identifier. *)
Definition randomUUID : M string :=
  fun w =>
    (Ok ("uuid-" ++ dec (uuid w)),
     mkWorld (tables w) (oplog w) (faulty w) (S (uuid w)) (clock w)).

(** [db.transaction(async (tx) => body)]: the writes of a body that throws
    are rolled back, and the exception is thrown on. *)
Definition transaction {A} (body : M A) : M A :=
  fun w =>
    match body w with
    | (Ok a, w') => (Ok a, w')
    | (Throw e, w') => (Throw e, with_tables w' (tables w))
    end.

(** [for (const x of xs) { await body(x) }]. *)
Fixpoint forEach {A} (body : A -> M unit) (xs : list A) : M unit :=
  match xs with
  | [] => ret tt
  | x :: r => bind (body x) (fun _ => forEach body r)
  end.

End Db.
Import Db.

Declare Scope db_scope.
Delimit Scope db_scope with db.
Notation "x <- c ;; k" := (bind c (fun x => k))
  (at level 61, c at next level, right associativity) : db_scope.
Notation "c ;;; k" := (bind c (fun _ => k))
  (at level 61, right associativity) : db_scope.
Open Scope db_scope.

(** Queries of the modelled code. *)
Module Query.

(** The rows of [from(service).where(eq(service.id, id)).limit(1)]. *)
Definition serviceRows (t : Tables) (id : string) : list Service :=
  firstn 1 (filter (fun s => String.eqb (service_id s) id) (services t)).

(** [db.select(...).from(service).where(eq(service.id, id)).limit(1)]. *)
Definition serviceById (id : string) : M (list Service) :=
  issue (Select, TService) ;;;
  t <- getTables ;;
  ret (serviceRows t id).

(** [db.query.service.findFirst({ where: eq(service.code, code) })]. *)
Definition serviceByCode (code : string) : M (option Service) :=
  issue (Select, TService) ;;;
  t <- getTables ;;
  ret (find (fun s => String.eqb (service_code s) code) (services t)).

(** The services a key's [serviceId] joins with: none for [NULL]. *)
Definition joinService (t : Tables) (sid : nullable string) : list Service :=
  match sid with
  | Null => []
  | NVal i => filter (fun s => String.eqb (service_id s) i) (services t)
  end.

(** A row of [l10n_key LEFT JOIN service]: the owners are [null] when no
    service matches. *)
Definition keyServiceRows (t : Tables) (k : L10nKey)
  : list (nullable string * nullable (list string)) :=
  match joinService t (key_serviceId k) with
  | [] => [(key_serviceId k, Null)]
  | ss => map (fun s => (key_serviceId k, NVal (service_owners s))) ss
  end.

(** The rows of [from(l10nKey).leftJoin(service, ...)
     .where(eq(l10nKey.id, keyId)).limit(1)]. *)
Definition keyRows (t : Tables) (keyId : string)
  : list (nullable string * nullable (list string)) :=
  firstn 1
    (flat_map (keyServiceRows t)
       (filter (fun k => String.eqb (key_id k) keyId) (keys t))).

Definition keyWithService (keyId : string)
  : M (list (nullable string * nullable (list string))) :=
  issue (Select, TKey) ;;;
  t <- getTables ;;
  ret (keyRows t keyId).

(** The rows of [from(translation).innerJoin(l10nKey, ...).leftJoin(service, ...)
     .where(eq(translation.id, translationId)).limit(1)]. *)
Definition translationRows (t : Tables) (translationId : string)
  : list (nullable string * nullable (list string)) :=
  firstn 1
    (flat_map
       (fun tr =>
          flat_map (keyServiceRows t)
            (filter (fun k => String.eqb (key_id k) (tr_keyId tr)) (keys t)))
       (filter (fun tr => String.eqb (tr_id tr) translationId) (translations t))).

Definition translationWithService (translationId : string)
  : M (list (nullable string * nullable (list string))) :=
  issue (Select, TTranslation) ;;;
  t <- getTables ;;
  ret (translationRows t translationId).

(** [db.select({ id: service.id }).from(service)]. *)
Definition allServices : M (list Service) :=
  issue (Select, TService) ;;;
  t <- getTables ;;
  ret (services t).

(** The rows of [from(service).where(sql`${sub} = ANY(${service.owners})`)]. *)
Definition ownedRows (t : Tables) (sub : string) : list Service :=
  filter (fun s => includes (service_owners s) sub) (services t).

Definition ownedServices (sub : string) : M (list Service) :=
  issue (Select, TService) ;;;
  t <- getTables ;;
  ret (ownedRows t sub).

Arguments serviceRows : simpl never.
Arguments ownedRows : simpl never.
Arguments keyRows : simpl never.
Arguments translationRows : simpl never.

End Query.

(* ===================================================================== *)
(** * lib/auth/service-access.ts and the async helpers of lib/auth/rbac.ts *)
(* ===================================================================== *)

Module ServiceAccess.

(** The [WHERE] clauses the key filter builds. *)
Inductive Cond : Type :=
| KeyIdEq (id : string)
    (** [eq(l10nKey.id, id)] *)
| ServiceIdInOwned (sub : string)
    (** [inArray(l10nKey.serviceId, accessibleServiceIds)], the subquery
        being the ids of the services with [sub = ANY(owners)] *)
| ServiceIdIsNull
    (** [l10nKey.serviceId IS NULL] *)
| Or (a b : Cond).

(** A [select().from(l10nKey)] query under construction. *)
Record KeyQuery : Type := mkQuery { where_ : option Cond }.

Definition fromL10nKey : KeyQuery := mkQuery None.

(** [query.where(c)]. *)
Definition qwhere (q : KeyQuery) (c : Cond) : KeyQuery := mkQuery (Some c).

Definition impossible_key_id : string := "impossible-key-id".

Definition addKeyServiceAccessFilter
    (query : KeyQuery) (user : option IdentityUser) (permission : Permission)
  : KeyQuery :=
  match user with
  | None => qwhere query (KeyIdEq impossible_key_id)
  | Some u =>
      if isAdmin user then query
      else if (match permission with READ => true | WRITE => false end) && canView user
      then query
      else
        let accessibleServiceIds := ServiceIdInOwned (sub u) in
        if (match permission with WRITE => true | READ => false end) && negb (canEdit user)
        then qwhere query (KeyIdEq impossible_key_id)
        else qwhere query (Or accessibleServiceIds ServiceIdIsNull)
  end.

(** What Postgres answers for a clause on a row of [l10n_key]. *)
Fixpoint holds (t : Tables) (c : Cond) (k : L10nKey) : bool :=
  match c with
  | KeyIdEq id => String.eqb (key_id k) id
  | ServiceIdInOwned sub =>
      match key_serviceId k with
      | Null => false
      | NVal sid =>
          existsb
            (fun s => String.eqb (service_id s) sid && includes (service_owners s) sub)
            (services t)
      end
  | ServiceIdIsNull =>
      match key_serviceId k with
      | Null => true
      | NVal _ => false
      end
  | Or a b => holds t a k || holds t b k
  end.

(** [await query]: the rows of [l10n_key] the query returns. *)
Definition run (q : KeyQuery) : M (list L10nKey) :=
  issue (Select, TKey) ;;;
  t <- getTables ;;
  ret (match where_ q with
       | None => keys t
       | Some c => filter (holds t c) (keys t)
       end).

(** A list query over keys restricted by the access filter. *)
Definition listKeys (user : option IdentityUser) (permission : Permission)
  : M (list L10nKey) :=
  run (addKeyServiceAccessFilter fromL10nKey user permission).

Definition validateServiceAccess
    (user : option IdentityUser) (serviceId : string) (permission : Permission)
  : M bool :=
  match user with
  | None => ret false
  | Some u =>
      if isAdmin user then ret true
      else
        tryCatch
          (serviceRecord <- Query.serviceById serviceId ;;
           match serviceRecord with
           | [] => ret false
           | s :: _ =>
               if includes (service_owners s) (sub u) then ret true
               else ret (roleDecision user permission)
           end)
          (fun _ => ret false)
  end.

(** rbac.ts, [isServiceOwner]. *)
Definition isServiceOwner (user : option IdentityUser) (serviceId : string) : M bool :=
  match user with
  | None => ret false
  | Some u =>
      tryCatch
        (serviceRecord <- Query.serviceById serviceId ;;
         match serviceRecord with
         | [] => ret false
         | s :: _ => ret (includes (service_owners s) (sub u))
         end)
        (fun _ => ret false)
  end.

(** rbac.ts, [canAccessService]. *)
Definition canAccessService
    (user : option IdentityUser) (serviceId : string) (permission : Permission)
  : M bool :=
  match user with
  | None => ret false
  | Some u =>
      if isAdmin user then ret true
      else
        owner <- isServiceOwner user serviceId ;;
        if owner then ret true
        else ret (roleDecision user permission)
  end.

(** The [WHERE] clauses of the filter on [service]. *)
Inductive ServiceCond : Type :=
| ServiceIdEq (id : string)
    (** [eq(service.id, id)] *)
| OwnedBy (sub : string)
    (** [sub = ANY(service.owners)] *)
| AnyOf (conditions : list ServiceCond).
    (** [or(...conditions)] *)

(** A [select().from(service)] query under construction. *)
Record ServiceQuery : Type := mkServiceQuery { swhere : option ServiceCond }.

Definition fromService : ServiceQuery := mkServiceQuery None.

Definition impossible_service_id : string := "impossible-service-id".

Definition addServiceAccessFilter
    (query : ServiceQuery) (user : option IdentityUser) (permission : Permission)
  : ServiceQuery :=
  match user with
  | None => mkServiceQuery (Some (ServiceIdEq impossible_service_id))
  | Some u =>
      if isAdmin user then query
      else
        let conditions := [OwnedBy (sub u)] in
        if (match permission with READ => true | WRITE => false end) && canView user
        then query
        else if (match permission with WRITE => true | READ => false end) && canEdit user
        then mkServiceQuery (Some (AnyOf conditions))
        else mkServiceQuery (Some (ServiceIdEq impossible_service_id))
  end.

Fixpoint serviceHolds (c : ServiceCond) (s : Service) {struct c} : bool :=
  match c with
  | ServiceIdEq id => String.eqb (service_id s) id
  | OwnedBy sub => includes (service_owners s) sub
  | AnyOf conditions =>
      (fix any (cs : list ServiceCond) : bool :=
         match cs with
         | [] => false
         | c' :: rest => serviceHolds c' s || any rest
         end) conditions
  end.

(** [await query] on [service]. *)
Definition runService (q : ServiceQuery) : M (list Service) :=
  issue (Select, TService) ;;;
  t <- getTables ;;
  ret (match swhere q with
       | None => services t
       | Some c => filter (serviceHolds c) (services t)
       end).

(** A list query over services restricted by the access filter. *)
Definition listServices (user : option IdentityUser) (permission : Permission)
  : M (list Service) :=
  runService (addServiceAccessFilter fromService user permission).

(** service-access.ts, [getAccessibleServiceIds]: only the last query is
    inside the [try]. *)
Definition getAccessibleServiceIds
    (user : option IdentityUser) (permission : Permission) : M (list string) :=
  match user with
  | None => ret []
  | Some u =>
      if isAdmin user
      then allServices <- Query.allServices ;; ret (map service_id allServices)
      else if (match permission with READ => true | WRITE => false end) && canView user
      then allServices <- Query.allServices ;; ret (map service_id allServices)
      else
        tryCatch
          (ownedServices <- Query.ownedServices (sub u) ;;
           ret (map service_id ownedServices))
          (fun _ => ret [])
  end.

(** rbac.ts, [getAccessibleServices]: no [try] at all. *)
Definition getAccessibleServices
    (user : option IdentityUser) (permission : Permission) : M (list string) :=
  match user with
  | None => ret []
  | Some u =>
      if isAdmin user
      then allServices <- Query.allServices ;; ret (map service_id allServices)
      else
        ownedServices <- Query.ownedServices (sub u) ;;
        let ownedServiceIds := map service_id ownedServices in
        if (match permission with READ => true | WRITE => false end) && canView user
        then allServices <- Query.allServices ;; ret (map service_id allServices)
        else if (match permission with WRITE => true | READ => false end) && canEdit user
        then ret ownedServiceIds
        else ret ownedServiceIds
  end.

End ServiceAccess.
Import ServiceAccess.

(* ===================================================================== *)
(** * lib/auth/translation-access.ts *)
(* ===================================================================== *)

Module TranslationAccess.

Definition validateTranslationAccess
    (user : option IdentityUser) (translationId : string) (permission : Permission)
  : M bool :=
  match user with
  | None => ret false
  | Some u =>
      if isAdmin user then ret true
      else
        tryCatch
          (translationWithService <- Query.translationWithService translationId ;;
           match translationWithService with
           | [] => ret false
           | (serviceId, serviceOwners) :: _ =>
               if negb (truthy_nstr serviceId) then ret (roleDecision user permission)
               else
                 if (match serviceOwners with
                     | NVal owners => includes owners (sub u)
                     | Null => false
                     end)
                 then ret true
                 else ret (roleDecision user permission)
           end)
          (fun _ => ret false)
  end.

Definition validateTranslationAccessByKey
    (user : option IdentityUser) (keyId : string) (permission : Permission)
  : M bool :=
  match user with
  | None => ret false
  | Some u =>
      if isAdmin user then ret true
      else
        tryCatch
          (keyWithService <- Query.keyWithService keyId ;;
           match keyWithService with
           | [] => ret false
           | (serviceId, _) :: _ =>
               match serviceId with
               | NVal sid =>
                   if String.eqb sid "" then ret (roleDecision user permission)
                   else validateServiceAccess user sid permission
               | Null => ret (roleDecision user permission)
               end
           end)
          (fun _ => ret false)
  end.

(** The single-resource check on a key row that is already at hand:
    [validateServiceAccess] on the key's service, and the decision by role
    alone for a key with no service (the steps of
    [validateTranslationAccessByKey] after its lookup). *)
Definition canAccessKey
    (user : option IdentityUser) (k : L10nKey) (permission : Permission)
  : M bool :=
  match user with
  | None => ret false
  | Some u =>
      if isAdmin user then ret true
      else
        match key_serviceId k with
        | NVal sid =>
            if String.eqb sid "" then ret (roleDecision user permission)
            else validateServiceAccess user sid permission
        | Null => ret (roleDecision user permission)
        end
  end.

(** A [select().from(translation)] query under construction: the only
    clause the filter adds is [eq(translation.id, id)]. *)
Record TranslationQuery : Type := mkTranslationQuery { twhere : option string }.

Definition fromTranslation : TranslationQuery := mkTranslationQuery None.

Definition impossible_translation_id : string := "impossible-translation-id".

Definition addTranslationAccessFilter
    (query : TranslationQuery) (user : option IdentityUser) (permission : Permission)
  : TranslationQuery :=
  match user with
  | None => mkTranslationQuery (Some impossible_translation_id)
  | Some u =>
      if isAdmin user then query
      else if (match permission with READ => true | WRITE => false end) && canView user
      then query
      else if (match permission with WRITE => true | READ => false end) && negb (canEdit user)
      then mkTranslationQuery (Some impossible_translation_id)
      else query
  end.

(** [await query] on [translation]. *)
Definition runTranslation (q : TranslationQuery) : M (list Translation) :=
  issue (Select, TTranslation) ;;;
  t <- getTables ;;
  ret (match twhere q with
       | None => translations t
       | Some id => filter (fun r => String.eqb (tr_id r) id) (translations t)
       end).

Definition listTranslations (user : option IdentityUser) (permission : Permission)
  : M (list Translation) :=
  runTranslation (addTranslationAccessFilter fromTranslation user permission).

(** [translationAuthHelpers]. *)
Definition canReadTranslation (user : option IdentityUser) (translationId : string) : M bool :=
  validateTranslationAccess user translationId READ.

Definition canWriteTranslation (user : option IdentityUser) (translationId : string) : M bool :=
  validateTranslationAccess user translationId WRITE.

Definition canCreateTranslationForKey (user : option IdentityUser) (keyId : string) : M bool :=
  validateTranslationAccessByKey user keyId WRITE.

Definition canListTranslations (user : option IdentityUser) : bool :=
  match user with
  | Some _ => isAdmin user || canView user
  | None => false
  end.

End TranslationAccess.
Import TranslationAccess.

(* ===================================================================== *)
(** * Regular expressions, as the JavaScript engine runs them *)
(* ===================================================================== *)

(** A backtracking matcher with the priorities of ECMAScript: alternatives
    left to right, quantifiers greedy, an iteration that matches the empty
    string refused once the minimum is reached.  Only the constructs the
    patterns of [pii-redaction.ts] use; no flag other than [g]. *)
Module Regex.

Inductive re : Type :=
| Eps
| Cls (p : ascii -> bool)
| Seq (a b : re)
| Alt (a b : re)
| Rep (a : re) (lo : nat) (hi : option nat)
| WordB.

Definition code (c : ascii) : nat := nat_of_ascii c.
Definition between (lo hi : nat) (c : ascii) : bool :=
  Nat.leb lo (code c) && Nat.leb (code c) hi.
Definition is_chr (x : ascii) (c : ascii) : bool := Nat.eqb (code c) (code x).
Definition one_of (s : string) (c : ascii) : bool :=
  existsb (fun x => is_chr x c) (list_ascii_of_string s).

Definition digit : ascii -> bool := between 48 57.
Definition upper : ascii -> bool := between 65 90.
Definition lower : ascii -> bool := between 97 122.
Definition alnum (c : ascii) : bool := upper c || lower c || digit c.
(** [\w] *)
Definition word (c : ascii) : bool := alnum c || is_chr "_"%char c.
(** [\s] on code units below 256: TAB, LF, VT, FF, CR, space, NBSP. *)
Definition space (c : ascii) : bool :=
  between 9 13 c || Nat.eqb (code c) 32 || Nat.eqb (code c) 160.

Definition chr (x : ascii) : re := Cls (is_chr x).
Definition opt (a : re) : re := Rep a 0 (Some 1).
Definition plus (a : re) : re := Rep a 1 None.
Definition times (n : nat) (a : re) : re := Rep a n (Some n).
Definition at_least (n : nat) (a : re) : re := Rep a n None.
Definition seq (rs : list re) : re := fold_right Seq Eps rs.
Definition alt (rs : list re) : re :=
  match rs with
  | [] => Eps
  | r :: rest => fold_left Alt rest r
  end.
Definition lit (s : string) : re := seq (map chr (list_ascii_of_string s)).

(** A position in the subject: the code unit before it and what follows. *)
Definition Pos : Type := (option ascii * list ascii)%type.

Definition word_at (c : option ascii) : bool :=
  match c with
  | Some x => word x
  | None => false
  end.

(** [run r prev rest k]: match [r] at the position, then continue with
    [k]; the first success in priority order. *)
Fixpoint run (r : re) (prev : option ascii) (rest : list ascii)
    (k : option ascii -> list ascii -> option Pos) {struct r} : option Pos :=
  match r with
  | Eps => k prev rest
  | Cls p =>
      match rest with
      | c :: tl => if p c then k (Some c) tl else None
      | [] => None
      end
  | Seq a b => run a prev rest (fun p' r' => run b p' r' k)
  | Alt a b =>
      match run a prev rest k with
      | Some x => Some x
      | None => run b prev rest k
      end
  | Rep a lo hi =>
      (fix loop (fuel lo : nat) (hi : option nat)
           (prev : option ascii) (rest : list ascii) {struct fuel} : option Pos :=
         match fuel with
         | O => None
         | S fuel' =>
             let again :=
               match hi with
               | Some O => None
               | _ =>
                   run a prev rest
                     (fun p' r' =>
                        if Nat.eqb lo 0 && Nat.eqb (length r') (length rest)
                        then None
                        else loop fuel' (Nat.pred lo) (option_map Nat.pred hi) p' r')
               end in
             match again with
             | Some x => Some x
             | None => if Nat.eqb lo 0 then k prev rest else None
             end
         end) (S (lo + length rest)) lo hi prev rest
  | WordB =>
      if xorb (word_at prev) (word_at (hd_error rest)) then k prev rest else None
  end.

(** A match of the whole pattern starting exactly here: the position
    after it. *)
Definition match_here (r : re) (prev : option ascii) (rest : list ascii) : option Pos :=
  run r prev rest (fun p' r' => Some (p', r')).

(** [pattern.test(s)] with [lastIndex = 0]: is there a match anywhere? *)
Fixpoint test_from (r : re) (prev : option ascii) (rest : list ascii) : bool :=
  match match_here r prev rest with
  | Some _ => true
  | None =>
      match rest with
      | [] => false
      | c :: tl => test_from r (Some c) tl
      end
  end.

Definition test (r : re) (s : string) : bool :=
  test_from r None (list_ascii_of_string s).

(** [s.replace(pattern, replacement)] for a global pattern and a
    replacement without [$]: every match, leftmost first, none
    overlapping. *)
Fixpoint replace_from (fuel : nat) (r : re) (replacement : list ascii)
    (prev : option ascii) (rest : list ascii) : list ascii :=
  match fuel with
  | O => rest
  | S fuel' =>
      let step :=
        match rest with
        | [] => []
        | c :: tl => c :: replace_from fuel' r replacement (Some c) tl
        end in
      match match_here r prev rest with
      | Some (p', r') =>
          if Nat.eqb (length r') (length rest)
          then replacement ++ step
          else replacement ++ replace_from fuel' r replacement p' r'
      | None => step
      end
  end.

Definition replace (s : string) (r : re) (replacement : string) : string :=
  let cs := list_ascii_of_string s in
  string_of_list_ascii
    (replace_from (S (length cs)) r (list_ascii_of_string replacement) None cs).

End Regex.

(* ===================================================================== *)
(** * lib/audit/pii-redaction.ts *)
(* ===================================================================== *)

Module Redaction.
Import Regex.

(** ** PII_PATTERNS *)

(** [\b[A-Za-z0-9._%+-]+@[A-Za-z0-9.-]+\.[A-Z|a-z]{2,}\b] *)
Definition email : re :=
  seq [ WordB;
        plus (Cls (fun c => alnum c || one_of "._%+-" c));
        chr "@";
        plus (Cls (fun c => alnum c || one_of ".-" c));
        chr ".";
        at_least 2 (Cls (fun c => upper c || is_chr "|" c || lower c));
        WordB ].

(** [[-.\s]] *)
Definition dash_dot_space : re := Cls (fun c => one_of "-." c || space c).

(** [(\+?1[-.\s]?)?\(?([0-9]{3})\)?[-.\s]?([0-9]{3})[-.\s]?([0-9]{4})] *)
Definition phone : re :=
  seq [ opt (seq [opt (chr "+"); chr "1"; opt dash_dot_space]);
        opt (chr "(");
        times 3 (Cls digit);
        opt (chr ")");
        opt dash_dot_space;
        times 3 (Cls digit);
        opt dash_dot_space;
        times 4 (Cls digit) ].

(** [\b\d{3}-?\d{2}-?\d{4}\b] *)
Definition ssn : re :=
  seq [ WordB; times 3 (Cls digit); opt (chr "-"); times 2 (Cls digit);
        opt (chr "-"); times 4 (Cls digit); WordB ].

(** [\b(?:\d{4}[-\s]?){3}\d{4}\b] *)
Definition creditCard : re :=
  seq [ WordB;
        times 3 (seq [times 4 (Cls digit); opt (Cls (fun c => is_chr "-" c || space c))]);
        times 4 (Cls digit);
        WordB ].

(** [25[0-5]|2[0-4][0-9]|[01]?[0-9][0-9]?] *)
Definition octet : re :=
  alt [ seq [lit "25"; Cls (between 48 53)];
        seq [chr "2"; Cls (between 48 52); Cls digit];
        seq [opt (Cls (one_of "01")); Cls digit; opt (Cls digit)] ].

(** [\b(?:(?:octet)\.){3}(?:octet)\b] *)
Definition ipv4 : re :=
  seq [ WordB; times 3 (seq [octet; chr "."]); octet; WordB ].

(** [https?:\/\/[^\s]+[?&]([^=]+=[^&\s]+)] *)
Definition urlWithParams : re :=
  seq [ lit "http"; opt (chr "s"); lit "://";
        plus (Cls (fun c => negb (space c)));
        Cls (one_of "?&");
        plus (Cls (fun c => negb (is_chr "=" c)));
        chr "=";
        plus (Cls (fun c => negb (is_chr "&" c || space c))) ].

(** [\b[A-Za-z0-9]{20,}\b] *)
Definition apiKey : re := seq [ WordB; at_least 20 (Cls alnum); WordB ].

(** [Object.entries(PII_PATTERNS)], in the order the literal lists them. *)
Definition PII_PATTERNS : list (string * re) :=
  [ ("email", email); ("phone", phone); ("ssn", ssn); ("creditCard", creditCard);
    ("ipv4", ipv4); ("urlWithParams", urlWithParams); ("apiKey", apiKey) ].

Definition SENSITIVE_FIELD_NAMES : list string :=
  [ "password"; "secret"; "token"; "key"; "api_key"; "apikey"; "auth";
    "authorization"; "credential"; "private"; "confidential" ].

Record RedactionConfig : Type := mkConfig {
  maxValueLength : nat;
  enablePatternDetection : bool;
  enableFieldNameDetection : bool;
  customPatterns : optional (list re);
  whitelistFields : optional (list string)
}.

Definition DEFAULT_REDACTION_CONFIG : RedactionConfig :=
  mkConfig 100 true true (Defined [])
    (Defined ["id"; "status"; "version"; "locale"; "created_at"; "updated_at"]).

(** ** String helpers *)

Definition map_string (f : ascii -> ascii) (s : string) : string :=
  string_of_list_ascii (map f (list_ascii_of_string s)).

(** [toUpperCase] on a name made of ASCII letters. *)
Definition toUpperCase : string -> string :=
  map_string (fun c => if lower c then ascii_of_nat (code c - 32) else c).

(** [toLowerCase] on code units below 256: A-Z and the accented capitals
    0xC0-0xDE other than the multiplication sign. *)
Definition toLowerCase : string -> string :=
  map_string
    (fun c =>
       if upper c || (between 192 222 c && negb (Nat.eqb (code c) 215))
       then ascii_of_nat (code c + 32)
       else c).

(** [hay.includes(needle)] on strings. *)
Fixpoint str_includes (hay needle : string) : bool :=
  String.prefix needle hay ||
  match hay with
  | EmptyString => false
  | String _ r => str_includes r needle
  end.

(** ** redactStringValue *)

(** The loop over [Object.entries(PII_PATTERNS)]: each pattern is tested
    on the original [value] and replaced in the running [redactedValue].
    Every [test] starts at [lastIndex = 0]: a [test] that succeeds is
    followed by a [replace], which resets it. *)
Definition applyPatterns (value : string) (start : string * list string)
  : string * list string :=
  fold_left
    (fun (acc : string * list string) (entry : string * re) =>
       let '(redactedValue, redactionReasons) := acc in
       let '(patternName, pattern) := entry in
       if test pattern value
       then (replace redactedValue pattern ("[" ++ toUpperCase patternName ++ "_REDACTED]"),
             (redactionReasons ++ [patternName])%list)
       else acc)
    PII_PATTERNS start.

(** The loop over [config.customPatterns.entries()]. *)
Definition applyCustomPatterns (value : string) (patterns : list re)
    (start : string * list string) : string * list string :=
  snd
    (fold_left
       (fun (st : nat * (string * list string)) (pattern : re) =>
          let '(index, (redactedValue, redactionReasons)) := st in
          if test pattern value
          then (S index,
                (replace redactedValue pattern "[CUSTOM_PII_REDACTED]",
                 (redactionReasons ++ [("custom_pattern_" ++ dec index)%string])%list))
          else (S index, (redactedValue, redactionReasons)))
       patterns (O, start)).

Definition redactStringValue (value : string) (config : RedactionConfig) : string :=
  if Nat.ltb 0 (maxValueLength config)
     && Nat.ltb (maxValueLength config) (String.length value)
  then
    let redactionReasons := ["exceeds " ++ dec (maxValueLength config) ++ " chars"] in
    "[REDACTED: " ++ dec (String.length value) ++ " characters - "
      ++ join ", " redactionReasons ++ "]"
  else
    let '(redactedValue, redactionReasons) :=
      if enablePatternDetection config
      then
        let st := applyPatterns value (value, []) in
        match customPatterns config with
        | Defined ps => applyCustomPatterns value ps st
        | Undefined => st
        end
      else (value, [])
    in
    if Nat.ltb 0 (length redactionReasons) then redactedValue else value.

(** ** isFieldNameSensitive *)

Definition isFieldNameSensitive (fieldName : string) (config : RedactionConfig) : bool :=
  if negb (enableFieldNameDetection config) then false
  else if (match whitelistFields config with
           | Defined ws => includes ws (toLowerCase fieldName)
           | Undefined => false
           end)
  then false
  else
    let lowerFieldName := toLowerCase fieldName in
    some (fun sensitiveField => str_includes lowerFieldName sensitiveField)
      SENSITIVE_FIELD_NAMES.

(** ** redactObjectFields
    The [parentKey] argument of the source only builds a path string that
    nothing reads; it is left out. *)
Fixpoint redactObjectFields (config : RedactionConfig) (obj : json) {struct obj} : json :=
  match obj with
  | JNull => JNull
  | JArr items => JArr (map (redactObjectFields config) items)
  | JObj props =>
      JObj
        ((fix entries (ps : list (string * json)) : list (string * json) :=
            match ps with
            | [] => []
            | (key, value) :: rest =>
                (key,
                 if isFieldNameSensitive key config
                 then JStr "[REDACTED: sensitive field name]"
                 else
                   match value with
                   | JStr s => JStr (redactStringValue s config)
                   | _ => redactObjectFields config value
                   end) :: entries rest
            end) props)
  | JStr s => JStr (redactStringValue s config)
  | other => other
  end.

(** ** redactSensitiveData *)

(** Truthiness of a JSON value. *)
Definition truthy (v : json) : bool :=
  match v with
  | JNull => false
  | JBool b => b
  | JNum n => negb (Z.eqb n 0)
  | JStr s => negb (String.eqb s "")
  | JArr _ | JObj _ => true
  end.

(** [record[name]]; [None] is [undefined]. *)
Fixpoint get_prop (name : string) (record : list (string * json)) : option json :=
  match record with
  | [] => None
  | (k, v) :: rest => if String.eqb k name then Some v else get_prop name rest
  end.

(** [record[name] = v] on a record that has the property. *)
Fixpoint set_prop (name : string) (v : json) (record : list (string * json))
  : list (string * json) :=
  match record with
  | [] => [(name, v)]
  | (k, old) :: rest =>
      if String.eqb k name then (k, v) :: rest else (k, old) :: set_prop name v rest
  end.

Section WithJsonParse.

(** [JSON.parse], [None] when it throws. *)
Variable JSON_parse : string -> option json.

(** The block [if (redactedEvent.f) { ... redactedEvent.f = ... }]. *)
Definition redactField (f : string) (config : RedactionConfig)
    (redactedEvent : list (string * json)) : option (list (string * json)) :=
  match get_prop f redactedEvent with
  | Some v =>
      if truthy v then
        match (match v with JStr s => JSON_parse s | _ => Some v end) with
        | Some data => Some (set_prop f (redactObjectFields config data) redactedEvent)
        | None => None
        end
      else Some redactedEvent
  | None => Some redactedEvent
  end.

(** [None] when [JSON.parse] throws. *)
Definition redactSensitiveData (eventRecord : list (string * json))
    (config : RedactionConfig) : option (list (string * json)) :=
  match redactField "before" config eventRecord with
  | Some redactedEvent => redactField "after" config redactedEvent
  | None => None
  end.

End WithJsonParse.

(** [validateRedaction]'s first loop: no PII pattern is left in the text. *)
Definition noPatternLeft (redacted : string) : bool :=
  forallb (fun entry => negb (test (snd entry) redacted)) PII_PATTERNS.

End Redaction.

(* ===================================================================== *)
(** * Statements that write *)
(* ===================================================================== *)

Module Write.

Definition insertKey (k : L10nKey) : M unit :=
  issue (Insert, TKey) ;;;
  t <- getTables ;;
  if existsb (fun x => String.eqb (key_id x) (key_id k)) (keys t)
  then throw (UniqueViolation TKey (key_id k))
  else putTables (mkTables (services t) (keys t ++ [k]) (translations t) (events t)).

Definition insertTranslation (r : Translation) : M unit :=
  issue (Insert, TTranslation) ;;;
  t <- getTables ;;
  if existsb (fun x => String.eqb (tr_id x) (tr_id r)) (translations t)
  then throw (UniqueViolation TTranslation (tr_id r))
  else putTables (mkTables (services t) (keys t) (translations t ++ [r]) (events t)).

Definition insertEvent (e : Event) : M unit :=
  issue (Insert, TEvent) ;;;
  t <- getTables ;;
  if existsb (fun x => String.eqb (ev_id x) (ev_id e)) (events t)
  then throw (UniqueViolation TEvent (ev_id e))
  else putTables (mkTables (services t) (keys t) (translations t) (events t ++ [e])).

(** [update(l10nKey).set(...).where(eq(l10nKey.id, id))]. *)
Definition updateKey (id : string) (set : L10nKey -> L10nKey) : M unit :=
  issue (Update, TKey) ;;;
  t <- getTables ;;
  putTables
    (mkTables (services t)
       (map (fun k => if String.eqb (key_id k) id then set k else k) (keys t))
       (translations t) (events t)).

(** [update(translation).set(...).where(eq(translation.id, id))]. *)
Definition updateTranslation (id : string) (set : Translation -> Translation) : M unit :=
  issue (Update, TTranslation) ;;;
  t <- getTables ;;
  putTables
    (mkTables (services t) (keys t)
       (map (fun r => if String.eqb (tr_id r) id then set r else r) (translations t))
       (events t)).

End Write.

(* ===================================================================== *)
(** * lib/audit/event-logger.ts *)
(* ===================================================================== *)

Module Audit.

Record EventLogData : Type := mkEventLogData {
  actor : string;
  action : string;
  entityType : string;
  entityId : string;
  before : optional json;
  after : optional json
}.

(** [v ? v : null] on an optional object. *)
Definition or_null (v : optional json) : json :=
  match v with
  | Defined o => o
  | Undefined => JNull
  end.

(** [logEvent(eventData, tx = db)]: one insert into [event], on whatever
    handle it is given; it opens no transaction of its own. *)
Definition logEvent (eventData : EventLogData) : M unit :=
  id <- randomUUID ;;
  createdAt <- now ;;
  Write.insertEvent
    (mkEvent id (actor eventData) (action eventData) (entityType eventData)
       (entityId eventData) (or_null (before eventData)) (or_null (after eventData))
       createdAt).

(** [tx.insert(event).values({ id: crypto.randomUUID(), ... })], the
    creation time left to the column default. *)
Definition recordEvent (actor action entityType entityId : string)
    (before after : json) : M unit :=
  id <- randomUUID ;;
  createdAt <- now ;;
  Write.insertEvent (mkEvent id actor action entityType entityId before after createdAt).

End Audit.

(* ===================================================================== *)
(** * A JavaScript [Map] with string keys *)
(* ===================================================================== *)

Module JSMap.

(** The entries in insertion order; a key occurs once. *)
Definition t (V : Type) : Type := list (string * V).

Definition empty {V} : t V := [].

Fixpoint get {V} (m : t V) (k : string) : option V :=
  match m with
  | [] => None
  | (k', v) :: r => if String.eqb k' k then Some v else get r k
  end.

Definition has {V} (m : t V) (k : string) : bool :=
  match get m k with
  | Some _ => true
  | None => false
  end.

(** [m.set(k, v)]: a key already present keeps its place. *)
Fixpoint set {V} (m : t V) (k : string) (v : V) : t V :=
  match m with
  | [] => [(k, v)]
  | (k', v') :: r => if String.eqb k' k then (k', v) :: r else (k', v') :: set r k v
  end.

(** [new Map(entries)]. *)
Definition of_entries {V} (entries : list (string * V)) : t V :=
  fold_left (fun m e => set m (fst e) (snd e)) entries empty.

(** [Array.from(m.values())]. *)
Definition values {V} (m : t V) : list V := map snd m.

End JSMap.

(* ===================================================================== *)
(** * lib/api/import-export-types.ts and routes/api/import.ts *)
(* ===================================================================== *)

Module ImportRoute.

(** ** The payload and its zod schema *)

Record TranslationData : Type := mkTranslationData {
  td_locale : string;
  td_value : string;
  td_status : string;
  td_version : Z
}.

Record KeyData : Type := mkKeyData {
  kd_id : string;
  kd_keyName : string;
  kd_namespaceId : optional string;
  kd_tags : list string;
  kd_status : string;
  kd_translations : list TranslationData
}.

(** [{ dryRun, service, data: { keys } }]. *)
Record ImportPayload : Type := mkPayload {
  dryRun : bool;
  service : string;
  data_keys : list KeyData
}.

Definition supportedLocales : list string :=
  ["en"; "es"; "fr"; "de"; "it"; "pt"; "ru"; "ja"; "ko"; "zh"; "ar"; "hi"].

Definition translationStatusEnum : list string := ["draft"; "active"; "archived"].

Definition min1 (s : string) : bool := Nat.leb 1 (String.length s).

Definition translationSchema (td : TranslationData) : bool :=
  includes supportedLocales (td_locale td)
  && includes translationStatusEnum (td_status td)
  && Z.ltb 0 (td_version td).

Definition keySchema (kd : KeyData) : bool :=
  min1 (kd_id kd) && min1 (kd_keyName kd)
  && includes translationStatusEnum (kd_status kd)
  && forallb translationSchema (kd_translations kd).

(** [importPayloadSchema.safeParse(body)] on a body that carries every
    property: [None] is a failed parse. *)
Definition safeParse (body : ImportPayload) : option ImportPayload :=
  if min1 (service body) && forallb keySchema (data_keys body)
  then Some body
  else None.

(** ** DiffReport *)

Inductive ChangeType : Type :=
| create_key | update_key | create_translation | update_translation.

Record Change : Type := mkChange {
  change_type : ChangeType;
  change_keyId : string;
  change_keyName : string;
  change_locale : optional string;
  change_before : optional json;
  change_after : json
}.

Record Summary : Type := mkSummary {
  keysToCreate : nat;
  keysToUpdate : nat;
  translationsToCreate : nat;
  translationsToUpdate : nat
}.

Record DiffReport : Type := mkReport {
  summary : Summary;
  changes : list Change
}.

Definition emptyReport : DiffReport := mkReport (mkSummary 0 0 0 0) [].

(** [changes.push(c)]. *)
Definition push (c : Change) (r : DiffReport) : DiffReport :=
  mkReport (summary r) (changes r ++ [c]).

Definition addKeysToCreate (n : nat) (r : DiffReport) : DiffReport :=
  let s := summary r in
  mkReport (mkSummary (keysToCreate s + n) (keysToUpdate s) (translationsToCreate s)
              (translationsToUpdate s)) (changes r).

Definition addKeysToUpdate (n : nat) (r : DiffReport) : DiffReport :=
  let s := summary r in
  mkReport (mkSummary (keysToCreate s) (keysToUpdate s + n) (translationsToCreate s)
              (translationsToUpdate s)) (changes r).

Definition addTranslationsToCreate (n : nat) (r : DiffReport) : DiffReport :=
  let s := summary r in
  mkReport (mkSummary (keysToCreate s) (keysToUpdate s) (translationsToCreate s + n)
              (translationsToUpdate s)) (changes r).

Definition addTranslationsToUpdate (n : nat) (r : DiffReport) : DiffReport :=
  let s := summary r in
  mkReport (mkSummary (keysToCreate s) (keysToUpdate s) (translationsToCreate s)
              (translationsToUpdate s + n)) (changes r).

(** ** Snapshots written into reports and events *)

Definition incomingKeyState (keyData : KeyData) : json :=
  JObj ([("keyName", JStr (kd_keyName keyData))]
          ++ prop_opt "namespaceId" (kd_namespaceId keyData)
          ++ [("tags", jstrings (kd_tags keyData)); ("status", JStr (kd_status keyData))]).

Definition existingKeyState (existingKey : L10nKey) : json :=
  JObj [ ("keyName", JStr (key_keyName existingKey));
         ("namespaceId", jnullable (key_namespaceId existingKey));
         ("tags", jstrings (key_tags existingKey));
         ("status", JStr (key_status existingKey)) ].

Definition incomingTranslationState (td : TranslationData) : json :=
  JObj [ ("locale", JStr (td_locale td)); ("value", JStr (td_value td));
         ("status", JStr (td_status td)); ("version", JNum (td_version td)) ].

Definition existingTranslationState (et : Translation) : json :=
  JObj [ ("locale", JStr (tr_locale et)); ("value", jnullable (tr_value et));
         ("status", JStr (tr_status et)); ("version", JNum (tr_version et)) ].

(** ** The comparisons *)

Definition keyChanged (existingKey : L10nKey) (keyData : KeyData) : bool :=
  negb (String.eqb (key_keyName existingKey) (kd_keyName keyData))
  || strict_neq_null_undef (key_namespaceId existingKey) (kd_namespaceId keyData)
  || negb (String.eqb (stringify_strings (key_tags existingKey))
                      (stringify_strings (kd_tags keyData)))
  || negb (String.eqb (key_status existingKey) (kd_status keyData)).

Definition translationChanged (existingTranslation : Translation)
    (translationData : TranslationData) : bool :=
  strict_neq_null_str (tr_value existingTranslation) (td_value translationData)
  || negb (String.eqb (tr_status existingTranslation) (td_status translationData))
  || negb (Z.eqb (tr_version existingTranslation) (td_version translationData)).

(** ** The read both paths start with *)

(** [findMany({ where: eq(l10nKey.serviceId, serviceId), with: { translations: true } })]. *)
Definition existingKeysOf (t : Tables) (serviceId : string)
  : list (L10nKey * list Translation) :=
  map (fun k => (k, filter (fun r => String.eqb (tr_keyId r) (key_id k)) (translations t)))
      (filter (fun k => match key_serviceId k with
                        | NVal s => String.eqb s serviceId
                        | Null => false
                        end) (keys t)).

Definition findExistingKeys (serviceId : string) : M (list (L10nKey * list Translation)) :=
  issue (Select, TKey) ;;;
  t <- getTables ;;
  ret (existingKeysOf t serviceId).

Definition keyMapOf (existingKeys : list (L10nKey * list Translation))
  : JSMap.t (L10nKey * list Translation) :=
  JSMap.of_entries (map (fun key => (key_id (fst key), key)) existingKeys).

Definition translationMapOf (existing : list Translation) : JSMap.t Translation :=
  JSMap.of_entries (map (fun t => (tr_locale t, t)) existing).

(** ** generateDiffReport *)

Definition createTranslationChange (keyData : KeyData) (td : TranslationData) : Change :=
  mkChange create_translation (kd_id keyData) (kd_keyName keyData)
    (Defined (td_locale td)) Undefined (incomingTranslationState td).

(** Body of the loop over the translations of a key that exists. *)
Definition diffTranslation (keyData : KeyData) (existingTranslationMap : JSMap.t Translation)
    (r : DiffReport) (translationData : TranslationData) : DiffReport :=
  match JSMap.get existingTranslationMap (td_locale translationData) with
  | None =>
      push (createTranslationChange keyData translationData)
           (addTranslationsToCreate 1 r)
  | Some existingTranslation =>
      if translationChanged existingTranslation translationData
      then
        push (mkChange update_translation (kd_id keyData) (kd_keyName keyData)
                (Defined (td_locale translationData))
                (Defined (existingTranslationState existingTranslation))
                (incomingTranslationState translationData))
             (addTranslationsToUpdate 1 r)
      else r
  end.

(** Body of the loop over [importData.keys]. *)
Definition diffKey (existingKeyMap : JSMap.t (L10nKey * list Translation))
    (r : DiffReport) (keyData : KeyData) : DiffReport :=
  match JSMap.get existingKeyMap (kd_id keyData) with
  | None =>
      let r1 :=
        push (mkChange create_key (kd_id keyData) (kd_keyName keyData) Undefined
                Undefined (incomingKeyState keyData))
             (addKeysToCreate 1 r) in
      fold_left (fun acc td => push (createTranslationChange keyData td) acc)
        (kd_translations keyData)
        (addTranslationsToCreate (length (kd_translations keyData)) r1)
  | Some (existingKey, existingTranslations) =>
      let r1 :=
        if keyChanged existingKey keyData
        then
          push (mkChange update_key (kd_id keyData) (kd_keyName keyData) Undefined
                  (Defined (existingKeyState existingKey)) (incomingKeyState keyData))
               (addKeysToUpdate 1 r)
        else r in
      fold_left (diffTranslation keyData (translationMapOf existingTranslations))
        (kd_translations keyData) r1
  end.

Definition generateDiffReport (serviceId : string) (importData : list KeyData)
  : M DiffReport :=
  existingKeys <- findExistingKeys serviceId ;;
  ret (fold_left (diffKey (keyMapOf existingKeys)) importData emptyReport).

(** ** executeImport *)

(** Insert one incoming translation and its [create] event. *)
Definition createTranslation (userId : string) (keyData : KeyData)
    (translationData : TranslationData) : M unit :=
  translationId <- randomUUID ;;
  updatedAt <- now ;;
  Write.insertTranslation
    (mkTranslation translationId (kd_id keyData) (td_locale translationData)
       (NVal (td_value translationData)) (td_status translationData)
       (td_version translationData) updatedAt) ;;;
  Audit.recordEvent userId "create" "translation" translationId JNull
    (JObj [ ("keyId", JStr (kd_id keyData));
            ("locale", JStr (td_locale translationData));
            ("value", JStr (td_value translationData));
            ("status", JStr (td_status translationData));
            ("version", JNum (td_version translationData)) ]).

(** Body of the loop over the translations of a key that exists. *)
Definition importTranslation (userId : string) (keyData : KeyData)
    (existingTranslationMap : JSMap.t Translation)
    (translationData : TranslationData) : M unit :=
  match JSMap.get existingTranslationMap (td_locale translationData) with
  | None => createTranslation userId keyData translationData
  | Some existingTranslation =>
      if translationChanged existingTranslation translationData
      then
        let beforeState := existingTranslationState existingTranslation in
        updatedAt <- now ;;
        Write.updateTranslation (tr_id existingTranslation)
          (fun r =>
             mkTranslation (tr_id r) (tr_keyId r) (tr_locale r)
               (NVal (td_value translationData)) (td_status translationData)
               (td_version translationData) updatedAt) ;;;
        Audit.recordEvent userId "update" "translation" (tr_id existingTranslation)
          beforeState (incomingTranslationState translationData)
      else ret tt
  end.

(** Body of the loop over [importData.keys].  In [.set({ namespaceId })]
    an [undefined] value leaves the column as it is. *)
Definition importKey (serviceId userId : string)
    (existingKeyMap : JSMap.t (L10nKey * list Translation))
    (keyData : KeyData) : M unit :=
  match JSMap.get existingKeyMap (kd_id keyData) with
  | None =>
      Write.insertKey
        (mkKey (kd_id keyData) (NVal serviceId) (nullish_null (kd_namespaceId keyData))
           (kd_keyName keyData) (kd_tags keyData) (kd_status keyData)) ;;;
      Audit.recordEvent userId "create" "l10n_key" (kd_id keyData) JNull
        (JObj ([("keyName", JStr (kd_keyName keyData)); ("serviceId", JStr serviceId)]
                 ++ prop_opt "namespaceId" (kd_namespaceId keyData)
                 ++ [("tags", jstrings (kd_tags keyData));
                     ("status", JStr (kd_status keyData))])) ;;;
      forEach (createTranslation userId keyData) (kd_translations keyData)
  | Some (existingKey, existingTranslations) =>
      (if keyChanged existingKey keyData
       then
         let beforeState := existingKeyState existingKey in
         Write.updateKey (kd_id keyData)
           (fun k =>
              mkKey (key_id k) (key_serviceId k)
                (match kd_namespaceId keyData with
                 | Defined ns => NVal ns
                 | Undefined => key_namespaceId k
                 end)
                (kd_keyName keyData) (kd_tags keyData) (kd_status keyData)) ;;;
         Audit.recordEvent userId "update" "l10n_key" (kd_id keyData)
           beforeState (incomingKeyState keyData)
       else ret tt) ;;;
      forEach (importTranslation userId keyData (translationMapOf existingTranslations))
        (kd_translations keyData)
  end.

Definition executeImport (serviceId : string) (importData : list KeyData)
    (userId : string) : M unit :=
  transaction
    (existingKeys <- findExistingKeys serviceId ;;
     forEach (importKey serviceId userId (keyMapOf existingKeys)) importData).

(** ** The route handler *)

Inductive Body : Type :=
| ErrorBody (message : string)
| DryRunBody (serviceCode : string) (report : DiffReport)
| ImportedBody (serviceCode : string) (nkeys ntranslations : nat).

Record Response : Type := mkResponse {
  status : nat;
  body : Body
}.

Definition translationsCount (importData : list KeyData) : nat :=
  fold_left (fun sum key => sum + length (kd_translations key)) importData 0.

(** [POST /api/import], from the authenticated user (the outcome of
    [getAuthenticatedUser]) and the JSON body. *)
Definition POST (user : option IdentityUser) (requestBody : ImportPayload) : M Response :=
  match user with
  | None => ret (mkResponse 401 (ErrorBody "Unauthorized"))
  | Some u =>
      match safeParse requestBody with
      | None => ret (mkResponse 400 (ErrorBody "validation"))
      | Some parsed =>
          let serviceCode := service parsed in
          let importData := data_keys parsed in
          svc <- Query.serviceByCode serviceCode ;;
          match svc with
          | None => ret (mkResponse 404 (ErrorBody "Service not found"))
          | Some svc =>
              hasAccess <- validateServiceAccess user (service_id svc) WRITE ;;
              if negb hasAccess
              then ret (mkResponse 403
                          (ErrorBody "You don't have permission to import data for this service"))
              else
                tryCatch
                  (if dryRun parsed
                   then
                     diffReport <- generateDiffReport (service_id svc) importData ;;
                     ret (mkResponse 200 (DryRunBody serviceCode diffReport))
                   else
                     executeImport (service_id svc) importData (sub u) ;;;
                     Audit.recordEvent (sub u) "import" "service" (service_id svc) JNull
                       (JObj [ ("service", JStr serviceCode);
                               ("keysCount", JNum (Z.of_nat (length importData)));
                               ("translationsCount",
                                JNum (Z.of_nat (translationsCount importData))) ]) ;;;
                     ret (mkResponse 201
                            (ImportedBody serviceCode (length importData)
                               (translationsCount importData))))
                  (fun _ => ret (mkResponse 500 (ErrorBody "Import operation failed")))
          end
      end
  end.

End ImportRoute.

(* ===================================================================== *)
(** * routes/api/export.ts *)
(* ===================================================================== *)

Module ExportRoute.
Import ImportRoute.

(** [ExportData]; its [data.keys] has the shape of the import payload. *)
Record ExportData : Type := mkExport {
  ex_service : string;
  ex_locales : list string;
  ex_exportedAt : nat;
  ex_keys : list KeyData
}.

Record Options : Type := mkOptions {
  opt_locales : optional (list string);
  opt_status : optional string;
  includeEmpty : bool
}.

(** The route's defaults: no locale list, no status, [includeEmpty] false. *)
Definition defaultOptions : Options := mkOptions Undefined Undefined false.

(** [if (status)]: an absent or empty status adds no condition. *)
Definition statusFilter (o : Options) : option string :=
  match opt_status o with
  | Defined s => if String.eqb s "" then None else Some s
  | Undefined => None
  end.

(** [if (locales && locales.length > 0)]. *)
Definition localeFilter (o : Options) : option (list string) :=
  match opt_locales o with
  | Defined (l :: ls) => Some (l :: ls)
  | _ => None
  end.

(** [keyConds]. *)
Definition keyCond (serviceId : string) (o : Options) (k : L10nKey) : bool :=
  (match key_serviceId k with
   | NVal s => String.eqb s serviceId
   | Null => false
   end)
  && (match statusFilter o with
      | Some s => String.eqb (key_status k) s
      | None => true
      end).

(** [translationConds] on a joined row; a comparison with the [NULL]s of
    an outer join is not true. *)
Definition translationCond (o : Options) (t : option Translation) : bool :=
  (match localeFilter o with
   | Some ls => match t with
                | Some r => includes ls (tr_locale r)
                | None => false
                end
   | None => true
   end)
  && (match statusFilter o with
      | Some s => match t with
                  | Some r => String.eqb (tr_status r) s
                  | None => false
                  end
      | None => true
      end).

(** The rows of [l10n_key JOIN translation ON l10n_key.id = translation.key_id],
    the outer join when [includeEmpty]. *)
Definition joinedRows (t : Tables) (outer : bool) : list (L10nKey * option Translation) :=
  flat_map
    (fun k =>
       match filter (fun r => String.eqb (tr_keyId r) (key_id k)) (translations t) with
       | [] => if outer then [(k, None)] else []
       | rs => map (fun r => (k, Some r)) rs
       end)
    (keys t).

Definition keysWithTranslations (serviceId : string) (o : Options)
  : M (list (L10nKey * option Translation)) :=
  issue (Select, TKey) ;;;
  t <- getTables ;;
  ret (filter (fun row => keyCond serviceId o (fst row) && translationCond o (snd row))
         (joinedRows t (includeEmpty o))).

Definition exportedTranslation (trans : Translation) : TranslationData :=
  mkTranslationData (tr_locale trans) (or_empty (tr_value trans)) (tr_status trans)
    (tr_version trans).

(** Body of the grouping loop [for (const row of keysWithTranslations)]. *)
Definition groupRow (keyMap : JSMap.t KeyData) (row : L10nKey * option Translation)
  : JSMap.t KeyData :=
  let key := fst row in
  let keyMap1 :=
    if negb (JSMap.has keyMap (key_id key))
    then JSMap.set keyMap (key_id key)
           (mkKeyData (key_id key) (key_keyName key) (or_undefined (key_namespaceId key))
              (key_tags key) (key_status key) [])
    else keyMap in
  match snd row with
  | Some trans =>
      match JSMap.get keyMap1 (key_id key) with
      | Some e =>
          JSMap.set keyMap1 (key_id key)
            (mkKeyData (kd_id e) (kd_keyName e) (kd_namespaceId e) (kd_tags e) (kd_status e)
               (kd_translations e ++ [exportedTranslation trans]))
      | None => keyMap1
      end
  | None => keyMap1
  end.

(** [Array.prototype.sort(compare)]: a stable sort. *)
Fixpoint insertSorted {A} (compare : A -> A -> Z) (x : A) (sorted : list A) : list A :=
  match sorted with
  | [] => [x]
  | y :: r => if Z.ltb (compare x y) 0 then x :: y :: r else y :: insertSorted compare x r
  end.

Definition sort {A} (compare : A -> A -> Z) (xs : list A) : list A :=
  fold_left (fun acc x => insertSorted compare x acc) xs [].

Section WithCollation.

(** [String.prototype.localeCompare]: the order is the host's collation. *)
Variable localeCompare : string -> string -> Z.

Definition sortExport (ks : list KeyData) : list KeyData :=
  map (fun key =>
         mkKeyData (kd_id key) (kd_keyName key) (kd_namespaceId key) (kd_tags key)
           (kd_status key)
           (sort (fun a b => localeCompare (td_locale a) (td_locale b))
              (kd_translations key)))
      (sort (fun a b => localeCompare (kd_keyName a) (kd_keyName b)) ks).

Definition generateExportData (serviceId serviceCode : string) (o : Options)
  : M ExportData :=
  rows <- keysWithTranslations serviceId o ;;
  let keyMap := fold_left groupRow rows JSMap.empty in
  let keys := sortExport (JSMap.values keyMap) in
  exportedAt <- now ;;
  ret (mkExport serviceCode
         (match opt_locales o with Defined ls => ls | Undefined => [] end)
         exportedAt keys).

End WithCollation.

(** The export file sent back as an import body: [JSON.stringify] then
    [JSON.parse]; zod drops [locales] and [exportedAt]. *)
Definition asImportBody (dry : bool) (e : ExportData) : ImportPayload :=
  mkPayload dry (ex_service e) (ex_keys e).

(** ** The route handler *)

(** The raw query parameters, each a string when present. *)
Record RawExportQuery : Type := mkRawExportQuery {
  rq_format : optional string;
  rq_service : optional string;
  rq_locales : optional string;
  rq_status : optional string;
  rq_includeEmpty : optional string
}.

(** [z.infer<typeof exportQuerySchema>]. *)
Record ExportQuery : Type := mkExportQuery {
  eq_service : string;
  eq_locales : optional string;
  eq_status : optional string;
  eq_includeEmpty : bool
}.

(** [exportQuerySchema.safeParse]: [format] is ["json"] or absent,
    [service] has a character, [status] is one of the three, and
    [z.coerce.boolean()] reads [includeEmpty] with [Boolean(...)], so every
    string but the empty one is true. *)
Definition exportQuerySchema (q : RawExportQuery) : option ExportQuery :=
  let formatOk :=
    match rq_format q with
    | Defined f => String.eqb f "json"
    | Undefined => true
    end in
  let statusOk :=
    match rq_status q with
    | Defined st => includes translationStatusEnum st
    | Undefined => true
    end in
  match rq_service q with
  | Defined svc =>
      if formatOk && min1 svc && statusOk
      then Some (mkExportQuery svc (rq_locales q) (rq_status q)
                   (match rq_includeEmpty q with
                    | Defined b => negb (String.eqb b "")
                    | Undefined => false
                    end))
      else None
  | Undefined => None
  end.

(** [s.split(",")]. *)
Fixpoint splitComma (s : string) : list string :=
  match s with
  | EmptyString => [""]
  | String c r =>
      if Ascii.eqb c ","%char then "" :: splitComma r
      else
        match splitComma r with
        | h :: t => String c h :: t
        | [] => [String c ""]
        end
  end.

Fixpoint trimStart (s : string) : string :=
  match s with
  | String c r => if Regex.space c then trimStart r else s
  | EmptyString => s
  end.

Definition reverse (s : string) : string :=
  string_of_list_ascii (rev (list_ascii_of_string s)).

(** [s.trim()]. *)
Definition trim (s : string) : string :=
  reverse (trimStart (reverse (trimStart s))).

(** [localesParam ? localesParam.split(",").map(trim).filter(Boolean) : undefined]. *)
Definition parseLocales (localesParam : optional string) : optional (list string) :=
  match localesParam with
  | Defined p =>
      if String.eqb p "" then Undefined
      else Defined (filter (fun l => negb (String.eqb l "")) (map trim (splitComma p)))
  | Undefined => Undefined
  end.

Inductive ExportBody : Type :=
| ExportError (message : string)
| ExportFile (data : ExportData).

Record ExportResponse : Type := mkExportResponse {
  xr_status : nat;
  xr_body : ExportBody
}.

Definition exportedTranslations (ks : list KeyData) : nat :=
  fold_left (fun sum key => sum + length (kd_translations key)) ks 0.

Section HandlerWithCollation.

Variable localeCompare : string -> string -> Z.

(** [GET /api/export], from the authenticated user and the query string. *)
Definition GET (user : option IdentityUser) (queryParams : RawExportQuery)
  : M ExportResponse :=
  match user with
  | None => ret (mkExportResponse 401 (ExportError "Unauthorized"))
  | Some u =>
      match exportQuerySchema queryParams with
      | None => ret (mkExportResponse 400 (ExportError "validation"))
      | Some parsed =>
          let serviceCode := eq_service parsed in
          let locales := parseLocales (eq_locales parsed) in
          let invalidLocales :=
            match locales with
            | Defined ls => filter (fun locale => negb (includes supportedLocales locale)) ls
            | Undefined => []
            end in
          if Nat.ltb 0 (length invalidLocales)
          then ret (mkExportResponse 400 (ExportError "Invalid locales"))
          else
            svc <- Query.serviceByCode serviceCode ;;
            match svc with
            | None => ret (mkExportResponse 404 (ExportError "Service not found"))
            | Some svc =>
                hasAccess <- validateServiceAccess user (service_id svc) READ ;;
                if negb hasAccess
                then ret (mkExportResponse 403
                            (ExportError
                               "You don't have permission to export data from this service"))
                else
                  tryCatch
                    (exportData <-
                       generateExportData localeCompare (service_id svc) serviceCode
                         (mkOptions locales (eq_status parsed) (eq_includeEmpty parsed)) ;;
                     Audit.recordEvent (sub u) "export" "service" (service_id svc) JNull
                       (JObj [ ("service", JStr serviceCode);
                               ("locales",
                                jstrings (match locales with
                                          | Defined ls => ls
                                          | Undefined => []
                                          end));
                               ("status",
                                JStr (match statusFilter
                                              (mkOptions locales (eq_status parsed)
                                                 (eq_includeEmpty parsed)) with
                                      | Some st => st
                                      | None => "all"
                                      end));
                               ("includeEmpty", JBool (eq_includeEmpty parsed));
                               ("keysExported",
                                JNum (Z.of_nat (length (ex_keys exportData))));
                               ("translationsExported",
                                JNum (Z.of_nat (exportedTranslations (ex_keys exportData)))) ]) ;;;
                     ret (mkExportResponse 200 (ExportFile exportData)))
                    (fun _ => ret (mkExportResponse 500 (ExportError "Export operation failed")))
            end
      end
  end.

End HandlerWithCollation.

End ExportRoute.

(* ===================================================================== *)
(** * routes/api/translations/$id.ts *)
(* ===================================================================== *)

Module TranslationRoute.

(** The body accepted by [updateTranslationSchema]. *)
Record UpdateBody : Type := mkUpdateBody {
  ub_locale : string;
  ub_value : optional string;
  ub_status : optional string
}.

Definition updateTranslationSchema (b : UpdateBody) : bool :=
  includes ImportRoute.supportedLocales (ub_locale b)
  && match ub_status b with
     | Defined s => includes ImportRoute.translationStatusEnum s
     | Undefined => true
     end.

(** [findFirst({ where: eq(translation.id, id), with: { key: ... } })]:
    the translation and the key its [keyId] names. *)
Definition findTranslation (id : string) : M (option (Translation * option L10nKey)) :=
  issue (Select, TTranslation) ;;;
  t <- getTables ;;
  ret (match find (fun r => String.eqb (tr_id r) id) (translations t) with
       | Some r => Some (r, find (fun k => String.eqb (key_id k) (tr_keyId r)) (keys t))
       | None => None
       end).

Inductive Body : Type :=
| ErrorBody (message : string)
| Success.

Record Response : Type := mkResponse {
  status : nat;
  body : Body
}.

(** [user.roles?.includes(r)], [undefined] read as false. *)
Definition rolesInclude (u : IdentityUser) (r : string) : bool :=
  match roles u with
  | Defined rs => includes rs r
  | Undefined => false
  end.

(** [{ ...updateData }] applied to a row. *)
Definition applyUpdate (b : UpdateBody) (version : Z) (updatedAt : nat)
    (r : Translation) : Translation :=
  mkTranslation (tr_id r) (tr_keyId r) (ub_locale b)
    (match ub_value b with Defined v => NVal v | Undefined => tr_value r end)
    (match ub_status b with Defined s => s | Undefined => tr_status r end)
    version updatedAt.

Definition translationState (r : Translation) : list (string * json) :=
  [ ("id", JStr (tr_id r)); ("keyId", JStr (tr_keyId r)); ("locale", JStr (tr_locale r));
    ("value", jnullable (tr_value r)); ("status", JStr (tr_status r));
    ("version", JNum (tr_version r)) ].

(** [PUT /api/translations/$id], from the authenticated user, the route
    parameter and the JSON body. *)
Definition PUT (user : option IdentityUser) (id : string) (requestBody : UpdateBody)
  : M Response :=
  match user with
  | None => ret (mkResponse 401 (ErrorBody "Unauthorized"))
  | Some u =>
      if String.eqb id "" then ret (mkResponse 400 (ErrorBody "Translation ID is required"))
      else if negb (updateTranslationSchema requestBody)
      then ret (mkResponse 400 (ErrorBody "validation"))
      else
        found <- findTranslation id ;;
        match found with
        | None => ret (mkResponse 404 (ErrorBody "Translation not found"))
        | Some (_, None) => throw TypeError
        | Some (existingTranslation, Some key) =>
            allowed <-
              (if truthy_nstr (key_serviceId key)
               then validateServiceAccess user (or_empty (key_serviceId key)) WRITE
               else ret (rolesInclude u "Admin" || rolesInclude u "Editor")) ;;
            if negb allowed
            then
              ret (mkResponse 403
                     (ErrorBody
                        (if truthy_nstr (key_serviceId key)
                         then "You don't have permission to modify translations for this service"
                         else "You need Editor role or higher to modify translations without a service")))
            else
              updatedAt <- now ;;
              let version := (tr_version existingTranslation + 1)%Z in
              let beforeState := translationState existingTranslation in
              Write.updateTranslation id (applyUpdate requestBody version updatedAt) ;;;
              let afterState :=
                (translationState
                   (applyUpdate requestBody version updatedAt existingTranslation)
                 ++ [("updatedAt", JNum (Z.of_nat updatedAt))])%list in
              Audit.logEvent
                (Audit.mkEventLogData (sub u) "update" "translation" id
                   (Defined (JObj beforeState)) (Defined (JObj afterState))) ;;;
              ret (mkResponse 200 Success)
        end
  end.

End TranslationRoute.

(* ===================================================================== *)
(** * routes/api/keys/index.ts, the version that checks access *)
(* ===================================================================== *)

Module KeysRoute.

(** The body accepted by [createKeySchema]. *)
Record CreateKeyBody : Type := mkCreateKeyBody {
  ck_id : string;
  ck_keyName : string;
  ck_serviceCode : optional string;
  ck_namespaceId : optional string;
  ck_tags : optional (list string)
}.

Definition createKeySchema (b : CreateKeyBody) : bool :=
  ImportRoute.min1 (ck_id b) && ImportRoute.min1 (ck_keyName b)
  && match ck_serviceCode b with
     | Defined c => ImportRoute.min1 c
     | Undefined => true
     end.

Inductive KeysBody : Type :=
| KeysError (message : string)
| Created.

Record KeysResponse : Type := mkKeysResponse {
  kr_status : nat;
  kr_body : KeysBody
}.

(** The row [db.insert(l10nKey).values({ id, keyName, serviceId,
    namespaceId: namespaceId ?? null, tags: tags ?? [] })] stores; the
    status is the column default. *)
Definition newKey (b : CreateKeyBody) (serviceId : nullable string) : L10nKey :=
  mkKey (ck_id b) serviceId (nullish_null (ck_namespaceId b)) (ck_keyName b)
    (match ck_tags b with Defined ts => ts | Undefined => [] end) "draft".

(** [POST /api/keys], from the authenticated user and the JSON body. *)
Definition POST (user : option IdentityUser) (requestBody : CreateKeyBody) : M KeysResponse :=
  match user with
  | None => ret (mkKeysResponse 401 (KeysError "Unauthorized"))
  | Some u =>
      if negb (createKeySchema requestBody)
      then ret (mkKeysResponse 400 (KeysError "validation"))
      else
        match ck_serviceCode requestBody with
        | Defined serviceCode =>
            svc <- Query.serviceByCode serviceCode ;;
            match svc with
            | None => ret (mkKeysResponse 404 (KeysError "service not found"))
            | Some svc =>
                hasAccess <- validateServiceAccess user (service_id svc) WRITE ;;
                if negb hasAccess
                then ret (mkKeysResponse 403
                            (KeysError "You don't have permission to create keys for this service"))
                else
                  Write.insertKey (newKey requestBody (NVal (service_id svc))) ;;;
                  ret (mkKeysResponse 201 Created)
            end
        | Undefined =>
            if negb (TranslationRoute.rolesInclude u "Admin")
               && negb (TranslationRoute.rolesInclude u "Editor")
            then ret (mkKeysResponse 403
                        (KeysError "You need Editor role or higher to create keys without a service"))
            else
              Write.insertKey (newKey requestBody Null) ;;;
              ret (mkKeysResponse 201 Created)
        end
  end.

End KeysRoute.

(* ===================================================================== *)
(** * lib/audit/archival-service.ts *)
(* ===================================================================== *)

Module Archival.

Definition HOT_STORAGE_DAYS : Z := 90.
Definition WARM_STORAGE_DAYS : Z := 730.
Definition msPerDay : Z := 24 * 60 * 60 * 1000.

(** The integer fields of [ArchivalStatus]; the size estimates, which are
    floating point, are left out.  Times are milliseconds. *)
Record ArchivalStatus : Type := mkArchivalStatus {
  hotStorageEvents : Z;
  warmStorageEvents : Z;
  coldStorageEvents : Z;
  oldestEventAge : Z;
  nextArchivalDue : Z
}.

(** The number of events with [created_at >= cutoff]. *)
Definition countSince (cutoff : Z) : M Z :=
  issue (Select, TEvent) ;;;
  t <- getTables ;;
  ret (Z.of_nat (length (filter (fun e => Z.leb cutoff (Z.of_nat (ev_createdAt e)))
                           (events t)))).

(** The number of events. *)
Definition countAll : M Z :=
  issue (Select, TEvent) ;;;
  t <- getTables ;;
  ret (Z.of_nat (length (events t))).

(** [select created_at from event order by created_at limit 1]. *)
Definition oldestCreatedAt : M (option nat) :=
  issue (Select, TEvent) ;;;
  t <- getTables ;;
  ret (match events t with
       | [] => None
       | e :: es => Some (fold_left Nat.min (map ev_createdAt es) (ev_createdAt e))
       end).

(** [getArchivalStatus]; its [catch] logs and throws the error on. *)
Definition getArchivalStatus : M ArchivalStatus :=
  totalCount <- countAll ;;
  oldestEvent <- oldestCreatedAt ;;
  nowMs <- now ;;
  let oldestAge :=
    match oldestEvent with
    | Some createdAt => ((Z.of_nat nowMs - Z.of_nat createdAt) / msPerDay)%Z
    | None => 0%Z
    end in
  let hotCutoff := (Z.of_nat nowMs - HOT_STORAGE_DAYS * msPerDay)%Z in
  let warmCutoff := (Z.of_nat nowMs - WARM_STORAGE_DAYS * msPerDay)%Z in
  hotCount <- countSince hotCutoff ;;
  warmCount <- countSince warmCutoff ;;
  let coldCount := (totalCount - warmCount)%Z in
  ret (mkArchivalStatus hotCount (warmCount - hotCount)%Z coldCount oldestAge
         (Z.of_nat nowMs + 7 * msPerDay)%Z).

End Archival.

(* ===================================================================== *)
(** * Properties *)
(* ===================================================================== *)

Import ImportRoute.

Unset Implicit Arguments.

(** ** Vocabulary of the statements, and the data of the examples *)

Definition noFault : Op -> bool := fun _ => false.

Definition world (t : Tables) (f : Op -> bool) : World := mkWorld t [] f 0 0.

Definition editor : IdentityUser := mkUser "e1" Undefined (Defined ["Editor"; "Viewer"]).
Definition viewer : IdentityUser := mkUser "v1" Undefined (Defined ["Viewer"]).
Definition nobody : IdentityUser := mkUser "n1" Undefined Undefined.
Definition roleless : IdentityUser := mkUser "o1" Undefined (Defined []).

Definition s1 : Service := mkService "s1" "web-app" ["o1"].
Definition k1 : L10nKey := mkKey "k1" (NVal "s1") Null "auth.login.title" ["auth"; "ui"] "active".
Definition legacyKey : L10nKey := mkKey "k0" Null Null "legacy.title" [] "active".
Definition t1 : Translation := mkTranslation "t1" "k1" "en" (NVal "Login") "active" 5 0.

Definition sampleTables : Tables := mkTables [s1] [k1; legacyKey] [t1] [].

Definition healthy (w : World) : Prop := forall o, faulty w o = false.

Definition result {A} (c : M A) (w : World) : Result A := fst (c w).
Definition tablesAfter {A} (c : M A) (w : World) : Tables := tables (snd (c w)).
Definition issued {A} (c : M A) (w : World) : list Op := oplog (snd (c w)).


(** What [validateServiceAccess] answers for an identity that is not Admin. *)
Definition serviceDecision (w : World) (u : IdentityUser) (serviceId : string)
    (p : Permission) : bool :=
  if faulty w (Select, TService) then false
  else
    match Query.serviceRows (tables w) serviceId with
    | [] => false
    | s :: _ => if includes (service_owners s) (sub u) then true else roleDecision (Some u) p
    end.

Definition noKey (t : Tables) (id : string) : Prop :=
  forall k, In k (keys t) -> key_id k <> id.

(** What [validateTranslationAccessByKey] answers for an identity that is
    not Admin. *)
Definition keyDecision (w : World) (u : IdentityUser) (keyId : string) (p : Permission) : bool :=
  if faulty w (Select, TKey) then false
  else
    match Query.keyRows (tables w) keyId with
    | [] => false
    | (NVal sid, _) :: _ =>
        if String.eqb sid "" then roleDecision (Some u) p else serviceDecision w u sid p
    | (Null, _) :: _ => roleDecision (Some u) p
    end.

(** What [validateTranslationAccess] answers for an identity that is not Admin. *)
Definition translationDecision (w : World) (u : IdentityUser) (translationId : string)
    (p : Permission) : bool :=
  if faulty w (Select, TTranslation) then false
  else
    match Query.translationRows (tables w) translationId with
    | [] => false
    | (serviceId, serviceOwners) :: _ =>
        if negb (truthy_nstr serviceId) then roleDecision (Some u) p
        else if (match serviceOwners with
                 | NVal owners => includes owners (sub u)
                 | Null => false
                 end)
             then true
             else roleDecision (Some u) p
    end.

(** A database whose every [SELECT] throws. *)
Definition selectsFail : Op -> bool := is_select.

(** The key's service reference is [NULL] or names a row of [service]. *)
Definition keyIntact (t : Tables) (k : L10nKey) : Prop :=
  match key_serviceId k with
  | Null => True
  | NVal sid => exists s, In s (services t) /\ service_id s = sid
  end.

(** Two worlds hold the same data and fail on the same statements. *)
Definition agree (w1 w2 : World) : Prop :=
  tables w1 = tables w2 /\ faulty w1 = faulty w2.

(** [c] only reads: it leaves the tables, the fault oracle, the identifier
    supply and the clock as they were, every statement it issues is a
    [SELECT], and its result is a function of the data alone. *)
Definition readOnly {A} (c : M A) : Prop :=
  forall w,
    tables (snd (c w)) = tables w
    /\ faulty (snd (c w)) = faulty w
    /\ uuid (snd (c w)) = uuid w
    /\ clock (snd (c w)) = clock w
    /\ (exists ops, oplog (snd (c w)) = (oplog w ++ ops)%list /\ forallb is_select ops = true)
    /\ (forall w2, agree w w2 -> fst (c w2) = fst (c w)).

(** [n] calls one after the other: the responses, and the world left. *)
Fixpoint repeatPOST (n : nat) (user : option IdentityUser) (requestBody : ImportPayload)
    (w : World) : list (Result Response) * World :=
  match n with
  | O => ([], w)
  | S m =>
      let (r, w1) := POST user requestBody w in
      let (rs, w2) := repeatPOST m user requestBody w1 in
      (r :: rs, w2)
  end.





(** A key that differs from the stored one only in the order of its tags. *)
Definition k2 : L10nKey := mkKey "k2" (NVal "s1") (NVal "ns1") "nav.home" ["nav"; "menu"] "active".
Definition t2 : Translation := mkTranslation "t2" "k2" "en" (NVal "Home") "active" 3 0.
Definition tables2 : Tables := mkTables [s1] [k2] [t2] [].

Definition k2_same : KeyData :=
  mkKeyData "k2" "nav.home" (Defined "ns1") ["nav"; "menu"] "active"
    [mkTranslationData "en" "Home" "active" 3].

Definition k2_tags_reordered : KeyData :=
  mkKeyData "k2" "nav.home" (Defined "ns1") ["menu"; "nav"] "active"
    [mkTranslationData "en" "Home" "active" 3].

(** The version of the translation with the given id. *)
Definition versionOf (t : Tables) (id : string) : option Z :=
  option_map tr_version (find (fun r => String.eqb (tr_id r) id) (translations t)).

(** The tables a successful update leaves: the row with the id rewritten,
    one event appended. *)
Definition updatedBy (b : TranslationRoute.UpdateBody) (id : string) (version : Z) (t t' : Tables) : Prop :=
  exists updatedAt e,
    t' = mkTables (services t) (keys t)
           (map (fun r => if String.eqb (tr_id r) id
                          then TranslationRoute.applyUpdate b version updatedAt r else r)
                (translations t))
           (events t ++ [e]).

Definition bumpBody : TranslationRoute.UpdateBody :=
  TranslationRoute.mkUpdateBody "en" (Defined "Log in") Undefined.

(** A database on which the insert into [event] fails. *)
Definition auditFails : Op -> bool :=
  fun o => match o with (Insert, TEvent) => true | _ => false end.

(** A collation to run the export with: code unit order. *)
Definition codeUnitCompare (a b : string) : Z :=
  match String.compare a b with
  | Lt => (-1)%Z
  | Eq => 0%Z
  | Gt => 1%Z
  end.

(** What the export of [s1] holds: [k1], whose namespace is [null] in the
    table, leaves without a [namespaceId]. *)
Definition exportOfS1 : ExportRoute.ExportData :=
  ExportRoute.mkExport "web-app" [] 0
    [mkKeyData "k1" "auth.login.title" Undefined ["auth"; "ui"] "active"
       [mkTranslationData "en" "Login" "active" 5]].

(** An event whose [after.note] holds two e-mail addresses, the second one
    followed at once by a phone number. *)
Definition noteEvent (note : string) : list (string * json) :=
  [("id", JStr "event-123"); ("action", JStr "update"); ("before", JNull);
   ("after", JObj [("note", JStr note)])].

Definition neverParsed : string -> option json := fun _ => None.

(** ** Vocabulary of the further properties *)

(** Primary keys: no two rows of a table share an id. *)
Definition primaryKeys (t : Tables) : Prop :=
  NoDup (map service_id (services t))
  /\ NoDup (map key_id (keys t))
  /\ NoDup (map tr_id (translations t)).

(** The identity owns the service. *)
Definition owns (u : IdentityUser) (s : Service) : Prop :=
  In (sub u) (service_owners s).

(** An identity that holds no edit role and owns no service of the tables;
    the absent identity counts. *)
Definition cannotWrite (user : option IdentityUser) (t : Tables) : Prop :=
  match user with
  | None => True
  | Some u => canEdit user = false /\ forall s, In s (services t) -> ~ owns u s
  end.

(** [c] relates the tables it ends with to the tables it started from by [R]. *)
Definition keeps {A} (R : Tables -> Tables -> Prop) (c : M A) : Prop :=
  forall w, R (tables w) (tables (snd (c w))).

(** Nothing but the [event] table differs, and that one only grew. *)
Definition onlyNewEvents (t t' : Tables) : Prop :=
  services t' = services t /\ keys t' = keys t /\ translations t' = translations t
  /\ exists es, events t' = (events t ++ es)%list.

(** Nothing but the [l10n_key] table differs. *)
Definition onlyKeys (t t' : Tables) : Prop :=
  services t' = services t /\ translations t' = translations t /\ events t' = events t.

(** The [service] and [l10n_key] tables are the same. *)
Definition sameServicesAndKeys (t t' : Tables) : Prop :=
  services t' = services t /\ keys t' = keys t.

(** The [service] table is the same. *)
Definition sameServices (t t' : Tables) : Prop := services t' = services t.

(** The number of changes of a type in a report. *)
Definition isType (ty c : ChangeType) : bool :=
  match ty, c with
  | create_key, create_key => true
  | update_key, update_key => true
  | create_translation, create_translation => true
  | update_translation, update_translation => true
  | _, _ => false
  end.

Definition countOf (ty : ChangeType) (cs : list Change) : nat :=
  length (filter (fun c => isType ty (change_type c)) cs).

(** The counters of a report are the numbers of its changes, type by type. *)
Definition countersMatch (r : DiffReport) : Prop :=
  keysToCreate (summary r) = countOf create_key (changes r)
  /\ keysToUpdate (summary r) = countOf update_key (changes r)
  /\ translationsToCreate (summary r) = countOf create_translation (changes r)
  /\ translationsToUpdate (summary r) = countOf update_translation (changes r).

(** [c], when it returns, has added [n] rows to [event]. *)
Definition addsEvents {A} (n : nat) (c : M A) : Prop :=
  forall w a w', c w = (Ok a, w') ->
    length (events (tables w')) = length (events (tables w)) + n.

(** The changes the plan lists for one incoming key. *)
Definition plannedFor (m : JSMap.t (L10nKey * list Translation)) (kd : KeyData) : nat :=
  length (changes (diffKey m emptyReport kd)).

Definition plannedForTranslation (kd : KeyData) (tm : JSMap.t Translation)
    (td : TranslationData) : nat :=
  length (changes (diffTranslation kd tm emptyReport td)).

(** What redaction may do to a value: scalars other than strings stay, a
    string stays a string, an array keeps its length, an object keeps its
    names in order, and under a name the value is redacted in turn or
    replaced by the marker of sensitive names. *)
Inductive redactedFrom : json -> json -> Prop :=
| RF_null : redactedFrom JNull JNull
| RF_bool (b : bool) : redactedFrom (JBool b) (JBool b)
| RF_num (n : Z) : redactedFrom (JNum n) (JNum n)
| RF_str (s s' : string) : redactedFrom (JStr s) (JStr s')
| RF_arr (xs ys : list json) :
    Forall2 redactedFrom xs ys -> redactedFrom (JArr xs) (JArr ys)
| RF_obj (ps qs : list (string * json)) :
    Forall2 (fun p q => fst p = fst q
                        /\ (redactedFrom (snd p) (snd q)
                            \/ snd q = JStr "[REDACTED: sensitive field name]")) ps qs ->
    redactedFrom (JObj ps) (JObj qs).

(** A configuration with every detection switched off. *)
Definition detectionOff (config : Redaction.RedactionConfig) : Prop :=
  Redaction.maxValueLength config = 0
  /\ Redaction.enablePatternDetection config = false
  /\ Redaction.enableFieldNameDetection config = false.

(** The column constraints the import schema repeats: ids and names are not
    empty, statuses and locales are of the enumerations, versions are
    positive. *)
Definition validKeyRow (k : L10nKey) : Prop :=
  min1 (key_id k) = true /\ min1 (key_keyName k) = true
  /\ includes translationStatusEnum (key_status k) = true.

Definition validTranslationRow (r : Translation) : Prop :=
  includes supportedLocales (tr_locale r) = true
  /\ includes translationStatusEnum (tr_status r) = true
  /\ (0 < tr_version r)%Z.

(** The second identity is the first one with roles added. *)
Definition moreRoles (u1 u2 : IdentityUser) : Prop :=
  sub u1 = sub u2
  /\ forall r, hasRole (Some u1) r = true -> hasRole (Some u2) r = true.

(** An identity that holds no view role and owns no service of the tables. *)
Definition cannotRead (u : IdentityUser) (t : Tables) : Prop :=
  canView (Some u) = false /\ forall s, In s (services t) -> ~ owns u s.

(** A relation between the tables before and after that holds of no step
    and of steps in sequence. *)
Definition isFrame (R : Tables -> Tables -> Prop) : Prop :=
  (forall t, R t t) /\ (forall a b c, R a b -> R b c -> R a c).

(** What a relation must allow for a computation that inserts into
    [event], writes [translation] or writes [l10n_key] to respect it. *)
Definition allowsNewEvent (R : Tables -> Tables -> Prop) : Prop :=
  forall t e, R t (mkTables (services t) (keys t) (translations t) (events t ++ [e])%list).

Definition allowsTranslations (R : Tables -> Tables -> Prop) : Prop :=
  forall t rs, R t (mkTables (services t) (keys t) rs (events t)).

Definition allowsKeys (R : Tables -> Tables -> Prop) : Prop :=
  forall t ks, R t (mkTables (services t) ks (translations t) (events t)).

(** The tables with one more event. *)
Definition withEvent (t : Tables) (e : Event) : Tables :=
  mkTables (services t) (keys t) (translations t) (events t ++ [e])%list.

(** The tables with one more key. *)
Definition withKey (t : Tables) (k : L10nKey) : Tables :=
  mkTables (services t) (keys t ++ [k])%list (translations t) (events t).

(** The tables are the same. *)
Definition sameTables (t t' : Tables) : Prop := t' = t.

(** The statuses of a request that was turned down. *)
Definition refused (status : nat) : Prop :=
  status = 400 \/ status = 401 \/ status = 403 \/ status = 404.

(** No property of the value, at any depth, is named [__proto__], the one
    name an assignment [o[name] = v] does not store as a property. *)
Fixpoint ordinaryNames (v : json) : bool :=
  match v with
  | JArr items => forallb ordinaryNames items
  | JObj props =>
      (fix all (ps : list (string * json)) : bool :=
         match ps with
         | [] => true
         | (k, x) :: rest => negb (String.eqb k "__proto__") && ordinaryNames x && all rest
         end) props
  | _ => true
  end.

(** An exported entry comes from the tables: it carries the columns of a
    key that passes the conditions on keys, each of its translations is a
    translation of that key that passes the conditions on translations, and
    an inner join leaves no entry without translations. *)
Definition exportedFrom (t : Tables) (serviceId : string) (o : ExportRoute.Options)
    (kd : KeyData) : Prop :=
  (exists k, In k (keys t) /\ ExportRoute.keyCond serviceId o k = true
             /\ key_id k = kd_id kd /\ key_keyName k = kd_keyName kd
             /\ or_undefined (key_namespaceId k) = kd_namespaceId kd
             /\ key_tags k = kd_tags kd /\ key_status k = kd_status kd)
  /\ (forall td, In td (kd_translations kd) ->
        exists r, In r (translations t) /\ tr_keyId r = kd_id kd
                  /\ ExportRoute.translationCond o (Some r) = true
                  /\ td = ExportRoute.exportedTranslation r)
  /\ (ExportRoute.includeEmpty o = false -> kd_translations kd <> []).

(** A joined row comes from the tables and passes the conditions. *)
Definition rowFrom (t : Tables) (serviceId : string) (o : ExportRoute.Options)
    (row : L10nKey * option Translation) : Prop :=
  In (fst row) (keys t) /\ ExportRoute.keyCond serviceId o (fst row) = true
  /\ ExportRoute.translationCond o (snd row) = true
  /\ match snd row with
     | Some r => In r (translations t) /\ tr_keyId r = key_id (fst row)
     | None => ExportRoute.includeEmpty o = true
     end.

(** The table holds a key with the id in the service. *)
Definition holdsKey (t : Tables) (serviceId id : string) : Prop :=
  exists k, In k (keys t) /\ key_id k = id /\ key_serviceId k = NVal serviceId.

(** The table holds a translation of the key in the locale. *)
Definition holdsTranslation (t : Tables) (keyId locale : string) : Prop :=
  exists r, In r (translations t) /\ tr_keyId r = keyId /\ tr_locale r = locale.

(** Every key and translation held before is held after. *)
Definition nothingLost (serviceId : string) (t t' : Tables) : Prop :=
  (forall id, holdsKey t serviceId id -> holdsKey t' serviceId id)
  /\ (forall keyId locale, holdsTranslation t keyId locale -> holdsTranslation t' keyId locale).

(** ** Running a computation *)

Arguments validateServiceAccess : simpl never.

Ltac run_db :=
  unfold result, tablesAfter, issued, bind, ret, throw, tryCatch, issue, getTables,
    putTables, now, randomUUID, log_op, with_tables; simpl.

(** ** Role checks *)





(** ** The access checks, step by step *)

Lemma validateServiceAccess_run (w : World) (u : IdentityUser) (sid : string) (p : Permission) :
  isAdmin (Some u) = false ->
  validateServiceAccess (Some u) sid p w
  = (Ok (serviceDecision w u sid p), log_op (Select, TService) w).
Proof.
  intro Hadm. unfold validateServiceAccess, serviceDecision, Query.serviceById. rewrite Hadm.
  run_db. destruct (faulty w (Select, TService)); simpl; [reflexivity|].
  destruct (Query.serviceRows (tables w) sid) as [|s rest]; simpl; [reflexivity|].
  destruct (includes (service_owners s) (sub u)); reflexivity.
Qed.

Lemma validateServiceAccess_admin (w : World) (user : option IdentityUser) (sid : string)
    (p : Permission) :
  isAdmin user = true -> validateServiceAccess user sid p w = (Ok true, w).
Proof.
  intro H. unfold validateServiceAccess. destruct user as [u|]; [|discriminate].
  rewrite H. reflexivity.
Qed.

Lemma filter_none {A} (f : A -> bool) (xs : list A) :
  (forall x, In x xs -> f x = false) -> filter f xs = [].
Proof.
  induction xs as [|x xs IH]; intro H; simpl; [reflexivity|].
  rewrite (H x (or_introl eq_refl)). apply IH. intros y Hy. apply H. right. exact Hy.
Qed.


Lemma validateTranslationAccess_run (w : World) (u : IdentityUser) (tid : string)
    (p : Permission) :
  isAdmin (Some u) = false ->
  validateTranslationAccess (Some u) tid p w
  = (Ok (translationDecision w u tid p), log_op (Select, TTranslation) w).
Proof.
  intro Hadm.
  unfold validateTranslationAccess, translationDecision, Query.translationWithService.
  rewrite Hadm. run_db.
  destruct (faulty w (Select, TTranslation)); simpl; [reflexivity|].
  destruct (Query.translationRows (tables w) tid) as [|[sid owners] rest];
    simpl; [reflexivity|].
  destruct (truthy_nstr sid); simpl; [|reflexivity].
  destruct owners as [|os]; simpl; [reflexivity|].
  destruct (includes os (sub u)); reflexivity.
Qed.


Lemma isServiceOwner_run (w : World) (u : IdentityUser) (sid : string) :
  isServiceOwner (Some u) sid w
  = (Ok (if faulty w (Select, TService) then false
         else match Query.serviceRows (tables w) sid with
              | [] => false
              | s :: _ => includes (service_owners s) (sub u)
              end),
     log_op (Select, TService) w).
Proof.
  unfold isServiceOwner, Query.serviceById. run_db.
  destruct (faulty w (Select, TService)); simpl; [reflexivity|].
  destruct (Query.serviceRows (tables w) sid) as [|s rest]; reflexivity.
Qed.

Lemma validateTranslationAccessByKey_run (w : World) (u : IdentityUser) (kid : string)
    (p : Permission) :
  isAdmin (Some u) = false ->
  result (validateTranslationAccessByKey (Some u) kid p) w = Ok (keyDecision w u kid p).
Proof.
  intro Hadm.
  unfold result, validateTranslationAccessByKey, keyDecision, Query.keyWithService.
  rewrite Hadm. run_db.
  destruct (faulty w (Select, TKey)) eqn:Hf; simpl; [reflexivity|].
  destruct (Query.keyRows (tables w) kid) as [|[[|sid] owners] rest]; simpl; try reflexivity.
  destruct (String.eqb sid ""); simpl; [reflexivity|].
  rewrite validateServiceAccess_run by exact Hadm. reflexivity.
Qed.


(** The rows of a key joined with its service all carry the key's
    [serviceId]. *)
Lemma keyServiceRows_head (t : Tables) (k : L10nKey) :
  exists owners rest, Query.keyServiceRows t k = (key_serviceId k, owners) :: rest.
Proof.
  unfold Query.keyServiceRows.
  destruct (Query.joinService t (key_serviceId k)) as [|s ss]; simpl;
    eexists _, _; reflexivity.
Qed.

(** [validateTranslationAccessByKey] on the id of a key is the check
    [canAccessKey] makes on the row, when the id names that row alone. *)
Lemma byKey_is_canAccessKey (w : World) (user : option IdentityUser) (k : L10nKey)
    (p : Permission) :
  healthy w ->
  filter (fun x => String.eqb (key_id x) (key_id k)) (keys (tables w)) = [k] ->
  result (validateTranslationAccessByKey user (key_id k) p) w
  = result (canAccessKey user k p) w.
Proof.
  intros Hw Hk. destruct user as [u|]; [|reflexivity].
  destruct (isAdmin (Some u)) eqn:Hadm.
  - unfold result, validateTranslationAccessByKey, canAccessKey. rewrite Hadm. reflexivity.
  - rewrite validateTranslationAccessByKey_run by exact Hadm.
    unfold result, canAccessKey, keyDecision. rewrite Hadm, Hw.
    unfold Query.keyRows. rewrite Hk. simpl. rewrite app_nil_r.
    destruct (keyServiceRows_head (tables w) k) as (owners & rest & Hrows). rewrite Hrows.
    simpl. destruct (key_serviceId k) as [|sid]; [reflexivity|].
    destruct (String.eqb sid ""); [reflexivity|].
    rewrite validateServiceAccess_run by exact Hadm. reflexivity.
Qed.

(** ** C9 *)



(** The same identity with [roles: []] gets the same answers. *)
Lemma no_roles_empty_array :
  canView (Some roleless) = false
  /\ result (canAccessKey (Some roleless) legacyKey WRITE) (world sampleTables noFault) = Ok false.
Proof. vm_compute. split; reflexivity. Qed.

(** ** C8 *)


(** [canAccessService] never asks whether the service exists: a Viewer may
    read a service that is not there. *)
Lemma canAccessService_missing_service_viewer :
  Query.serviceRows sampleTables "no-such-service" = []
  /\ result (canAccessService (Some viewer) "no-such-service" READ)
       (world sampleTables noFault) = Ok true.
Proof. vm_compute. split; reflexivity. Qed.




(** ** C10 *)

(** C10. The access resolvers fail closed. [validateTranslationAccess],
    [validateServiceAccess] and [isServiceOwner] always return a boolean and
    never throw, whatever the database does; and when the lookup they issue
    throws, the boolean is [false]. *)
Theorem C10_access_checks_fail_closed
    (user : option IdentityUser) (id : string) (p : Permission) (w : World) :
  (exists b, result (validateTranslationAccess user id p) w = Ok b)
  /\ (exists b, result (validateServiceAccess user id p) w = Ok b)
  /\ (exists b, result (isServiceOwner user id) w = Ok b)
  /\ (faulty w (Select, TTranslation) = true ->
      issued (validateTranslationAccess user id p) w <> oplog w ->
      result (validateTranslationAccess user id p) w = Ok false)
  /\ (faulty w (Select, TService) = true ->
      issued (validateServiceAccess user id p) w <> oplog w ->
      result (validateServiceAccess user id p) w = Ok false)
  /\ (faulty w (Select, TService) = true ->
      result (isServiceOwner user id) w = Ok false).
Proof.
  destruct user as [u|].
  - unfold result, issued. rewrite isServiceOwner_run.
    destruct (isAdmin (Some u)) eqn:Hadm.
    + rewrite (validateServiceAccess_admin w (Some u) id p Hadm).
      assert (Ht : validateTranslationAccess (Some u) id p w = (Ok true, w)).
      { unfold validateTranslationAccess. rewrite Hadm. reflexivity. }
      rewrite Ht. simpl.
      repeat split; try (eexists; reflexivity).
      * intros _ Hneq. exfalso. apply Hneq. reflexivity.
      * intros _ Hneq. exfalso. apply Hneq. reflexivity.
      * intro Hf. rewrite Hf. reflexivity.
    + rewrite validateServiceAccess_run by exact Hadm.
      rewrite validateTranslationAccess_run by exact Hadm. simpl.
      repeat split; try (eexists; reflexivity).
      * intros Hf _. unfold translationDecision. rewrite Hf. reflexivity.
      * intros Hf _. unfold serviceDecision. rewrite Hf. reflexivity.
      * intro Hf. rewrite Hf. reflexivity.
  - unfold result, issued. simpl.
    repeat split; try (eexists; reflexivity).
Qed.

Lemma C10_witness :
  result (validateServiceAccess (Some viewer) "s1" READ) (world sampleTables selectsFail)
  = Ok false.
Proof.
  refine (proj1 (proj2 (proj2 (proj2 (proj2
            (@C10_access_checks_fail_closed (Some viewer) "s1" READ
               (world sampleTables selectsFail)))))) eq_refl _).
  vm_compute. discriminate.
Defined.

(** Without the failure the same request is allowed. *)
Lemma viewer_reads_s1 :
  result (validateServiceAccess (Some viewer) "s1" READ) (world sampleTables noFault) = Ok true.
Proof. vm_compute. reflexivity. Qed.

(** ** C1 *)


Lemma serviceRows_found (t : Tables) (sid : string) (s : Service) :
  In s (services t) -> service_id s = sid ->
  exists s' rest, Query.serviceRows t sid = s' :: rest.
Proof.
  intros Hin Hid. unfold Query.serviceRows.
  destruct (filter (fun x => String.eqb (service_id x) sid) (services t)) as [|s' rest] eqn:Hf.
  - exfalso.
    assert (Hs : In s (filter (fun x => String.eqb (service_id x) sid) (services t))).
    { apply filter_In. split; [exact Hin | apply String.eqb_eq; exact Hid]. }
    rewrite Hf in Hs. exact Hs.
  - exists s', []. reflexivity.
Qed.




(** The owner of [s1] without any role: allowed by the point check, and the
    write filter lists nothing. *)
Lemma filter_misses_owner_without_role :
  result (listKeys (Some roleless) WRITE) (world sampleTables noFault) = Ok []
  /\ result (canAccessKey (Some roleless) k1 WRITE) (world sampleTables noFault) = Ok true.
Proof. vm_compute. split; reflexivity. Qed.

(** An identity without roles: the read filter lists the key without a
    service, which the point check denies. *)
Lemma filter_lists_legacy_key_for_no_roles :
  result (listKeys (Some nobody) READ) (world sampleTables noFault) = Ok [legacyKey]
  /\ result (canAccessKey (Some nobody) legacyKey READ) (world sampleTables noFault) = Ok false.
Proof. vm_compute. split; reflexivity. Qed.


Lemma noFault_healthy (t : Tables) : healthy (world t noFault).
Proof. intro o. reflexivity. Qed.


(** ** C6: computations that only read *)

Lemma agree_refl (w : World) : agree w w.
Proof. split; reflexivity. Qed.

Lemma readOnly_agree {A} (c : M A) (w w2 : World) :
  readOnly c -> agree w w2 -> agree (snd (c w)) (snd (c w2)).
Proof.
  intros Hc [Ht Hf]. destruct (Hc w) as (T1 & F1 & _). destruct (Hc w2) as (T2 & F2 & _).
  split; congruence.
Qed.

Lemma readOnly_ret {A} (a : A) : readOnly (ret a).
Proof.
  intro w. unfold ret. simpl. repeat split.
  - exists []. rewrite app_nil_r. split; reflexivity.
Qed.

Lemma readOnly_throw {A} (e : Error) : readOnly (@throw A e).
Proof.
  intro w. unfold throw. simpl. repeat split.
  - exists []. rewrite app_nil_r. split; reflexivity.
Qed.

Lemma readOnly_getTables : readOnly getTables.
Proof.
  intro w. unfold getTables. simpl. repeat split.
  - exists []. rewrite app_nil_r. split; reflexivity.
  - intros w2 [Ht _]. rewrite Ht. reflexivity.
Qed.

Lemma readOnly_select (t : Table) : readOnly (issue (Select, t)).
Proof.
  intro w. unfold issue.
  assert (Hlog : exists ops, oplog (log_op (Select, t) w) = (oplog w ++ ops)%list
                             /\ forallb is_select ops = true).
  { exists [(Select, t)]. split; reflexivity. }
  repeat split; try (destruct (faulty w (Select, t)); simpl; auto; fail).
  intros w2 [_ Hf]. rewrite Hf. destruct (faulty w2 (Select, t)); reflexivity.
Qed.

Lemma readOnly_bind {A B} (c : M A) (k : A -> M B) :
  readOnly c -> (forall a, readOnly (k a)) -> readOnly (bind c k).
Proof.
  intros Hc Hk w. unfold bind.
  pose proof (Hc w) as (T & F & U & C & (ops & Hops & Hsel) & D).
  destruct (c w) as [[a|e] w1] eqn:Hcw; simpl in *.
  - pose proof (Hk a w1) as (T' & F' & U' & C' & (ops' & Hops' & Hsel') & D').
    repeat split; try congruence.
    + exists (ops ++ ops')%list. split.
      * rewrite Hops', Hops, app_assoc. reflexivity.
      * rewrite forallb_app, Hsel, Hsel'. reflexivity.
    + intros w2 Hag. pose proof (D w2 Hag) as Hr.
      pose proof (readOnly_agree c w w2 Hc Hag) as Hag'. rewrite Hcw in Hag'. simpl in Hag'.
      destruct (c w2) as [r2 w2']. simpl in *. subst r2.
      rewrite (proj2 (proj2 (proj2 (proj2 (proj2 (Hk a w1))))) w2' Hag').
      reflexivity.
  - repeat split; try congruence.
    + exists ops. split; assumption.
    + intros w2 Hag. pose proof (D w2 Hag) as Hr.
      destruct (c w2) as [r2 w2']. simpl in *. subst r2. reflexivity.
Qed.

Lemma readOnly_tryCatch {A} (c : M A) (h : Error -> M A) :
  readOnly c -> (forall e, readOnly (h e)) -> readOnly (tryCatch c h).
Proof.
  intros Hc Hh w. unfold tryCatch.
  pose proof (Hc w) as (T & F & U & C & (ops & Hops & Hsel) & D).
  destruct (c w) as [[a|e] w1] eqn:Hcw; simpl in *.
  - repeat split; try congruence.
    + exists ops. split; assumption.
    + intros w2 Hag. pose proof (D w2 Hag) as Hr.
      destruct (c w2) as [r2 w2']. simpl in *. subst r2. reflexivity.
  - pose proof (Hh e w1) as (T' & F' & U' & C' & (ops' & Hops' & Hsel') & D').
    repeat split; try congruence.
    + exists (ops ++ ops')%list. split.
      * rewrite Hops', Hops, app_assoc. reflexivity.
      * rewrite forallb_app, Hsel, Hsel'. reflexivity.
    + intros w2 Hag. pose proof (D w2 Hag) as Hr.
      pose proof (readOnly_agree c w w2 Hc Hag) as Hag'. rewrite Hcw in Hag'. simpl in Hag'.
      destruct (c w2) as [r2 w2']. simpl in *. subst r2.
      rewrite (proj2 (proj2 (proj2 (proj2 (proj2 (Hh e w1))))) w2' Hag').
      reflexivity.
Qed.

Ltac read_only :=
  repeat first
    [ apply readOnly_ret | apply readOnly_throw | apply readOnly_getTables
    | apply readOnly_select
    | apply readOnly_bind; [|intro]
    | apply readOnly_tryCatch; [|intro]
    | match goal with
      | |- readOnly (match ?x with _ => _ end) => destruct x
      | |- readOnly (if ?x then _ else _) => destruct x
      end ].

Lemma readOnly_validateServiceAccess (user : option IdentityUser) (sid : string)
    (p : Permission) : readOnly (validateServiceAccess user sid p).
Proof. unfold validateServiceAccess, Query.serviceById. read_only. Qed.

Lemma readOnly_generateDiffReport (sid : string) (importData : list KeyData) :
  readOnly (generateDiffReport sid importData).
Proof. unfold generateDiffReport, findExistingKeys. read_only. Qed.

(** The dry run of [POST /api/import] only reads. *)
Lemma readOnly_POST_dryRun (user : option IdentityUser) (requestBody : ImportPayload) :
  dryRun requestBody = true -> readOnly (POST user requestBody).
Proof.
  intro Hdry. unfold POST. destruct user as [u|]; [|read_only].
  unfold safeParse.
  destruct (min1 (service requestBody) && forallb keySchema (data_keys requestBody));
    [|read_only].
  rewrite Hdry. unfold Query.serviceByCode.
  apply readOnly_bind; [read_only|]. intros [svc|]; [|read_only].
  apply readOnly_bind; [apply readOnly_validateServiceAccess|]. intros [|]; simpl; [|read_only].
  apply readOnly_tryCatch; [|intro; read_only].
  apply readOnly_bind; [apply readOnly_generateDiffReport|]. intro. read_only.
Qed.

Lemma repeatPOST_dryRun (n : nat) (user : option IdentityUser) (requestBody : ImportPayload) :
  dryRun requestBody = true ->
  forall w0 w, agree w0 w ->
    let out := repeatPOST n user requestBody w in
    tables (snd out) = tables w0
    /\ Forall (fun r => r = fst (POST user requestBody w0)) (fst out)
    /\ length (fst out) = n
    /\ exists ops, oplog (snd out) = (oplog w ++ ops)%list /\ forallb is_select ops = true.
Proof.
  intro Hdry. pose proof (readOnly_POST_dryRun user requestBody Hdry) as HRO.
  induction n as [|n IH]; intros w0 w Hag; simpl.
  - repeat split; [symmetry; apply Hag | constructor |].
    exists []. rewrite app_nil_r. split; reflexivity.
  - pose proof (HRO w) as (T & F & _ & _ & (ops & Hops & Hsel) & _).
    pose proof (proj2 (proj2 (proj2 (proj2 (proj2 (HRO w0))))) w Hag) as Hsame.
    destruct (POST user requestBody w) as [r w1] eqn:Hp. simpl in *.
    assert (Hag1 : agree w0 w1).
    { destruct Hag as [Ht Hf]. split; congruence. }
    specialize (IH w0 w1 Hag1). simpl in IH.
    destruct (repeatPOST n user requestBody w1) as [rs w2]. simpl in *.
    destruct IH as (IT & IF & IL & (ops' & Hops' & Hsel')).
    repeat split.
    + exact IT.
    + constructor; [exact Hsame | exact IF].
    + rewrite IL. reflexivity.
    + exists (ops ++ ops')%list. split.
      * rewrite Hops', Hops, app_assoc. reflexivity.
      * rewrite forallb_app, Hsel, Hsel'. reflexivity.
Qed.

(** C6. The dry run writes nothing. For every user, every payload with
    [dryRun] set and every starting state, [n] calls of the handler one
    after the other leave the Key, Translation and Event tables (and the
    Service table) exactly as they were, issue nothing but [SELECT]s, and
    each returns what the first call returns, diff report included; and
    [generateDiffReport] itself leaves the tables as they were, for every
    service id and every list of incoming keys. *)
Theorem C6_dry_run_is_pure
    (n : nat) (user : option IdentityUser) (requestBody : ImportPayload) (w : World)
    (serviceId : string) (importData : list KeyData) :
  dryRun requestBody = true ->
  tables (snd (repeatPOST n user requestBody w)) = tables w
  /\ Forall (fun r => r = result (POST user requestBody) w)
       (fst (repeatPOST n user requestBody w))
  /\ length (fst (repeatPOST n user requestBody w)) = n
  /\ (exists ops,
        oplog (snd (repeatPOST n user requestBody w)) = (oplog w ++ ops)%list
        /\ forallb is_select ops = true)
  /\ tablesAfter (generateDiffReport serviceId importData) w = tables w.
Proof.
  intro Hdry.
  pose proof (repeatPOST_dryRun n user requestBody Hdry w w (agree_refl w)) as H.
  simpl in H. destruct H as (H1 & H2 & H3 & H4).
  repeat split; try assumption.
  unfold tablesAfter.
  apply (readOnly_generateDiffReport serviceId importData w).
Qed.

(** A dry run that finds a change answers 200 with the report, and the
    tables are still the ones it started from. *)
Lemma dry_run_reports_the_change :
  POST (Some editor) (mkPayload true "web-app" [k2_tags_reordered]) (world tables2 noFault)
  = (Ok (mkResponse 200
           (DryRunBody "web-app"
              (mkReport (mkSummary 0 1 0 0)
                 [mkChange update_key "k2" "nav.home" Undefined
                    (Defined (existingKeyState k2)) (incomingKeyState k2_tags_reordered)]))),
     mkWorld tables2 [(Select, TService); (Select, TService); (Select, TKey)] noFault 0 0).
Proof. vm_compute. reflexivity. Qed.

(** The same body without [dryRun] writes the key and two events. *)
Lemma import_writes_the_change :
  result (POST (Some editor) (mkPayload false "web-app" [k2_tags_reordered]))
    (world tables2 noFault)
  = Ok (mkResponse 201 (ImportedBody "web-app" 1 1))
  /\ keys (tablesAfter (POST (Some editor) (mkPayload false "web-app" [k2_tags_reordered]))
             (world tables2 noFault))
     = [mkKey "k2" (NVal "s1") (NVal "ns1") "nav.home" ["menu"; "nav"] "active"]
  /\ length (events (tablesAfter
                       (POST (Some editor) (mkPayload false "web-app" [k2_tags_reordered]))
                       (world tables2 noFault))) = 2.
Proof. vm_compute. repeat split. Qed.

Lemma C6_witness :
  tables (snd (repeatPOST 3 (Some editor) (mkPayload true "web-app" [])
                 (world sampleTables noFault))) = sampleTables.
Proof.
  exact (proj1 (C6_dry_run_is_pure 3 (Some editor) (mkPayload true "web-app" [])
                  (world sampleTables noFault) "s1" [] eq_refl)).
Defined.

(** ** C5: what the diff and the import do with an entry that is unchanged *)















(** ** C3 and C2: the translation update endpoint *)

Import TranslationRoute.

Lemma find_update (id : string) (set : Translation -> Translation) (rows : list Translation) :
  (forall r, tr_id (set r) = tr_id r) ->
  find (fun r => String.eqb (tr_id r) id)
    (map (fun r => if String.eqb (tr_id r) id then set r else r) rows)
  = option_map set (find (fun r => String.eqb (tr_id r) id) rows).
Proof.
  intro Hid. induction rows as [|r rows IH]; simpl; [reflexivity|].
  destruct (String.eqb (tr_id r) id) eqn:E; simpl.
  - rewrite Hid, E. reflexivity.
  - rewrite E. exact IH.
Qed.

(** [validateServiceAccess] returns, and only reads. *)
Lemma validateServiceAccess_total (user : option IdentityUser) (sid : string)
    (p : Permission) (w : World) :
  exists b w',
    validateServiceAccess user sid p w = (Ok b, w')
    /\ tables w' = tables w /\ faulty w' = faulty w /\ uuid w' = uuid w /\ clock w' = clock w.
Proof.
  destruct user as [u|].
  - destruct (isAdmin (Some u)) eqn:Hadm.
    + exists true, w. rewrite validateServiceAccess_admin by exact Hadm. repeat split.
    + eexists _, _. rewrite validateServiceAccess_run by exact Hadm. repeat split.
  - exists false, w. repeat split.
Qed.

(** What a [200] of the update endpoint means for the tables. *)
Lemma PUT_success (user : option IdentityUser) (id : string) (b : UpdateBody) (w : World)
    (resp : Response) :
  result (PUT user id b) w = Ok resp -> status resp = 200 ->
  exists existing,
    find (fun r => String.eqb (tr_id r) id) (translations (tables w)) = Some existing
    /\ updatedBy b id (tr_version existing + 1) (tables w) (tablesAfter (PUT user id b) w).
Proof.
  unfold result, tablesAfter, PUT. intros Hres Hst.
  destruct user as [u|]; [|simpl in Hres; injection Hres as <-; discriminate].
  destruct (String.eqb id ""); [simpl in Hres; injection Hres as <-; discriminate|].
  destruct (negb (updateTranslationSchema b));
    [simpl in Hres; injection Hres as <-; discriminate|].
  unfold findTranslation, Write.updateTranslation, Audit.logEvent, Write.insertEvent in *.
  revert Hres. run_db.
  destruct (faulty w (Select, TTranslation)); simpl; [discriminate|].
  destruct (find (fun r => String.eqb (tr_id r) id) (translations (tables w)))
    as [existing|] eqn:Hfind; simpl;
    [|intro Hres; injection Hres as <-; discriminate].
  destruct (find (fun k => String.eqb (key_id k) (tr_keyId existing)) (keys (tables w)))
    as [key|]; simpl; [|discriminate].
  match goal with
  | |- context [(if truthy_nstr _ then _ else _) ?x] => set (w1 := x)
  end.
  assert (Hallowed :
    exists allowed w2,
      (if truthy_nstr (key_serviceId key)
       then validateServiceAccess (Some u) (or_empty (key_serviceId key)) WRITE
       else fun w0 => (Ok (rolesInclude u "Admin" || rolesInclude u "Editor"), w0)) w1
      = (Ok allowed, w2)
      /\ tables w2 = tables w /\ faulty w2 = faulty w /\ uuid w2 = uuid w
      /\ clock w2 = clock w).
  { destruct (truthy_nstr (key_serviceId key)).
    - destruct (validateServiceAccess_total (Some u) (or_empty (key_serviceId key)) WRITE w1)
        as (a & w2 & E & T & F & U & C).
      exists a, w2. repeat split; assumption.
    - eexists _, w1. repeat split. }
  destruct Hallowed as (allowed & w2 & E & T & F & U & C). rewrite E.
  destruct allowed; simpl; [|intro Hres; injection Hres as <-; discriminate].
  destruct (faulty w2 (Update, TTranslation)); simpl; [discriminate|].
  destruct (faulty w2 (Insert, TEvent)); simpl; [discriminate|].
  match goal with |- context [existsb ?f ?l] => destruct (existsb f l) end;
    simpl; [discriminate|].
  intros _. exists existing. split; [reflexivity|].
  unfold updatedBy. eexists _, _. rewrite T. reflexivity.
Qed.

(** Whatever the update endpoint answers, it leaves the tables as they
    were or with the row rewritten at the next version. *)
Lemma PUT_tables (user : option IdentityUser) (id : string) (b : UpdateBody) (w : World) :
  translations (tablesAfter (PUT user id b) w) = translations (tables w)
  \/ exists existing updatedAt,
       find (fun r => String.eqb (tr_id r) id) (translations (tables w)) = Some existing
       /\ translations (tablesAfter (PUT user id b) w)
          = map (fun r => if String.eqb (tr_id r) id
                          then applyUpdate b (tr_version existing + 1) updatedAt r else r)
              (translations (tables w)).
Proof.
  unfold tablesAfter, PUT.
  destruct user as [u|]; [|left; reflexivity].
  destruct (String.eqb id ""); [left; reflexivity|].
  destruct (negb (updateTranslationSchema b)); [left; reflexivity|].
  unfold findTranslation, Write.updateTranslation, Audit.logEvent, Write.insertEvent.
  run_db.
  destruct (faulty w (Select, TTranslation)); simpl; [left; reflexivity|].
  destruct (find (fun r => String.eqb (tr_id r) id) (translations (tables w)))
    as [existing|] eqn:Hfind; simpl; [|left; reflexivity].
  destruct (find (fun k => String.eqb (key_id k) (tr_keyId existing)) (keys (tables w)))
    as [key|]; simpl; [|left; reflexivity].
  match goal with
  | |- context [(if truthy_nstr _ then _ else _) ?x] => set (w1 := x)
  end.
  assert (Hallowed :
    exists allowed w2,
      (if truthy_nstr (key_serviceId key)
       then validateServiceAccess (Some u) (or_empty (key_serviceId key)) WRITE
       else fun w0 => (Ok (rolesInclude u "Admin" || rolesInclude u "Editor"), w0)) w1
      = (Ok allowed, w2)
      /\ tables w2 = tables w).
  { destruct (truthy_nstr (key_serviceId key)).
    - destruct (validateServiceAccess_total (Some u) (or_empty (key_serviceId key)) WRITE w1)
        as (a & w2 & E & T & _).
      exists a, w2. split; assumption.
    - eexists _, w1. split; reflexivity. }
  destruct Hallowed as (allowed & w2 & E & T). rewrite E.
  destruct allowed; simpl; [|left; rewrite T; reflexivity].
  destruct (faulty w2 (Update, TTranslation)); simpl; [left; rewrite T; reflexivity|].
  right. exists existing, (clock w2). split; [reflexivity|].
  destruct (faulty w2 (Insert, TEvent)); simpl; [rewrite T; reflexivity|].
  match goal with |- context [existsb ?f ?l] => destruct (existsb f l) end;
    simpl; rewrite T; reflexivity.
Qed.

(** C3, as stated, fails: an import writes the version the payload carries,
    here 2 over a stored 5. *)
Lemma C3_import_lowers_version :
  versionOf sampleTables "t1" = Some 5%Z
  /\ result (executeImport "s1"
               [mkKeyData "k1" "auth.login.title" Undefined ["auth"; "ui"] "active"
                  [mkTranslationData "en" "Login" "active" 2]] "e1")
       (world sampleTables noFault) = Ok tt
  /\ versionOf
       (tablesAfter
          (executeImport "s1"
             [mkKeyData "k1" "auth.login.title" Undefined ["auth"; "ui"] "active"
                [mkTranslationData "en" "Login" "active" 2]] "e1")
          (world sampleTables noFault)) "t1" = Some 2%Z.
Proof. vm_compute. repeat split. Qed.

(** C3, amended. A [200] of the update endpoint leaves the translation with
    its version raised by exactly 1, and whatever the endpoint answers the
    version is the old one or the old one plus 1, never less. The
    [update_translation] write of an import does not count versions: it
    stores the version of the payload, whatever the stored one was. *)
Theorem C3_version_after_write
    (user : option IdentityUser) (id : string) (b : UpdateBody) (w : World)
    (resp : Response) (v : Z)
    (uid : string) (kd : KeyData) (tm : JSMap.t Translation) (td : TranslationData)
    (et : Translation) :
  (result (PUT user id b) w = Ok resp -> status resp = 200 ->
   versionOf (tables w) id = Some v ->
   versionOf (tablesAfter (PUT user id b) w) id = Some (v + 1)%Z)
  /\ (versionOf (tables w) id = Some v ->
      versionOf (tablesAfter (PUT user id b) w) id = Some v
      \/ versionOf (tablesAfter (PUT user id b) w) id = Some (v + 1)%Z)
  /\ (JSMap.get tm (td_locale td) = Some et -> translationChanged et td = true ->
      faulty w (Update, TTranslation) = false ->
      versionOf (tables w) (tr_id et) = Some v ->
      versionOf (tablesAfter (importTranslation uid kd tm td) w) (tr_id et)
      = Some (td_version td)).
Proof.
  split; [|split].
  - intros Hres Hst Hv.
    destruct (PUT_success user id b w resp Hres Hst) as (existing & Hfind & upd).
    destruct upd as (updatedAt & e & Heq). rewrite Heq.
    unfold versionOf in *. simpl. rewrite find_update by reflexivity.
    rewrite Hfind in *. simpl in *. injection Hv as <-. reflexivity.
  - intro Hv. unfold versionOf in *.
    destruct (PUT_tables user id b w) as [Hsame | (existing & updatedAt & Hfind & Hupd)].
    + left. rewrite Hsame. exact Hv.
    + right. rewrite Hupd, find_update by reflexivity.
      rewrite Hfind in *. simpl in *. injection Hv as <-. reflexivity.
  - intros Hget Hch Hf Hv. unfold importTranslation. rewrite Hget, Hch.
    unfold Audit.recordEvent, Write.updateTranslation, Write.insertEvent. run_db.
    rewrite Hf. simpl.
    assert (Hfound :
      versionOf
        (mkTables (services (tables w)) (keys (tables w))
           (map (fun r => if String.eqb (tr_id r) (tr_id et)
                          then mkTranslation (tr_id r) (tr_keyId r) (tr_locale r)
                                 (NVal (td_value td)) (td_status td) (td_version td) (clock w)
                          else r) (translations (tables w)))
           (events (tables w))) (tr_id et) = Some (td_version td)).
    { unfold versionOf in *. simpl. rewrite find_update by reflexivity.
      destruct (find (fun r => String.eqb (tr_id r) (tr_id et)) (translations (tables w)));
        [reflexivity | discriminate]. }
    destruct (faulty w (Insert, TEvent)); simpl; [exact Hfound|].
    match goal with |- context [existsb ?f ?l] => destruct (existsb f l) end;
      simpl; exact Hfound.
Qed.

Lemma C3_witness :
  versionOf (tablesAfter (PUT (Some editor) "t1" bumpBody) (world sampleTables noFault)) "t1"
  = Some 6%Z.
Proof.
  refine (proj1 (C3_version_after_write (Some editor) "t1" bumpBody
                   (world sampleTables noFault) (mkResponse 200 Success) 5%Z
                   "e1" k2_same JSMap.empty (mkTranslationData "en" "Home" "active" 3) t2)
            _ _ _);
    vm_compute; reflexivity.
Defined.

(** ** C2 *)

(** C2, on the code. The update endpoint when the audit write fails: the
    exception is thrown on, the translation stays updated (version 6, new
    value) and no event exists. *)
Lemma C2_update_survives_failed_audit :
  result (PUT (Some editor) "t1" bumpBody) (world sampleTables auditFails)
  = Throw (DbError (Insert, TEvent))
  /\ translations (tablesAfter (PUT (Some editor) "t1" bumpBody)
                     (world sampleTables auditFails))
     = [mkTranslation "t1" "k1" "en" (NVal "Log in") "active" 6 0]
  /\ events (tablesAfter (PUT (Some editor) "t1" bumpBody)
               (world sampleTables auditFails)) = [].
Proof. vm_compute. repeat split. Qed.

(** In general: whenever the endpoint fails on the audit insert, the
    update it made before is still in the table and no event was added. *)
Lemma PUT_failed_audit_keeps_update (user : option IdentityUser) (id : string)
    (b : UpdateBody) (w : World) :
  result (PUT user id b) w = Throw (DbError (Insert, TEvent)) ->
  events (tablesAfter (PUT user id b) w) = events (tables w)
  /\ exists existing updatedAt,
       find (fun r => String.eqb (tr_id r) id) (translations (tables w)) = Some existing
       /\ translations (tablesAfter (PUT user id b) w)
          = map (fun r => if String.eqb (tr_id r) id
                          then applyUpdate b (tr_version existing + 1) updatedAt r else r)
              (translations (tables w)).
Proof.
  unfold result, tablesAfter, PUT.
  destruct user as [u|]; [|discriminate].
  destruct (String.eqb id ""); [discriminate|].
  destruct (negb (updateTranslationSchema b)); [discriminate|].
  unfold findTranslation, Write.updateTranslation, Audit.logEvent, Write.insertEvent.
  run_db.
  destruct (faulty w (Select, TTranslation)); simpl; [discriminate|].
  destruct (find (fun r => String.eqb (tr_id r) id) (translations (tables w)))
    as [existing|] eqn:Hfind; simpl; [|discriminate].
  destruct (find (fun k => String.eqb (key_id k) (tr_keyId existing)) (keys (tables w)))
    as [key|]; simpl; [|discriminate].
  match goal with
  | |- context [(if truthy_nstr _ then _ else _) ?x] => set (w1 := x)
  end.
  assert (Hallowed :
    exists allowed w2,
      (if truthy_nstr (key_serviceId key)
       then validateServiceAccess (Some u) (or_empty (key_serviceId key)) WRITE
       else fun w0 => (Ok (rolesInclude u "Admin" || rolesInclude u "Editor"), w0)) w1
      = (Ok allowed, w2)
      /\ tables w2 = tables w).
  { destruct (truthy_nstr (key_serviceId key)).
    - destruct (validateServiceAccess_total (Some u) (or_empty (key_serviceId key)) WRITE w1)
        as (a & w2 & E & T & _).
      exists a, w2. split; assumption.
    - eexists _, w1. split; reflexivity. }
  destruct Hallowed as (allowed & w2 & E & T). rewrite E.
  destruct allowed; simpl; [|discriminate].
  destruct (faulty w2 (Update, TTranslation)); simpl; [discriminate|].
  destruct (faulty w2 (Insert, TEvent)); simpl.
  - intros _. rewrite T. split; [reflexivity|].
    exists existing, (clock w2). split; reflexivity.
  - match goal with |- context [existsb ?f ?l] => destruct (existsb f l) end;
      simpl; discriminate.
Qed.

(** The import, which runs in a transaction, rolls everything back when an
    audit write fails. *)
Lemma transaction_rolls_back {A} (body : M A) (w : World) (e : Error) :
  result (transaction body) w = Throw e -> tablesAfter (transaction body) w = tables w.
Proof.
  unfold result, tablesAfter, transaction.
  destruct (body w) as [[a|e'] w']; simpl; [discriminate | reflexivity].
Qed.

Lemma import_rolls_back_on_failed_audit :
  result (executeImport "s1" [k2_tags_reordered] "e1") (world tables2 auditFails)
  = Throw (DbError (Insert, TEvent))
  /\ tablesAfter (executeImport "s1" [k2_tags_reordered] "e1") (world tables2 auditFails)
     = tables2.
Proof. vm_compute. split; reflexivity. Qed.

(** ** C4: export, then plan the import of what was exported *)

Import ExportRoute.

(** C4, on the code. The round trip on a service whose one key has no
    namespace: the export is accepted by the import schema, and the plan
    reports the key as an update although nothing changed. *)
Lemma C4_round_trip_reports_update :
  result (generateExportData codeUnitCompare "s1" "web-app" defaultOptions)
    (world sampleTables noFault) = Ok exportOfS1
  /\ safeParse (asImportBody true exportOfS1) = Some (asImportBody true exportOfS1)
  /\ result (generateDiffReport "s1" (ex_keys exportOfS1)) (world sampleTables noFault)
     = Ok (mkReport (mkSummary 0 1 0 0)
             [mkChange update_key "k1" "auth.login.title" Undefined
                (Defined (existingKeyState k1))
                (incomingKeyState
                   (mkKeyData "k1" "auth.login.title" Undefined ["auth"; "ui"] "active"
                      [mkTranslationData "en" "Login" "active" 5]))]).
Proof. vm_compute. repeat split. Qed.

(** The same round trip on a key that has a namespace gives the empty
    report. *)
Lemma round_trip_with_namespace :
  result (generateExportData codeUnitCompare "s1" "web-app" defaultOptions)
    (world tables2 noFault) = Ok (mkExport "web-app" [] 0 [k2_same])
  /\ result (generateDiffReport "s1" [k2_same]) (world tables2 noFault) = Ok emptyReport.
Proof. vm_compute. split; reflexivity. Qed.

(** A stored value of [null] leaves as the empty string and comes back as a
    change of the translation. *)
Lemma round_trip_null_value :
  result (generateExportData codeUnitCompare "s1" "web-app" defaultOptions)
    (world (mkTables [s1] [k2] [mkTranslation "t2" "k2" "en" Null "draft" 1 0] []) noFault)
  = Ok (mkExport "web-app" [] 0
          [mkKeyData "k2" "nav.home" (Defined "ns1") ["nav"; "menu"] "active"
             [mkTranslationData "en" "" "draft" 1]])
  /\ summary
       (match result
                (generateDiffReport "s1"
                   [mkKeyData "k2" "nav.home" (Defined "ns1") ["nav"; "menu"] "active"
                      [mkTranslationData "en" "" "draft" 1]])
                (world (mkTables [s1] [k2] [mkTranslation "t2" "k2" "en" Null "draft" 1 0] [])
                   noFault)
        with
        | Ok r => r
        | Throw _ => emptyReport
        end)
     = mkSummary 0 0 0 1.
Proof. vm_compute. split; reflexivity. Qed.

(** The comparison that breaks the round trip: a stored [null] against an
    incoming [undefined]. *)
Lemma null_namespace_always_changed (ek : L10nKey) (kd : KeyData) :
  key_namespaceId ek = Null -> keyChanged ek kd = true.
Proof.
  intro H. unfold keyChanged. rewrite H. simpl.
  rewrite orb_true_r. reflexivity.
Qed.

(** ** C7: redaction *)

Import Redaction.

(** The cases of the test suite. *)
Lemma redacts_email_in_place :
  redactStringValue "Contact support@company.com for assistance" DEFAULT_REDACTION_CONFIG
  = "Contact [EMAIL_REDACTED] for assistance".
Proof. vm_compute. reflexivity. Qed.

Lemma redacts_long_value :
  redactStringValue
    "This is a very long translation value that exceeds 100 characters and should be redacted from the audit log because it contains sensitive info"
    DEFAULT_REDACTION_CONFIG
  = "[REDACTED: 142 characters - exceeds 100 chars]".
Proof. vm_compute. reflexivity. Qed.

Lemma redacts_sensitive_field_names :
  redactObjectFields DEFAULT_REDACTION_CONFIG
    (JObj [("keyName", JStr "user.settings"); ("password", JStr "oldpassword123");
           ("status", JStr "draft"); ("count", JNum 42)])
  = JObj [("keyName", JStr "[REDACTED: sensitive field name]");
          ("password", JStr "[REDACTED: sensitive field name]");
          ("status", JStr "draft"); ("count", JNum 42)].
Proof. vm_compute. reflexivity. Qed.

(** C7, on the code. Redacting the event once leaves the second address in
    place, where the e-mail pattern now matches it; redacting the result
    again changes it. *)
Lemma C7_redaction_not_idempotent_nor_safe :
  Regex.test email "c@d.io a@b.co2345678901" = true
  /\ redactSensitiveData neverParsed (noteEvent "c@d.io a@b.co2345678901")
       DEFAULT_REDACTION_CONFIG
     = Some (noteEvent "[EMAIL_REDACTED] a@b.co[PHONE_REDACTED]")
  /\ Regex.test email "[EMAIL_REDACTED] a@b.co[PHONE_REDACTED]" = true
  /\ noPatternLeft "[EMAIL_REDACTED] a@b.co[PHONE_REDACTED]" = false
  /\ redactSensitiveData neverParsed (noteEvent "[EMAIL_REDACTED] a@b.co[PHONE_REDACTED]")
       DEFAULT_REDACTION_CONFIG
     = Some (noteEvent "[EMAIL_REDACTED] [EMAIL_REDACTED][PHONE_REDACTED]").
Proof. vm_compute. repeat split. Qed.

(** The markers themselves are left alone. *)
Lemma markers_are_stable :
  forallb
    (fun marker => String.eqb (redactStringValue marker DEFAULT_REDACTION_CONFIG) marker)
    [ "[EMAIL_REDACTED]"; "[PHONE_REDACTED]"; "[SSN_REDACTED]"; "[CREDITCARD_REDACTED]";
      "[IPV4_REDACTED]"; "[URLWITHPARAMS_REDACTED]"; "[APIKEY_REDACTED]";
      "[REDACTED: sensitive field name]";
      "[REDACTED: 142 characters - exceeds 100 chars]" ]
  = true.
Proof. vm_compute. reflexivity. Qed.


(* ===================================================================== *)
(** * Further properties *)
(* ===================================================================== *)

(** ** Roles *)

Lemma includes_In (xs : list string) (x : string) : includes xs x = true <-> In x xs.
Proof.
  unfold includes. rewrite existsb_exists. split.
  - intros [y [Hy He]]. apply String.eqb_eq in He. subst y. exact Hy.
  - intro H. exists x. split; [exact H | apply String.eqb_refl].
Qed.

Lemma hasAnyRole_iff (user : option IdentityUser) (wanted : list string) :
  hasAnyRole user wanted = true <-> exists r, In r wanted /\ hasRole user r = true.
Proof.
  unfold hasAnyRole, hasRole. destruct (roles_of user) as [|rs].
  - split; [discriminate | intros [r [_ H]]; discriminate].
  - unfold some. rewrite existsb_exists. reflexivity.
Qed.

Lemma hasAnyRole_incl (user : option IdentityUser) (xs ys : list string) :
  incl xs ys -> hasAnyRole user xs = true -> hasAnyRole user ys = true.
Proof.
  intros Hi H. apply hasAnyRole_iff in H. destruct H as [r [Hin Hr]].
  apply hasAnyRole_iff. exists r. split; [apply Hi; exact Hin | exact Hr].
Qed.

Lemma isAdmin_canEdit (user : option IdentityUser) :
  isAdmin user = true -> canEdit user = true.
Proof.
  intro H. apply hasAnyRole_iff. exists "Admin". split; [left; reflexivity | exact H].
Qed.

Lemma canEdit_canView (user : option IdentityUser) :
  canEdit user = true -> canView user = true.
Proof.
  apply hasAnyRole_incl. intros r Hr. simpl in *. tauto.
Qed.

Lemma not_canEdit_not_admin (user : option IdentityUser) :
  canEdit user = false -> isAdmin user = false.
Proof.
  intro H. destruct (isAdmin user) eqn:Ha; [|reflexivity].
  apply isAdmin_canEdit in Ha. congruence.
Qed.

(** X1. The capabilities nest: an Admin and an Owner can edit, whoever can
    edit can review, whoever can review can view. *)
Theorem capabilities_nest (user : option IdentityUser) :
  (isAdmin user = true -> canEdit user = true)
  /\ (isOwner user = true -> canEdit user = true)
  /\ (canEdit user = true -> canReview user = true)
  /\ (canReview user = true -> canView user = true).
Proof.
  split; [apply isAdmin_canEdit|]. split; [|split].
  - intro H. apply hasAnyRole_iff. exists "Owner".
    split; [right; left; reflexivity | exact H].
  - apply hasAnyRole_incl. intros r Hr. simpl in *. tauto.
  - apply hasAnyRole_incl. intros r Hr. simpl in *. tauto.
Qed.

Lemma capabilities_nest_witness : canView (Some editor) = true.
Proof.
  apply (proj2 (proj2 (proj2 (capabilities_nest (Some editor))))).
  apply (proj1 (proj2 (proj2 (capabilities_nest (Some editor))))).
  reflexivity.
Defined.

Lemma moreRoles_hasAnyRole (u1 u2 : IdentityUser) (wanted : list string) :
  moreRoles u1 u2 -> hasAnyRole (Some u1) wanted = true -> hasAnyRole (Some u2) wanted = true.
Proof.
  intros [_ H] Ha. apply hasAnyRole_iff in Ha. destruct Ha as [r [Hin Hr]].
  apply hasAnyRole_iff. exists r. split; [exact Hin | apply H; exact Hr].
Qed.

Lemma moreRoles_roleDecision (u1 u2 : IdentityUser) (p : Permission) :
  moreRoles u1 u2 -> roleDecision (Some u1) p = true -> roleDecision (Some u2) p = true.
Proof. intro H. destruct p; simpl; apply moreRoles_hasAnyRole; exact H. Qed.

Lemma moreRoles_serviceDecision (u1 u2 : IdentityUser) (w : World) (id : string)
    (p : Permission) :
  moreRoles u1 u2 -> serviceDecision w u1 id p = true -> serviceDecision w u2 id p = true.
Proof.
  intros H. unfold serviceDecision. destruct (faulty w (Select, TService)); [auto|].
  destruct (Query.serviceRows (tables w) id) as [|s rest]; [auto|].
  destruct H as [Hsub Hr]. rewrite <- Hsub.
  destruct (includes (service_owners s) (sub u1)); [auto|].
  apply moreRoles_roleDecision. split; assumption.
Qed.

(** X2. Roles only add access: an identity that gains roles keeps every
    allowance the role decision and the three point checks gave it. *)
Theorem more_roles_never_less_access
    (u1 u2 : IdentityUser) (id : string) (p : Permission) (w : World) :
  moreRoles u1 u2 ->
  (roleDecision (Some u1) p = true -> roleDecision (Some u2) p = true)
  /\ (result (validateServiceAccess (Some u1) id p) w = Ok true ->
      result (validateServiceAccess (Some u2) id p) w = Ok true)
  /\ (result (validateTranslationAccess (Some u1) id p) w = Ok true ->
      result (validateTranslationAccess (Some u2) id p) w = Ok true)
  /\ (result (validateTranslationAccessByKey (Some u1) id p) w = Ok true ->
      result (validateTranslationAccessByKey (Some u2) id p) w = Ok true).
Proof.
  intro H. split; [apply moreRoles_roleDecision; exact H|].
  destruct (isAdmin (Some u2)) eqn:Ha2.
  - unfold result, validateTranslationAccess, validateTranslationAccessByKey.
    rewrite (validateServiceAccess_admin w (Some u2) id p Ha2). rewrite Ha2.
    repeat split; reflexivity.
  - assert (Ha1 : isAdmin (Some u1) = false).
    { destruct (isAdmin (Some u1)) eqn:E; [|reflexivity].
      destruct H as [_ Hr]. apply Hr in E. unfold isAdmin in Ha2. congruence. }
    unfold result. rewrite !validateServiceAccess_run, !validateTranslationAccess_run by assumption.
    fold (result (validateTranslationAccessByKey (Some u1) id p) w).
    fold (result (validateTranslationAccessByKey (Some u2) id p) w).
    rewrite !validateTranslationAccessByKey_run by assumption. simpl.
    split; [|split]; intro Hok; injection Hok as Hok; f_equal.
    + apply (moreRoles_serviceDecision u1 u2); assumption.
    + revert Hok. unfold translationDecision.
      destruct (faulty w (Select, TTranslation)); [auto|].
      destruct (Query.translationRows (tables w) id) as [|[sid owners] rest]; [auto|].
      destruct (negb (truthy_nstr sid)); [apply moreRoles_roleDecision; exact H|].
      destruct H as [Hsub Hr]. rewrite <- Hsub.
      destruct (match owners with NVal os => includes os (sub u1) | Null => false end); [auto|].
      apply moreRoles_roleDecision. split; assumption.
    + revert Hok. unfold keyDecision.
      destruct (faulty w (Select, TKey)); [auto|].
      destruct (Query.keyRows (tables w) id) as [|[[|sid] owners] rest]; [auto| |].
      * apply moreRoles_roleDecision; exact H.
      * destruct (String.eqb sid ""); [apply moreRoles_roleDecision; exact H|].
        apply moreRoles_serviceDecision; exact H.
Qed.

Lemma more_roles_witness :
  result (validateServiceAccess (Some (mkUser "v1" Undefined (Defined ["Editor"; "Viewer"])))
            "s1" READ) (world sampleTables noFault) = Ok true.
Proof.
  refine (proj1 (proj2 (@more_roles_never_less_access viewer
            (mkUser "v1" Undefined (Defined ["Editor"; "Viewer"])) "s1" READ
            (world sampleTables noFault) _)) _).
  - split; [reflexivity|]. intros r Hr. unfold hasRole in *. simpl in *.
    rewrite orb_false_r in Hr. rewrite Hr. apply orb_true_r.
  - vm_compute. reflexivity.
Defined.

(** ** Ownership *)

Lemma filter_unique {A} (f : A -> string) (xs : list A) (x : A) :
  NoDup (map f xs) -> In x xs ->
  filter (fun y => String.eqb (f y) (f x)) xs = [x].
Proof.
  induction xs as [|a xs IH]; intros Hnd Hin; [destruct Hin|].
  simpl in Hnd. inversion Hnd as [|? ? Hnotin Hnd']; subst.
  simpl. destruct Hin as [Heq | Hin].
  - subst a. rewrite String.eqb_refl. f_equal.
    apply filter_none. intros y Hy. apply String.eqb_neq. intro E.
    apply Hnotin. rewrite <- E. apply in_map. exact Hy.
  - assert (Hne : String.eqb (f a) (f x) = false).
    { apply String.eqb_neq. intro E. apply Hnotin. rewrite E. apply in_map. exact Hin. }
    rewrite Hne. apply IH; assumption.
Qed.

Lemma serviceRows_unique (t : Tables) (s : Service) :
  NoDup (map service_id (services t)) -> In s (services t) ->
  Query.serviceRows t (service_id s) = [s].
Proof.
  intros Hnd Hin. unfold Query.serviceRows.
  rewrite (filter_unique service_id (services t) s Hnd Hin). reflexivity.
Qed.

Lemma serviceRows_In (t : Tables) (id : string) (s : Service) (rest : list Service) :
  Query.serviceRows t id = s :: rest -> In s (services t) /\ service_id s = id.
Proof.
  unfold Query.serviceRows. intro H.
  assert (Hin : In s (filter (fun x => String.eqb (service_id x) id) (services t))).
  { destruct (filter (fun x => String.eqb (service_id x) id) (services t)) as [|a l];
      simpl in H; [discriminate|]. injection H as H _. subst a. left. reflexivity. }
  apply filter_In in Hin. destruct Hin as [Hin He]. apply String.eqb_eq in He. auto.
Qed.

Lemma canAccessService_run (w : World) (u : IdentityUser) (sid : string) (p : Permission) :
  isAdmin (Some u) = false ->
  result (canAccessService (Some u) sid p) w
  = Ok (if (if faulty w (Select, TService) then false
            else match Query.serviceRows (tables w) sid with
                 | [] => false
                 | s :: _ => includes (service_owners s) (sub u)
                 end)
        then true else roleDecision (Some u) p).
Proof.
  intro Hadm. unfold result, canAccessService. rewrite Hadm. unfold bind at 1.
  rewrite isServiceOwner_run.
  destruct (if faulty w (Select, TService) then false
            else match Query.serviceRows (tables w) sid with
                 | [] => false
                 | s :: _ => includes (service_owners s) (sub u)
                 end); reflexivity.
Qed.



Lemma not_owner_includes (u : IdentityUser) (t : Tables) (s : Service) :
  (forall s', In s' (services t) -> ~ owns u s') -> In s (services t) ->
  includes (service_owners s) (sub u) = false.
Proof.
  intros H Hin. destruct (includes (service_owners s) (sub u)) eqn:E; [|reflexivity].
  exfalso. apply (H s Hin). apply includes_In. exact E.
Qed.

Lemma serviceDecision_no_owner (w : World) (u : IdentityUser) (sid : string) (p : Permission) :
  (forall s, In s (services (tables w)) -> ~ owns u s) ->
  roleDecision (Some u) p = false ->
  serviceDecision w u sid p = false.
Proof.
  intros Hno Hrole. unfold serviceDecision.
  destruct (faulty w (Select, TService)); [reflexivity|].
  destruct (Query.serviceRows (tables w) sid) as [|s rest] eqn:Hrows; [reflexivity|].
  apply serviceRows_In in Hrows. destruct Hrows as [Hin _].
  rewrite (not_owner_includes u (tables w) s Hno Hin). exact Hrole.
Qed.

(** The owners a joined row carries are those of a row of [service]. *)
Lemma keyServiceRows_owners (t : Tables) (k : L10nKey) (sid : nullable string)
    (owners : list string) :
  In (sid, NVal owners) (Query.keyServiceRows t k) ->
  exists s, In s (services t) /\ service_owners s = owners.
Proof.
  unfold Query.keyServiceRows.
  destruct (Query.joinService t (key_serviceId k)) as [|s0 ss] eqn:Hj.
  - intros [H|[]]. discriminate.
  - intro H. apply in_map_iff in H. destruct H as [s [Hs Hin]].
    injection Hs as _ Hs. exists s. split; [|exact Hs].
    rewrite <- Hj in Hin. unfold Query.joinService in Hin.
    destruct (key_serviceId k); [destruct Hin|].
    apply filter_In in Hin. apply Hin.
Qed.

Lemma firstn_1_In {A} (xs : list A) (x : A) (rest : list A) :
  firstn 1 xs = x :: rest -> In x xs.
Proof. destruct xs as [|a l]; simpl; [discriminate|]. intro H. injection H as H _. left. exact H. Qed.

Lemma translationRows_owners (t : Tables) (id : string) (sid : nullable string)
    (owners : list string) (rest : list (nullable string * nullable (list string))) :
  Query.translationRows t id = (sid, NVal owners) :: rest ->
  exists s, In s (services t) /\ service_owners s = owners.
Proof.
  unfold Query.translationRows. intro H. apply firstn_1_In in H.
  apply in_flat_map in H. destruct H as [tr [_ H]].
  apply in_flat_map in H. destruct H as [k [_ H]].
  apply keyServiceRows_owners in H. exact H.
Qed.

(** X4. No write without an edit role or ownership. An identity that is
    absent, or holds none of Admin, Owner and Editor and is listed in the
    owners of no service, is denied write by every point check, for every
    id, whatever the database holds or does. *)
Theorem no_edit_role_no_ownership_no_write
    (user : option IdentityUser) (id : string) (w : World) :
  cannotWrite user (tables w) ->
  result (validateServiceAccess user id WRITE) w = Ok false
  /\ result (canAccessService user id WRITE) w = Ok false
  /\ result (validateTranslationAccess user id WRITE) w = Ok false
  /\ result (validateTranslationAccessByKey user id WRITE) w = Ok false.
Proof.
  destruct user as [u|]; [|intros _; repeat split; reflexivity].
  intros [Hedit Hno]. pose proof (not_canEdit_not_admin _ Hedit) as Hadm.
  assert (Hsd : forall sid, serviceDecision w u sid WRITE = false).
  { intro sid. apply serviceDecision_no_owner; assumption. }
  split; [|split; [|split]].
  - unfold result. rewrite validateServiceAccess_run by exact Hadm. simpl. rewrite Hsd. reflexivity.
  - rewrite canAccessService_run by exact Hadm. simpl roleDecision. rewrite Hedit.
    destruct (faulty w (Select, TService)); [reflexivity|].
    destruct (Query.serviceRows (tables w) id) as [|s rest] eqn:Hrows; [reflexivity|].
    apply serviceRows_In in Hrows. destruct Hrows as [Hin _].
    rewrite (not_owner_includes u (tables w) s Hno Hin). reflexivity.
  - unfold result. rewrite validateTranslationAccess_run by exact Hadm. simpl.
    unfold translationDecision. simpl roleDecision. rewrite Hedit.
    destruct (faulty w (Select, TTranslation)); [reflexivity|].
    destruct (Query.translationRows (tables w) id) as [|[sid owners] rest] eqn:Hrows;
      [reflexivity|].
    destruct (negb (truthy_nstr sid)); [reflexivity|].
    destruct owners as [|os]; [reflexivity|].
    apply translationRows_owners in Hrows. destruct Hrows as [s [Hin Hos]]. subst os.
    rewrite (not_owner_includes u (tables w) s Hno Hin). reflexivity.
  - rewrite validateTranslationAccessByKey_run by exact Hadm.
    unfold keyDecision. simpl roleDecision. rewrite Hedit.
    destruct (faulty w (Select, TKey)); [reflexivity|].
    destruct (Query.keyRows (tables w) id) as [|[[|sid] owners] rest]; try reflexivity.
    rewrite Hsd. destruct (String.eqb sid ""); reflexivity.
Qed.

Lemma sampleTables_viewer_owns_nothing : cannotWrite (Some viewer) sampleTables.
Proof.
  split; [reflexivity|]. intros s [Hs|[]]. subst s. unfold owns. simpl.
  intros [H|[]]. discriminate.
Qed.

Lemma no_write_witness :
  result (validateTranslationAccess (Some viewer) "t1" WRITE) (world sampleTables noFault)
  = Ok false.
Proof.
  exact (proj1 (proj2 (proj2 (@no_edit_role_no_ownership_no_write (Some viewer) "t1"
                                 (world sampleTables noFault)
                                 sampleTables_viewer_owns_nothing)))).
Defined.

(** X5. The two service checks of the code base, [canAccessService] of
    rbac.ts and [validateServiceAccess] of service-access.ts, give the same
    answer whenever the lookup succeeds and finds the service. *)
Theorem service_checks_agree_on_existing_service
    (user : option IdentityUser) (s : Service) (p : Permission) (w : World) :
  faulty w (Select, TService) = false ->
  In s (services (tables w)) ->
  result (canAccessService user (service_id s) p) w
  = result (validateServiceAccess user (service_id s) p) w.
Proof.
  intros Hf Hin. destruct user as [u|]; [|reflexivity].
  destruct (isAdmin (Some u)) eqn:Hadm.
  - unfold result, canAccessService.
    rewrite (validateServiceAccess_admin w (Some u) _ p Hadm). rewrite Hadm. reflexivity.
  - rewrite canAccessService_run by exact Hadm.
    unfold result. rewrite validateServiceAccess_run by exact Hadm. simpl.
    unfold serviceDecision. rewrite Hf.
    destruct (serviceRows_found (tables w) (service_id s) s Hin eq_refl) as [s' [rest Hrows]].
    rewrite Hrows. destruct (includes (service_owners s') (sub u)); reflexivity.
Qed.

Lemma service_checks_agree_witness :
  result (canAccessService (Some viewer) "s1" WRITE) (world sampleTables noFault)
  = result (validateServiceAccess (Some viewer) "s1" WRITE) (world sampleTables noFault).
Proof.
  apply (@service_checks_agree_on_existing_service (Some viewer) s1 WRITE
           (world sampleTables noFault) eq_refl).
  simpl. left. reflexivity.
Defined.

(** ** The lists of accessible services *)

Lemma getAccessibleServiceIds_run (w : World) (u : IdentityUser) (p : Permission) :
  faulty w (Select, TService) = false ->
  result (getAccessibleServiceIds (Some u) p) w
  = Ok (if isAdmin (Some u) || (match p with READ => true | WRITE => false end)
                               && canView (Some u)
        then map service_id (services (tables w))
        else map service_id (Query.ownedRows (tables w) (sub u))).
Proof.
  intro Hf. unfold getAccessibleServiceIds, Query.allServices, Query.ownedServices.
  destruct (isAdmin (Some u)); simpl.
  - run_db. rewrite Hf. reflexivity.
  - destruct ((match p with READ => true | WRITE => false end) && canView (Some u)).
    + run_db. rewrite Hf. reflexivity.
    + run_db. rewrite Hf. reflexivity.
Qed.

Lemma ownedRows_In (t : Tables) (sub : string) (s : Service) :
  In s (Query.ownedRows t sub) <-> In s (services t) /\ includes (service_owners s) sub = true.
Proof. unfold Query.ownedRows. apply filter_In. Qed.

(** X6. [getAccessibleServiceIds] against the point check, on a database
    that answers and with unique service ids. Every id it lists is allowed by
    [validateServiceAccess] for the same permission; for read it lists
    exactly the ids of the existing services the point check allows. *)
Theorem accessible_ids_are_allowed
    (user : option IdentityUser) (p : Permission) (sid : string) (ids : list string)
    (w : World) :
  faulty w (Select, TService) = false ->
  NoDup (map service_id (services (tables w))) ->
  result (getAccessibleServiceIds user p) w = Ok ids ->
  (In sid ids -> result (validateServiceAccess user sid p) w = Ok true)
  /\ (p = READ ->
      (exists s, In s (services (tables w)) /\ service_id s = sid) ->
      result (validateServiceAccess user sid p) w = Ok true ->
      In sid ids).
Proof.
  intros Hf Hnd Hids. destruct user as [u|].
  - rewrite getAccessibleServiceIds_run in Hids by exact Hf. injection Hids as Hids.
    destruct (isAdmin (Some u)) eqn:Hadm.
    + simpl in Hids. subst ids. split.
      * intros _. unfold result. rewrite validateServiceAccess_admin by exact Hadm. reflexivity.
      * intros _ [s [Hin Hid]] _. subst sid. apply in_map. exact Hin.
    + simpl in Hids. unfold result. rewrite validateServiceAccess_run by exact Hadm. simpl.
      unfold serviceDecision. rewrite Hf. split.
      * intro Hin.
        destruct ((match p with READ => true | WRITE => false end) && canView (Some u)) eqn:Hc.
        -- subst ids. apply in_map_iff in Hin. destruct Hin as [s [Hid Hin]]. subst sid.
           rewrite (serviceRows_unique _ _ Hnd Hin).
           apply andb_true_iff in Hc. destruct Hc as [Hp Hview].
           destruct p; [|discriminate]. simpl. rewrite Hview.
           destruct (includes (service_owners s) (sub u)); reflexivity.
        -- subst ids. apply in_map_iff in Hin. destruct Hin as [s [Hid Hin]]. subst sid.
           apply ownedRows_In in Hin. destruct Hin as [Hin Hown].
           rewrite (serviceRows_unique _ _ Hnd Hin), Hown. reflexivity.
      * intros Hp [s [Hin Hid]] Hok. subst p sid.
        rewrite (serviceRows_unique _ _ Hnd Hin) in Hok. simpl in Hok, Hids.
        destruct (canView (Some u)) eqn:Hview; subst ids.
        -- apply in_map. exact Hin.
        -- apply in_map. apply ownedRows_In. split; [exact Hin|].
           destruct (includes (service_owners s) (sub u)); [reflexivity | discriminate].
  - unfold result in Hids. simpl in Hids. injection Hids as Hids. subst ids. split.
    + intros [].
    + intros _ _ H. discriminate.
Qed.

Lemma accessible_ids_witness :
  result (validateServiceAccess (Some roleless) "s1" WRITE) (world sampleTables noFault) = Ok true.
Proof.
  refine (proj1 (@accessible_ids_are_allowed (Some roleless) WRITE "s1" ["s1"]
                   (world sampleTables noFault) eq_refl _ _) _).
  - simpl. constructor; [intros [] | constructor].
  - vm_compute. reflexivity.
  - left. reflexivity.
Defined.

(** X7. The two resolvers of accessible services, [getAccessibleServices] of
    rbac.ts and [getAccessibleServiceIds] of service-access.ts, return the
    same list when the database answers. When the select on [service] fails
    the first one throws for every identity that is present, while the second
    one answers the empty list where it asks for owned services. *)
Theorem accessible_service_resolvers
    (u : IdentityUser) (p : Permission) (w : World) :
  if faulty w (Select, TService)
  then result (getAccessibleServices (Some u) p) w = Throw (DbError (Select, TService))
       /\ (isAdmin (Some u) = false ->
           (p = READ -> canView (Some u) = false) ->
           result (getAccessibleServiceIds (Some u) p) w = Ok [])
  else result (getAccessibleServices (Some u) p) w
       = result (getAccessibleServiceIds (Some u) p) w.
Proof.
  destruct (faulty w (Select, TService)) eqn:Hf.
  - split.
    + unfold getAccessibleServices, Query.allServices, Query.ownedServices.
      destruct (isAdmin (Some u)); run_db; rewrite Hf; reflexivity.
    + intros Hadm Hview.
      unfold getAccessibleServiceIds, Query.ownedServices. rewrite Hadm.
      destruct p.
      * rewrite (Hview eq_refl). run_db. rewrite Hf. reflexivity.
      * run_db. rewrite Hf. reflexivity.
  - rewrite getAccessibleServiceIds_run by exact Hf.
    unfold getAccessibleServices, Query.allServices, Query.ownedServices.
    destruct (isAdmin (Some u)); simpl.
    + run_db. rewrite Hf. reflexivity.
    + destruct ((match p with READ => true | WRITE => false end) && canView (Some u)).
      * run_db. rewrite Hf. simpl. rewrite Hf. reflexivity.
      * destruct ((match p with WRITE => true | READ => false end) && canEdit (Some u));
          run_db; rewrite Hf; reflexivity.
Qed.

Lemma accessible_service_resolvers_witness :
  result (getAccessibleServices (Some roleless) WRITE) (world sampleTables selectsFail)
  = Throw (DbError (Select, TService))
  /\ result (getAccessibleServiceIds (Some roleless) WRITE) (world sampleTables selectsFail)
     = Ok [].
Proof.
  destruct (accessible_service_resolvers roleless WRITE (world sampleTables selectsFail))
    as [H1 H2].
  split; [exact H1 | apply H2; [reflexivity | discriminate]].
Defined.

(** ** The filter on [service] *)

Lemma listServices_run (w : World) (user : option IdentityUser) (p : Permission) :
  faulty w (Select, TService) = false ->
  result (listServices user p) w
  = Ok (match swhere (addServiceAccessFilter fromService user p) with
        | None => services (tables w)
        | Some c => filter (serviceHolds c) (services (tables w))
        end).
Proof. intro Hf. unfold listServices, runService. run_db. rewrite Hf. reflexivity. Qed.

(** X8. The filter on [service] is sound for the point check. On a database
    that answers, with unique service ids, every service a list query under
    [addServiceAccessFilter] returns, other than one whose id is the literal
    [impossible-service-id], is allowed by [validateServiceAccess]; and its id
    is one [getAccessibleServiceIds] lists. *)
Theorem service_filter_is_sound
    (user : option IdentityUser) (p : Permission) (s : Service) (rows : list Service)
    (w : World) :
  faulty w (Select, TService) = false ->
  NoDup (map service_id (services (tables w))) ->
  service_id s <> impossible_service_id ->
  result (listServices user p) w = Ok rows ->
  In s rows ->
  result (validateServiceAccess user (service_id s) p) w = Ok true
  /\ exists ids, result (getAccessibleServiceIds user p) w = Ok ids /\ In (service_id s) ids.
Proof.
  intros Hf Hnd Hid Hrows Hin.
  rewrite listServices_run in Hrows by exact Hf. injection Hrows as Hrows. subst rows.
  unfold addServiceAccessFilter in Hin. destruct user as [u|].
  - rewrite getAccessibleServiceIds_run by exact Hf.
    destruct (isAdmin (Some u)) eqn:Hadm.
    + simpl in Hin. split.
      * unfold result. rewrite validateServiceAccess_admin by exact Hadm. reflexivity.
      * eexists. split; [reflexivity|]. simpl. apply in_map. exact Hin.
    + unfold result. rewrite validateServiceAccess_run by exact Hadm. simpl.
      unfold serviceDecision. rewrite Hf.
      destruct p; simpl in Hin |- *.
      * destruct (canView (Some u)) eqn:Hview; simpl in Hin.
        -- rewrite (serviceRows_unique _ _ Hnd Hin). split.
           ++ destruct (includes (service_owners s) (sub u)); reflexivity.
           ++ eexists. split; [reflexivity|]. apply in_map. exact Hin.
        -- apply filter_In in Hin. destruct Hin as [_ He]. simpl in He.
           apply String.eqb_eq in He. contradiction.
      * destruct (canEdit (Some u)) eqn:Hedit; simpl in Hin.
        -- apply filter_In in Hin. destruct Hin as [Hin Hown]. simpl in Hown.
           rewrite orb_false_r in Hown.
           rewrite (serviceRows_unique _ _ Hnd Hin), Hown. split; [reflexivity|].
           eexists. split; [reflexivity|]. apply in_map. apply ownedRows_In. auto.
        -- apply filter_In in Hin. destruct Hin as [_ He]. simpl in He.
           apply String.eqb_eq in He. contradiction.
  - simpl in Hin. apply filter_In in Hin. destruct Hin as [_ He]. simpl in He.
    apply String.eqb_eq in He. contradiction.
Qed.

Lemma service_filter_witness :
  result (validateServiceAccess (Some viewer) "s1" READ) (world sampleTables noFault) = Ok true.
Proof.
  refine (proj1 (@service_filter_is_sound (Some viewer) READ s1 [s1]
                   (world sampleTables noFault) eq_refl _ _ _ _)).
  - simpl. constructor; [intros [] | constructor].
  - simpl. discriminate.
  - vm_compute. reflexivity.
  - left. reflexivity.
Defined.

(** ** The filter on [translation] *)

Lemma listTranslations_run (w : World) (user : option IdentityUser) (p : Permission) :
  faulty w (Select, TTranslation) = false ->
  result (listTranslations user p) w
  = Ok (match twhere (addTranslationAccessFilter fromTranslation user p) with
        | None => translations (tables w)
        | Some id => filter (fun r => String.eqb (tr_id r) id) (translations (tables w))
        end).
Proof. intro Hf. unfold listTranslations, runTranslation. run_db. rewrite Hf. reflexivity. Qed.

Lemma translationRows_found (t : Tables) (r : Translation) (k : L10nKey) :
  In r (translations t) -> In k (keys t) -> key_id k = tr_keyId r ->
  exists row rest, Query.translationRows t (tr_id r) = row :: rest.
Proof.
  intros Hr Hk Hid. unfold Query.translationRows.
  match goal with |- context [firstn 1 ?l] => destruct l as [|row l'] eqn:Hl end.
  - exfalso.
    destruct (keyServiceRows_head t k) as (owners & rest & Hrows).
    assert (Hin : In (key_serviceId k, owners)
              (flat_map
                 (fun tr => flat_map (Query.keyServiceRows t)
                              (filter (fun k0 => String.eqb (key_id k0) (tr_keyId tr)) (keys t)))
                 (filter (fun tr => String.eqb (tr_id tr) (tr_id r)) (translations t)))).
    { apply in_flat_map. exists r. split.
      - apply filter_In. split; [exact Hr | apply String.eqb_refl].
      - apply in_flat_map. exists k. split.
        + apply filter_In. split; [exact Hk | apply String.eqb_eq; exact Hid].
        + rewrite Hrows. left. reflexivity. }
    rewrite Hl in Hin. exact Hin.
  - exists row, []. reflexivity.
Qed.

(** X9. The write filter on [translation] is sound for the point check. On a
    database that answers, every translation a list query under
    [addTranslationAccessFilter] with write permission returns, whose key
    exists and whose id is not the literal [impossible-translation-id], is
    allowed by [validateTranslationAccess] for write. *)
Theorem translation_write_filter_is_sound
    (user : option IdentityUser) (r : Translation) (k : L10nKey) (rows : list Translation)
    (w : World) :
  faulty w (Select, TTranslation) = false ->
  In k (keys (tables w)) -> key_id k = tr_keyId r ->
  tr_id r <> impossible_translation_id ->
  result (listTranslations user WRITE) w = Ok rows ->
  In r rows ->
  result (validateTranslationAccess user (tr_id r) WRITE) w = Ok true.
Proof.
  intros Hf Hk Hkid Hid Hrows Hin.
  rewrite listTranslations_run in Hrows by exact Hf. injection Hrows as Hrows. subst rows.
  unfold addTranslationAccessFilter in Hin. destruct user as [u|].
  - destruct (isAdmin (Some u)) eqn:Hadm.
    + unfold result, validateTranslationAccess. rewrite Hadm. reflexivity.
    + simpl in Hin. destruct (canEdit (Some u)) eqn:Hedit; simpl in Hin.
      * unfold result. rewrite validateTranslationAccess_run by exact Hadm. simpl.
        unfold translationDecision. rewrite Hf. simpl roleDecision. rewrite Hedit.
        destruct (translationRows_found (tables w) r k Hin Hk Hkid) as [[sid owners] [rest Hr]].
        rewrite Hr. destruct (negb (truthy_nstr sid)); [reflexivity|].
        destruct (match owners with NVal os => includes os (sub u) | Null => false end);
          reflexivity.
      * apply filter_In in Hin. destruct Hin as [_ He].
        apply String.eqb_eq in He. contradiction.
  - simpl in Hin. apply filter_In in Hin. destruct Hin as [_ He].
    apply String.eqb_eq in He. contradiction.
Qed.

Lemma translation_write_filter_witness :
  result (validateTranslationAccess (Some editor) "t1" WRITE) (world sampleTables noFault)
  = Ok true.
Proof.
  refine (@translation_write_filter_is_sound (Some editor) t1 k1 [t1]
            (world sampleTables noFault) eq_refl _ eq_refl _ _ _).
  - simpl. left. reflexivity.
  - simpl. discriminate.
  - vm_compute. reflexivity.
  - left. reflexivity.
Defined.

(** X10. The read filter on [translation] restricts no identity that is
    present. For an identity that holds no view role and owns no service, a
    list query under [addTranslationAccessFilter] with read permission
    returns the whole table, each row of which [canReadTranslation] denies,
    and [canListTranslations] answers false. *)
Theorem translation_read_filter_lists_denied_rows
    (u : IdentityUser) (r : Translation) (w : World) :
  faulty w (Select, TTranslation) = false ->
  cannotRead u (tables w) ->
  In r (translations (tables w)) ->
  (exists rows, result (listTranslations (Some u) READ) w = Ok rows /\ In r rows)
  /\ result (canReadTranslation (Some u) (tr_id r)) w = Ok false
  /\ canListTranslations (Some u) = false.
Proof.
  intros Hf [Hview Hno] Hin.
  assert (Hadm : isAdmin (Some u) = false).
  { destruct (isAdmin (Some u)) eqn:E; [|reflexivity].
    apply isAdmin_canEdit in E. apply canEdit_canView in E. congruence. }
  split; [|split].
  - exists (translations (tables w)). split; [|exact Hin].
    rewrite listTranslations_run by exact Hf. unfold addTranslationAccessFilter.
    rewrite Hadm, Hview. reflexivity.
  - unfold canReadTranslation, result. rewrite validateTranslationAccess_run by exact Hadm.
    simpl. unfold translationDecision. rewrite Hf. simpl roleDecision. rewrite Hview.
    destruct (Query.translationRows (tables w) (tr_id r)) as [|[sid owners] rest] eqn:Hrows;
      [reflexivity|].
    destruct (negb (truthy_nstr sid)); [reflexivity|].
    destruct owners as [|os]; [reflexivity|].
    apply translationRows_owners in Hrows. destruct Hrows as [s [Hs Hos]]. subst os.
    rewrite (not_owner_includes u (tables w) s Hno Hs). reflexivity.
  - unfold canListTranslations. rewrite Hadm, Hview. reflexivity.
Qed.

Lemma translation_read_filter_witness :
  (exists rows,
      result (listTranslations (Some nobody) READ) (world sampleTables noFault) = Ok rows
      /\ In t1 rows)
  /\ result (canReadTranslation (Some nobody) "t1") (world sampleTables noFault) = Ok false
  /\ canListTranslations (Some nobody) = false.
Proof.
  refine (@translation_read_filter_lists_denied_rows nobody t1 (world sampleTables noFault)
            eq_refl _ _).
  - split; [reflexivity|]. intros s [Hs|[]]. subst s. unfold owns. simpl.
    intros [H|[]]. discriminate.
  - simpl. left. reflexivity.
Defined.

(** ** What a computation leaves alone *)

Section Frames.

Variable R : Tables -> Tables -> Prop.
Hypothesis HR : isFrame R.
Hypothesis HE : allowsNewEvent R.
Hypothesis HT : allowsTranslations R.
Hypothesis HK : allowsKeys R.

Lemma keeps_ret {A} (a : A) : keeps R (ret a).
Proof. intro w. apply (proj1 HR). Qed.

Lemma keeps_throw {A} (e : Error) : keeps R (@throw A e).
Proof. intro w. apply (proj1 HR). Qed.

Lemma keeps_getTables : keeps R getTables.
Proof. intro w. apply (proj1 HR). Qed.

Lemma keeps_now : keeps R now.
Proof. intro w. apply (proj1 HR). Qed.

Lemma keeps_randomUUID : keeps R randomUUID.
Proof. intro w. apply (proj1 HR). Qed.

Lemma keeps_issue (o : Op) : keeps R (issue o).
Proof. intro w. unfold issue. destruct (faulty w o); apply (proj1 HR). Qed.

Lemma keeps_bind {A B} (c : M A) (k : A -> M B) :
  keeps R c -> (forall a, keeps R (k a)) -> keeps R (bind c k).
Proof.
  intros Hc Hk w. unfold bind. specialize (Hc w).
  destruct (c w) as [[a|e] w1]; simpl in *; [|exact Hc].
  apply (proj2 HR) with (tables w1); [exact Hc | apply Hk].
Qed.

Lemma keeps_tryCatch {A} (c : M A) (h : Error -> M A) :
  keeps R c -> (forall e, keeps R (h e)) -> keeps R (tryCatch c h).
Proof.
  intros Hc Hh w. unfold tryCatch. specialize (Hc w).
  destruct (c w) as [[a|e] w1]; simpl in *; [exact Hc|].
  apply (proj2 HR) with (tables w1); [exact Hc | apply Hh].
Qed.

Lemma keeps_transaction {A} (body : M A) : keeps R body -> keeps R (transaction body).
Proof.
  intros Hb w. unfold transaction. specialize (Hb w).
  destruct (body w) as [[a|e] w1]; simpl in *; [exact Hb | apply (proj1 HR)].
Qed.

Lemma keeps_forEach {A} (body : A -> M unit) (xs : list A) :
  (forall x, keeps R (body x)) -> keeps R (forEach body xs).
Proof.
  intro Hb. induction xs as [|x xs IH]; simpl.
  - apply keeps_ret.
  - apply keeps_bind; [apply Hb | intros _; exact IH].
Qed.

Lemma keeps_insertEvent (e : Event) : keeps R (Write.insertEvent e).
Proof.
  intro w. unfold Write.insertEvent. run_db.
  destruct (faulty w (Insert, TEvent)); simpl; [apply (proj1 HR)|].
  destruct (existsb _ _); simpl; [apply (proj1 HR) | apply HE].
Qed.

Lemma keeps_insertTranslation (r : Translation) : keeps R (Write.insertTranslation r).
Proof.
  intro w. unfold Write.insertTranslation. run_db.
  destruct (faulty w (Insert, TTranslation)); simpl; [apply (proj1 HR)|].
  destruct (existsb _ _); simpl; [apply (proj1 HR) | apply HT].
Qed.

Lemma keeps_updateTranslation (id : string) (set : Translation -> Translation) :
  keeps R (Write.updateTranslation id set).
Proof.
  intro w. unfold Write.updateTranslation. run_db.
  destruct (faulty w (Update, TTranslation)); simpl; [apply (proj1 HR) | apply HT].
Qed.

Lemma keeps_insertKey (k : L10nKey) : keeps R (Write.insertKey k).
Proof.
  intro w. unfold Write.insertKey. run_db.
  destruct (faulty w (Insert, TKey)); simpl; [apply (proj1 HR)|].
  destruct (existsb _ _); simpl; [apply (proj1 HR) | apply HK].
Qed.

Lemma keeps_updateKey (id : string) (set : L10nKey -> L10nKey) :
  keeps R (Write.updateKey id set).
Proof.
  intro w. unfold Write.updateKey. run_db.
  destruct (faulty w (Update, TKey)); simpl; [apply (proj1 HR) | apply HK].
Qed.

Ltac frame_with known :=
  repeat first
    [ known
    | apply keeps_ret | apply keeps_throw | apply keeps_getTables | apply keeps_now
    | apply keeps_randomUUID | apply keeps_issue
    | apply keeps_insertEvent | apply keeps_insertTranslation
    | apply keeps_updateTranslation | apply keeps_insertKey | apply keeps_updateKey
    | apply keeps_bind; [|intro]
    | apply keeps_tryCatch; [|intro]
    | apply keeps_transaction
    | apply keeps_forEach; intro
    | progress cbv zeta
    | match goal with
      | |- keeps _ (match ?x with _ => _ end) => destruct x
      | |- keeps _ (if ?x then _ else _) => destruct x
      end ].

Ltac frame := frame_with fail.

Lemma keeps_validateServiceAccess (user : option IdentityUser) (sid : string)
    (p : Permission) : keeps R (validateServiceAccess user sid p).
Proof. unfold validateServiceAccess, Query.serviceById. frame. Qed.

Lemma keeps_recordEvent (actor action entityType entityId : string) (before after : json) :
  keeps R (Audit.recordEvent actor action entityType entityId before after).
Proof. unfold Audit.recordEvent. frame. Qed.

Lemma keeps_export_GET (localeCompare : string -> string -> Z)
    (user : option IdentityUser) (q : ExportRoute.RawExportQuery) :
  keeps R (ExportRoute.GET localeCompare user q).
Proof.
  unfold ExportRoute.GET, generateExportData, keysWithTranslations, Query.serviceByCode.
  frame_with ltac:(first [apply keeps_validateServiceAccess | apply keeps_recordEvent]).
Qed.

Lemma keeps_keys_POST (user : option IdentityUser) (b : KeysRoute.CreateKeyBody) :
  keeps R (KeysRoute.POST user b).
Proof.
  unfold KeysRoute.POST, Query.serviceByCode.
  frame_with ltac:(apply keeps_validateServiceAccess).
Qed.

Lemma keeps_PUT (user : option IdentityUser) (id : string) (b : UpdateBody) :
  keeps R (PUT user id b).
Proof.
  unfold PUT, findTranslation, Audit.logEvent.
  frame_with ltac:(apply keeps_validateServiceAccess).
Qed.

Lemma keeps_createTranslation (userId : string) (kd : KeyData) (td : TranslationData) :
  keeps R (createTranslation userId kd td).
Proof. unfold createTranslation. frame_with ltac:(apply keeps_recordEvent). Qed.

Lemma keeps_executeImport (sid : string) (importData : list KeyData) (userId : string) :
  keeps R (executeImport sid importData userId).
Proof.
  unfold executeImport, findExistingKeys, importKey, importTranslation.
  frame_with ltac:(first [apply keeps_recordEvent | apply keeps_createTranslation]).
Qed.

Lemma keeps_import_POST (user : option IdentityUser) (b : ImportPayload) :
  keeps R (ImportRoute.POST user b).
Proof.
  unfold ImportRoute.POST, generateDiffReport, findExistingKeys, Query.serviceByCode.
  frame_with ltac:(first [apply keeps_validateServiceAccess | apply keeps_executeImport
                         | apply keeps_recordEvent]).
Qed.

Lemma keeps_serviceByCode (code : string) : keeps R (Query.serviceByCode code).
Proof. unfold Query.serviceByCode. frame. Qed.

Lemma keeps_findTranslation (id : string) : keeps R (findTranslation id).
Proof. unfold findTranslation. frame. Qed.


End Frames.

Lemma onlyNewEvents_frame : isFrame onlyNewEvents.
Proof.
  split.
  - intro t. repeat split. exists []. rewrite app_nil_r. reflexivity.
  - intros a b c (S1 & K1 & T1 & es1 & E1) (S2 & K2 & T2 & es2 & E2).
    repeat split; try congruence.
    exists (es1 ++ es2)%list. rewrite E2, E1, app_assoc. reflexivity.
Qed.

Lemma onlyKeys_frame : isFrame onlyKeys.
Proof.
  split.
  - intro t. repeat split.
  - intros a b c (S1 & T1 & E1) (S2 & T2 & E2). repeat split; congruence.
Qed.

Lemma sameServicesAndKeys_frame : isFrame sameServicesAndKeys.
Proof.
  split.
  - intro t. split; reflexivity.
  - intros a b c (S1 & K1) (S2 & K2). split; congruence.
Qed.

Lemma sameServices_frame : isFrame sameServices.
Proof.
  split.
  - intro t. reflexivity.
  - unfold sameServices. intros a b c S1 S2. congruence.
Qed.

(** X11. What the endpoints never touch. In every outcome, for every
    identity, input and database: the export writes nothing but new rows of
    [event]; the key creation changes no service, no translation and no
    event; the translation update changes no service and no key; the import
    changes no service. *)
Theorem endpoints_leave_the_rest_alone
    (localeCompare : string -> string -> Z) (user : option IdentityUser)
    (q : ExportRoute.RawExportQuery) (kb : KeysRoute.CreateKeyBody)
    (id : string) (ub : UpdateBody) (ib : ImportPayload) (w : World) :
  onlyNewEvents (tables w) (tablesAfter (ExportRoute.GET localeCompare user q) w)
  /\ onlyKeys (tables w) (tablesAfter (KeysRoute.POST user kb) w)
  /\ sameServicesAndKeys (tables w) (tablesAfter (PUT user id ub) w)
  /\ sameServices (tables w) (tablesAfter (ImportRoute.POST user ib) w).
Proof.
  split; [|split; [|split]].
  - apply (keeps_export_GET onlyNewEvents onlyNewEvents_frame).
    intros t e. repeat split. exists [e]. reflexivity.
  - apply (keeps_keys_POST onlyKeys onlyKeys_frame). intros t ks. repeat split.
  - apply (keeps_PUT sameServicesAndKeys sameServicesAndKeys_frame).
    + intros t e. split; reflexivity.
    + intros t rs. split; reflexivity.
  - apply (keeps_import_POST sameServices sameServices_frame); intros t x; reflexivity.
Qed.

(** ** The outcomes of the export and of the key creation *)

Arguments ExportRoute.generateExportData : simpl never.
Arguments Audit.recordEvent : simpl never.
Arguments Write.insertKey : simpl never.
Arguments Query.serviceByCode : simpl never.
Arguments TranslationRoute.findTranslation : simpl never.

Lemma sameTables_frame : isFrame sameTables.
Proof.
  split.
  - intro t. reflexivity.
  - unfold sameTables. intros a b c H1 H2. congruence.
Qed.

Lemma bind_run {A B} (c : M A) (k : A -> M B) (w : World) :
  bind c k w = match c w with
               | (Ok a, w') => k a w'
               | (Throw e, w') => (Throw e, w')
               end.
Proof. reflexivity. Qed.


Lemma recordEvent_cases (a act et id : string) (b af : json) (w : World) :
  (exists e w', Audit.recordEvent a act et id b af w = (Throw e, w') /\ tables w' = tables w)
  \/ (exists w', Audit.recordEvent a act et id b af w = (Ok tt, w')
        /\ tables w'
           = withEvent (tables w)
               (mkEvent ("uuid-" ++ dec (uuid w)) a act et id b af (clock w))).
Proof.
  unfold Audit.recordEvent, Write.insertEvent. run_db.
  destruct (faulty w (Insert, TEvent)); simpl; [left; eexists _, _; split; reflexivity|].
  destruct (existsb _ _); simpl.
  - left. eexists _, _. split; reflexivity.
  - right. eexists. split; reflexivity.
Qed.

Lemma insertKey_cases (k : L10nKey) (w : World) :
  (exists e w', Write.insertKey k w = (Throw e, w') /\ tables w' = tables w)
  \/ (exists w', Write.insertKey k w = (Ok tt, w')
        /\ tables w' = withKey (tables w) k /\ noKey (tables w) (key_id k)).
Proof.
  unfold Write.insertKey. run_db.
  destruct (faulty w (Insert, TKey)); simpl; [left; eexists _, _; split; reflexivity|].
  destruct (existsb _ _) eqn:Hex; simpl.
  - left. eexists _, _. split; reflexivity.
  - right. eexists. split; [reflexivity|]. split; [reflexivity|].
    intros x Hx Heq.
    assert (Ht : existsb (fun x0 => String.eqb (key_id x0) (key_id k)) (keys (tables w)) = true).
    { apply existsb_exists. exists x. split; [exact Hx | apply String.eqb_eq; exact Heq]. }
    congruence.
Qed.


(** X13. A key is created exactly on 201, and never with an audit event.
    [POST /api/keys] answers 201 exactly when it has appended the new key,
    whose id no row carried, to [l10n_key] and changed nothing else, the
    [event] table included; in every other outcome the tables are as they
    were. *)
Theorem key_creation_writes_no_event
    (user : option IdentityUser) (b : KeysRoute.CreateKeyBody) (w : World) :
  match result (KeysRoute.POST user b) w with
  | Ok resp =>
      if Nat.eqb (KeysRoute.kr_status resp) 201
      then exists serviceId,
             tablesAfter (KeysRoute.POST user b) w
             = withKey (tables w) (KeysRoute.newKey b serviceId)
             /\ noKey (tables w) (KeysRoute.ck_id b)
      else tablesAfter (KeysRoute.POST user b) w = tables w
  | Throw _ => tablesAfter (KeysRoute.POST user b) w = tables w
  end.
Proof.
  unfold result, tablesAfter, KeysRoute.POST.
  destruct user as [u|]; [|reflexivity].
  destruct (negb (KeysRoute.createKeySchema b)); [reflexivity|].
  destruct (KeysRoute.ck_serviceCode b) as [|code].
  - destruct (negb (rolesInclude u "Admin") && negb (rolesInclude u "Editor")); [reflexivity|].
    rewrite bind_run.
    destruct (insertKey_cases (KeysRoute.newKey b Null) w)
      as [(e & w1 & E1 & T1) | (w1 & E1 & T1 & N1)]; rewrite E1; simpl.
    + exact T1.
    + exists Null. split; assumption.
  - rewrite bind_run.
    pose proof (keeps_serviceByCode sameTables sameTables_frame code w) as T1.
    unfold sameTables in T1.
    destruct (Query.serviceByCode code w) as [[[svc|]|e] w1];
      simpl in T1; [| simpl; exact T1 | simpl; exact T1].
    rewrite bind_run.
    destruct (validateServiceAccess_total (Some u) (service_id svc) WRITE w1)
      as (a & w2 & E2 & T2 & _).
    rewrite E2. destruct a; unfold negb; [|simpl; congruence].
    rewrite bind_run.
    destruct (insertKey_cases (KeysRoute.newKey b (NVal (service_id svc))) w2)
      as [(e & w3 & E3 & T3) | (w3 & E3 & T3 & N3)]; rewrite E3; simpl.
    + congruence.
    + exists (NVal (service_id svc)). split.
      * rewrite T3, T2, T1. reflexivity.
      * rewrite <- T1, <- T2. exact N3.
Qed.

(** ** Requests by an identity without write access *)

Lemma validateServiceAccess_cannotWrite (u : IdentityUser) (id : string) (w : World) :
  cannotWrite (Some u) (tables w) ->
  validateServiceAccess (Some u) id WRITE w = (Ok false, log_op (Select, TService) w).
Proof.
  intros [Hedit Hno].
  rewrite validateServiceAccess_run by (apply not_canEdit_not_admin; exact Hedit).
  rewrite serviceDecision_no_owner by assumption. reflexivity.
Qed.

Lemma cannotEdit_rolesInclude (u : IdentityUser) :
  canEdit (Some u) = false -> rolesInclude u "Admin" || rolesInclude u "Editor" = false.
Proof.
  intro Hedit.
  change (hasRole (Some u) "Admin" || hasRole (Some u) "Editor" = false).
  destruct (hasRole (Some u) "Admin") eqn:Ha.
  - exfalso. assert (canEdit (Some u) = true); [|congruence].
    apply hasAnyRole_iff. exists "Admin". split; [simpl; tauto | exact Ha].
  - destruct (hasRole (Some u) "Editor") eqn:He; [|reflexivity].
    exfalso. assert (canEdit (Some u) = true); [|congruence].
    apply hasAnyRole_iff. exists "Editor". split; [simpl; tauto | exact He].
Qed.

Ltac turned_down T :=
  simpl; split;
  [ first [reflexivity | exact T | congruence]
  | let resp := fresh "resp" in
    let H := fresh "H" in
    intros resp H;
    first [discriminate H | injection H as <-; unfold refused; simpl; tauto] ].

(** X14. Without write access nothing is written. For a caller that is
    absent, or holds none of Admin, Owner and Editor and is listed in the
    owners of no service, the import (dry run or not), the translation
    update and the key creation leave every table as it was and, when they
    answer, answer 400, 401, 403 or 404, whatever the input and the
    database. *)
Theorem no_write_access_no_change
    (user : option IdentityUser) (ib : ImportPayload) (id : string) (ub : UpdateBody)
    (kb : KeysRoute.CreateKeyBody) (w : World) :
  cannotWrite user (tables w) ->
  (tablesAfter (ImportRoute.POST user ib) w = tables w
   /\ forall resp, result (ImportRoute.POST user ib) w = Ok resp ->
                   refused (ImportRoute.status resp))
  /\ (tablesAfter (PUT user id ub) w = tables w
      /\ forall resp, result (PUT user id ub) w = Ok resp -> refused (status resp))
  /\ (tablesAfter (KeysRoute.POST user kb) w = tables w
      /\ forall resp, result (KeysRoute.POST user kb) w = Ok resp ->
                      refused (KeysRoute.kr_status resp)).
Proof.
  intro Hcw. destruct user as [u|];
    [|repeat split; intros resp H; injection H as <-; unfold refused; simpl; tauto].
  split; [|split].
  - unfold result, tablesAfter, ImportRoute.POST.
    destruct (safeParse ib) as [parsed|]; [|turned_down I].
    cbv zeta. rewrite bind_run.
    pose proof (keeps_serviceByCode sameTables sameTables_frame (service parsed) w) as T1.
    unfold sameTables in T1.
    destruct (Query.serviceByCode (service parsed) w) as [[[svc|]|e] w1]; simpl in T1;
      [| turned_down T1 | turned_down T1].
    rewrite bind_run, validateServiceAccess_cannotWrite by (rewrite T1; exact Hcw).
    turned_down T1.
  - unfold result, tablesAfter, PUT.
    destruct (String.eqb id ""); [turned_down I|].
    destruct (negb (updateTranslationSchema ub)); [turned_down I|].
    rewrite bind_run.
    pose proof (keeps_findTranslation sameTables sameTables_frame id w) as T1.
    unfold sameTables in T1.
    destruct (findTranslation id w) as [[[[existing [key|]]|]|e] w1]; simpl in T1;
      [| turned_down T1 | turned_down T1 | turned_down T1].
    rewrite bind_run. destruct (truthy_nstr (key_serviceId key)).
    + rewrite validateServiceAccess_cannotWrite by (rewrite T1; exact Hcw).
      turned_down T1.
    + unfold ret at 1. rewrite (cannotEdit_rolesInclude u (proj1 Hcw)). turned_down T1.
  - unfold result, tablesAfter, KeysRoute.POST.
    destruct (negb (KeysRoute.createKeySchema kb)); [turned_down I|].
    destruct (KeysRoute.ck_serviceCode kb) as [|code].
    + assert (Hr : negb (rolesInclude u "Admin") && negb (rolesInclude u "Editor") = true).
      { pose proof (cannotEdit_rolesInclude u (proj1 Hcw)) as H.
        apply orb_false_iff in H. destruct H as [H1 H2]. rewrite H1, H2. reflexivity. }
      rewrite Hr. turned_down I.
    + rewrite bind_run.
      pose proof (keeps_serviceByCode sameTables sameTables_frame code w) as T1.
      unfold sameTables in T1.
      destruct (Query.serviceByCode code w) as [[[svc|]|e] w1]; simpl in T1;
        [| turned_down T1 | turned_down T1].
      rewrite bind_run, validateServiceAccess_cannotWrite by (rewrite T1; exact Hcw).
      turned_down T1.
Qed.

Lemma no_write_access_witness :
  tablesAfter (ImportRoute.POST (Some viewer) (mkPayload false "web-app" [k2_same]))
    (world sampleTables noFault) = sampleTables.
Proof.
  exact (proj1 (proj1 (@no_write_access_no_change (Some viewer)
                         (mkPayload false "web-app" [k2_same]) "t1" bumpBody
                         (KeysRoute.mkCreateKeyBody "k9" "x" Undefined Undefined Undefined)
                         (world sampleTables noFault)
                         sampleTables_viewer_owns_nothing))).
Defined.

(** ** The diff report: counters and changes *)

Lemma countOf_app (ty : ChangeType) (a b : list Change) :
  countOf ty (a ++ b) = countOf ty a + countOf ty b.
Proof. unfold countOf. rewrite filter_app, length_app. reflexivity. Qed.

Lemma countOf_created (ty : ChangeType) (kd : KeyData) (tds : list TranslationData) :
  countOf ty (map (createTranslationChange kd) tds)
  = if isType ty create_translation then length tds else 0.
Proof.
  unfold countOf. induction tds as [|td tds IH]; simpl.
  - destruct (isType ty create_translation); reflexivity.
  - destruct (isType ty create_translation); simpl; rewrite IH; reflexivity.
Qed.

Lemma push_all (kd : KeyData) (tds : list TranslationData) (r : DiffReport) :
  fold_left (fun acc td => push (createTranslationChange kd td) acc) tds r
  = mkReport (summary r) (changes r ++ map (createTranslationChange kd) tds).
Proof.
  revert r. induction tds as [|td tds IH]; intro r; simpl.
  - rewrite app_nil_r. destruct r; reflexivity.
  - rewrite IH. simpl. rewrite <- app_assoc. reflexivity.
Qed.

Lemma diffTranslation_counters (kd : KeyData) (tm : JSMap.t Translation) (r : DiffReport)
    (td : TranslationData) :
  countersMatch r -> countersMatch (diffTranslation kd tm r td).
Proof.
  intros (H1 & H2 & H3 & H4). unfold diffTranslation.
  destruct (JSMap.get tm (td_locale td)) as [et|].
  - destruct (translationChanged et td); [|repeat split; assumption].
    unfold countersMatch. simpl. rewrite !countOf_app. unfold countOf at 2 4 6 8. simpl.
    repeat split; lia.
  - unfold countersMatch. simpl. rewrite !countOf_app. unfold countOf at 2 4 6 8. simpl.
    repeat split; lia.
Qed.

Lemma diffTranslations_counters (kd : KeyData) (tm : JSMap.t Translation)
    (tds : list TranslationData) (r : DiffReport) :
  countersMatch r -> countersMatch (fold_left (diffTranslation kd tm) tds r).
Proof.
  revert r. induction tds as [|td tds IH]; intros r H; simpl; [exact H|].
  apply IH. apply diffTranslation_counters. exact H.
Qed.

Lemma diffKey_counters (m : JSMap.t (L10nKey * list Translation)) (r : DiffReport)
    (kd : KeyData) :
  countersMatch r -> countersMatch (diffKey m r kd).
Proof.
  intro H. unfold diffKey. destruct (JSMap.get m (kd_id kd)) as [[ek ets]|].
  - apply diffTranslations_counters. destruct (keyChanged ek kd); [|exact H].
    destruct H as (H1 & H2 & H3 & H4).
    unfold countersMatch. simpl. rewrite !countOf_app. unfold countOf at 2 4 6 8. simpl.
    repeat split; lia.
  - rewrite push_all. destruct H as (H1 & H2 & H3 & H4).
    unfold countersMatch. simpl. rewrite !countOf_app, !countOf_created.
    unfold countOf at 2 4 6 8. simpl. repeat split; lia.
Qed.

Lemma diffKeys_counters (m : JSMap.t (L10nKey * list Translation)) (kds : list KeyData)
    (r : DiffReport) :
  countersMatch r -> countersMatch (fold_left (diffKey m) kds r).
Proof.
  revert r. induction kds as [|kd kds IH]; intros r H; simpl; [exact H|].
  apply IH. apply diffKey_counters. exact H.
Qed.

Lemma countOf_total (cs : list Change) :
  countOf create_key cs + countOf update_key cs
  + countOf create_translation cs + countOf update_translation cs = length cs.
Proof.
  induction cs as [|c cs IH]; [reflexivity|].
  change (c :: cs) with ([c] ++ cs)%list. rewrite !countOf_app, length_app.
  unfold countOf at 1 3 5 7. simpl. destruct (change_type c); simpl; lia.
Qed.

(** X15. The summary of a diff report counts its changes: each of the four
    counters is the number of listed changes of its type, and the four add up
    to the length of the list. *)
Theorem diff_summary_counts_the_changes
    (serviceId : string) (importData : list KeyData) (w : World) (r : DiffReport) :
  result (generateDiffReport serviceId importData) w = Ok r ->
  countersMatch r
  /\ keysToCreate (summary r) + keysToUpdate (summary r)
     + translationsToCreate (summary r) + translationsToUpdate (summary r)
     = length (changes r).
Proof.
  unfold result, generateDiffReport, findExistingKeys. run_db.
  destruct (faulty w (Select, TKey)); simpl; [discriminate|].
  intro H. injection H as H.
  assert (Hc : countersMatch r).
  { subst r. apply diffKeys_counters. repeat split. }
  split; [exact Hc|]. destruct Hc as (H1 & H2 & H3 & H4).
  rewrite H1, H2, H3, H4. apply countOf_total.
Qed.

Lemma diff_summary_witness :
  countersMatch (mkReport (mkSummary 0 1 0 0)
                   [mkChange update_key "k2" "nav.home" Undefined
                      (Defined (existingKeyState k2)) (incomingKeyState k2_tags_reordered)]).
Proof.
  refine (proj1 (@diff_summary_counts_the_changes "s1" [k2_tags_reordered]
                   (world tables2 noFault) _ _)).
  vm_compute. reflexivity.
Defined.

(** ** The import writes what the plan lists *)

Lemma diffTranslation_appends (kd : KeyData) (tm : JSMap.t Translation) (r : DiffReport)
    (td : TranslationData) :
  changes (diffTranslation kd tm r td)
  = (changes r ++ changes (diffTranslation kd tm emptyReport td))%list.
Proof.
  unfold diffTranslation. destruct (JSMap.get tm (td_locale td)) as [et|].
  - destruct (translationChanged et td); simpl; [reflexivity|].
    rewrite app_nil_r. reflexivity.
  - reflexivity.
Qed.

Lemma diffTranslations_length (kd : KeyData) (tm : JSMap.t Translation)
    (tds : list TranslationData) (r : DiffReport) :
  length (changes (fold_left (diffTranslation kd tm) tds r))
  = length (changes r) + list_sum (map (plannedForTranslation kd tm) tds).
Proof.
  revert r. induction tds as [|td tds IH]; intro r; simpl; [lia|].
  rewrite IH, diffTranslation_appends, length_app. unfold plannedForTranslation. lia.
Qed.

Lemma diffKey_length (m : JSMap.t (L10nKey * list Translation)) (r : DiffReport)
    (kd : KeyData) :
  length (changes (diffKey m r kd)) = length (changes r) + plannedFor m kd.
Proof.
  unfold plannedFor, diffKey. destruct (JSMap.get m (kd_id kd)) as [[ek ets]|].
  - rewrite !diffTranslations_length. destruct (keyChanged ek kd); simpl.
    + rewrite length_app. simpl. lia.
    + lia.
  - rewrite !push_all. simpl. rewrite !length_app. simpl. lia.
Qed.

Lemma diffKeys_length (m : JSMap.t (L10nKey * list Translation)) (kds : list KeyData)
    (r : DiffReport) :
  length (changes (fold_left (diffKey m) kds r))
  = length (changes r) + list_sum (map (plannedFor m) kds).
Proof.
  revert r. induction kds as [|kd kds IH]; intro r; simpl; [lia|].
  rewrite IH, diffKey_length. lia.
Qed.

Lemma addsEvents_ret {A} (a : A) : addsEvents 0 (ret a).
Proof. intros w b w' H. injection H as _ <-. lia. Qed.

Lemma addsEvents_now : addsEvents 0 now.
Proof. intros w b w' H. injection H as _ <-. lia. Qed.

Lemma addsEvents_randomUUID : addsEvents 0 randomUUID.
Proof. intros w b w' H. injection H as _ <-. simpl. lia. Qed.

Lemma addsEvents_bind {A B} (n m t : nat) (c : M A) (k : A -> M B) :
  addsEvents n c -> (forall a, addsEvents m (k a)) -> n + m = t ->
  addsEvents t (bind c k).
Proof.
  intros Hc Hk Ht w b w' H. unfold bind in H.
  destruct (c w) as [[a|e] w1] eqn:E; [|discriminate].
  apply Hc in E. apply Hk in H. lia.
Qed.

Lemma addsEvents_forEach {A} (f : A -> nat) (body : A -> M unit) (xs : list A) :
  (forall x, addsEvents (f x) (body x)) ->
  addsEvents (list_sum (map f xs)) (forEach body xs).
Proof.
  intro Hb. induction xs as [|x xs IH]; simpl.
  - apply addsEvents_ret.
  - apply (addsEvents_bind (f x) (list_sum (map f xs))); [apply Hb | intros _; exact IH | lia].
Qed.

Lemma addsEvents_insertKey (k : L10nKey) : addsEvents 0 (Write.insertKey k).
Proof.
  intros w a w'. unfold Write.insertKey. run_db.
  destruct (faulty w (Insert, TKey)); simpl; [discriminate|].
  destruct (existsb _ _); simpl; [discriminate|].
  intro H. injection H as _ <-. simpl. lia.
Qed.

Lemma addsEvents_updateKey (id : string) (set : L10nKey -> L10nKey) :
  addsEvents 0 (Write.updateKey id set).
Proof.
  intros w a w'. unfold Write.updateKey. run_db.
  destruct (faulty w (Update, TKey)); simpl; [discriminate|].
  intro H. injection H as _ <-. simpl. lia.
Qed.

Lemma addsEvents_insertTranslation (r : Translation) :
  addsEvents 0 (Write.insertTranslation r).
Proof.
  intros w a w'. unfold Write.insertTranslation. run_db.
  destruct (faulty w (Insert, TTranslation)); simpl; [discriminate|].
  destruct (existsb _ _); simpl; [discriminate|].
  intro H. injection H as _ <-. simpl. lia.
Qed.

Lemma addsEvents_updateTranslation (id : string) (set : Translation -> Translation) :
  addsEvents 0 (Write.updateTranslation id set).
Proof.
  intros w a w'. unfold Write.updateTranslation. run_db.
  destruct (faulty w (Update, TTranslation)); simpl; [discriminate|].
  intro H. injection H as _ <-. simpl. lia.
Qed.

Lemma addsEvents_recordEvent (a act et id : string) (b af : json) :
  addsEvents 1 (Audit.recordEvent a act et id b af).
Proof.
  intros w x w' H.
  destruct (recordEvent_cases a act et id b af w) as [(e & w1 & E & _) | (w1 & E & T)];
    rewrite E in H; [discriminate|].
  injection H as _ <-. rewrite T. unfold withEvent. simpl. rewrite length_app. reflexivity.
Qed.

Lemma addsEvents_createTranslation (uid : string) (kd : KeyData) (td : TranslationData) :
  addsEvents 1 (createTranslation uid kd td).
Proof.
  unfold createTranslation.
  eapply addsEvents_bind; [apply addsEvents_randomUUID | intro | reflexivity].
  eapply addsEvents_bind; [apply addsEvents_now | intro | reflexivity].
  eapply addsEvents_bind;
    [apply addsEvents_insertTranslation | intro; apply addsEvents_recordEvent | reflexivity].
Qed.

Lemma addsEvents_importTranslation (uid : string) (kd : KeyData) (tm : JSMap.t Translation)
    (td : TranslationData) :
  addsEvents (plannedForTranslation kd tm td) (importTranslation uid kd tm td).
Proof.
  unfold plannedForTranslation, importTranslation, diffTranslation.
  destruct (JSMap.get tm (td_locale td)) as [et|].
  - destruct (translationChanged et td); simpl; [|apply addsEvents_ret].
    eapply addsEvents_bind; [apply addsEvents_now | intro | reflexivity].
    eapply addsEvents_bind;
      [apply addsEvents_updateTranslation | intro; apply addsEvents_recordEvent | reflexivity].
  - apply addsEvents_createTranslation.
Qed.

Lemma list_sum_ones {A} (xs : list A) : list_sum (map (fun _ => 1) xs) = length xs.
Proof. induction xs as [|x xs IH]; simpl; [reflexivity | rewrite IH; reflexivity]. Qed.

Lemma addsEvents_importKey (sid uid : string) (m : JSMap.t (L10nKey * list Translation))
    (kd : KeyData) :
  addsEvents (plannedFor m kd) (importKey sid uid m kd).
Proof.
  unfold plannedFor, importKey, diffKey.
  destruct (JSMap.get m (kd_id kd)) as [[ek ets]|].
  - rewrite diffTranslations_length.
    pose proof (addsEvents_forEach (plannedForTranslation kd (translationMapOf ets))
                  (importTranslation uid kd (translationMapOf ets)) (kd_translations kd)
                  (fun td => addsEvents_importTranslation uid kd _ td)) as Hloop.
    destruct (keyChanged ek kd); simpl.
    + apply (addsEvents_bind 1 (list_sum (map (plannedForTranslation kd (translationMapOf ets))
                                            (kd_translations kd))));
        [ | intros _; exact Hloop | reflexivity ].
      eapply addsEvents_bind;
        [apply addsEvents_updateKey | intro; apply addsEvents_recordEvent | reflexivity].
    + apply (addsEvents_bind 0 (list_sum (map (plannedForTranslation kd (translationMapOf ets))
                                            (kd_translations kd))));
        [apply addsEvents_ret | intros _; exact Hloop | reflexivity].
  - rewrite push_all. simpl. rewrite length_map.
    eapply addsEvents_bind; [apply addsEvents_insertKey | intro | reflexivity].
    eapply addsEvents_bind; [apply addsEvents_recordEvent | intro | reflexivity].
    rewrite <- (list_sum_ones (kd_translations kd)).
    apply (addsEvents_forEach (fun _ => 1) (createTranslation uid kd)).
    intro td. apply addsEvents_createTranslation.
Qed.

Lemma findExistingKeys_run (serviceId : string) (w : World) :
  findExistingKeys serviceId w
  = if faulty w (Select, TKey)
    then (Throw (DbError (Select, TKey)), log_op (Select, TKey) w)
    else (Ok (existingKeysOf (tables w) serviceId), log_op (Select, TKey) w).
Proof.
  unfold findExistingKeys. run_db. destruct (faulty w (Select, TKey)); reflexivity.
Qed.

(** X16. The import is all or nothing, and it writes what the plan lists.
    When [executeImport] returns, the [event] table has grown by one row for
    each change that [generateDiffReport] lists for the same data on the same
    tables; when it throws, every table is as it was. *)
Theorem import_writes_one_event_per_planned_change
    (serviceId : string) (importData : list KeyData) (userId : string) (w : World)
    (r : DiffReport) :
  result (generateDiffReport serviceId importData) w = Ok r ->
  match result (executeImport serviceId importData userId) w with
  | Ok _ =>
      length (events (tablesAfter (executeImport serviceId importData userId) w))
      = length (events (tables w)) + length (changes r)
  | Throw _ => tablesAfter (executeImport serviceId importData userId) w = tables w
  end.
Proof.
  unfold result, tablesAfter, generateDiffReport, executeImport, transaction.
  rewrite !bind_run, findExistingKeys_run.
  destruct (faulty w (Select, TKey)); [discriminate|].
  intro H. unfold ret in H. simpl in H. injection H as H.
  pose proof (addsEvents_forEach
                (plannedFor (keyMapOf (existingKeysOf (tables w) serviceId)))
                (importKey serviceId userId (keyMapOf (existingKeysOf (tables w) serviceId)))
                importData
                (fun kd => addsEvents_importKey serviceId userId _ kd)
                (log_op (Select, TKey) w)) as Hadd.
  destruct (forEach (importKey serviceId userId
                       (keyMapOf (existingKeysOf (tables w) serviceId)))
              importData (log_op (Select, TKey) w)) as [[[]|e] w2].
  - simpl. rewrite (Hadd tt w2 eq_refl). simpl. subst r. rewrite diffKeys_length. simpl.
    reflexivity.
  - reflexivity.
Qed.

Lemma import_plan_witness :
  length (events (tablesAfter (executeImport "s1" [k2_tags_reordered] "e1")
                    (world tables2 noFault))) = 1.
Proof.
  exact (@import_writes_one_event_per_planned_change "s1" [k2_tags_reordered] "e1"
           (world tables2 noFault)
           (mkReport (mkSummary 0 1 0 0)
              [mkChange update_key "k2" "nav.home" Undefined
                 (Defined (existingKeyState k2)) (incomingKeyState k2_tags_reordered)])
           eq_refl).
Defined.

(** ** A key id that another service uses *)

Lemma get_set_other {V} (m : JSMap.t V) (k k' : string) (v : V) :
  k' <> k -> JSMap.get (JSMap.set m k' v) k = JSMap.get m k.
Proof.
  intro H. apply String.eqb_neq in H.
  induction m as [|[k0 v0] m IH]; simpl.
  - rewrite H. reflexivity.
  - destruct (String.eqb k0 k') eqn:E; simpl.
    + apply String.eqb_eq in E. subst k0. rewrite H. reflexivity.
    + destruct (String.eqb k0 k); [reflexivity | exact IH].
Qed.

Lemma get_of_entries_none {V} (entries : list (string * V)) (k : string) :
  (forall e, In e entries -> fst e <> k) -> JSMap.get (JSMap.of_entries entries) k = None.
Proof.
  unfold JSMap.of_entries.
  assert (G : forall m0, JSMap.get m0 k = None ->
                         (forall e, In e entries -> fst e <> k) ->
                         JSMap.get (fold_left (fun m e => JSMap.set m (fst e) (snd e)) entries m0) k
                         = None).
  { induction entries as [|e es IH]; intros m0 Hm0 Hne; simpl; [exact Hm0|].
    apply IH.
    - rewrite get_set_other; [exact Hm0 | apply Hne; left; reflexivity].
    - intros e' He'. apply Hne. right. exact He'. }
  apply G. reflexivity.
Qed.

Lemma keyMapOf_other_service (t : Tables) (serviceId id : string) :
  (forall k, In k (keys t) -> key_id k = id -> key_serviceId k <> NVal serviceId) ->
  JSMap.get (keyMapOf (existingKeysOf t serviceId)) id = None.
Proof.
  intro H. unfold keyMapOf. apply get_of_entries_none.
  intros e He. apply in_map_iff in He. destruct He as [[k rs] [<- Hin]]. simpl.
  unfold existingKeysOf in Hin. apply in_map_iff in Hin. destruct Hin as [k' [Hk' Hin]].
  injection Hk' as -> _. apply filter_In in Hin. destruct Hin as [Hin Hsvc].
  intro Hid. apply (H k Hin Hid).
  destruct (key_serviceId k) as [|s]; [discriminate|].
  apply String.eqb_eq in Hsvc. subst s. reflexivity.
Qed.

Lemma diffTranslations_extend (kd : KeyData) (tm : JSMap.t Translation)
    (tds : list TranslationData) (r : DiffReport) :
  exists more, changes (fold_left (diffTranslation kd tm) tds r) = (changes r ++ more)%list.
Proof.
  revert r. induction tds as [|td tds IH]; intro r; simpl.
  - exists []. rewrite app_nil_r. reflexivity.
  - destruct (IH (diffTranslation kd tm r td)) as [more Hmore].
    rewrite Hmore, diffTranslation_appends, <- app_assoc. eexists. reflexivity.
Qed.

Lemma diffKey_extends (m : JSMap.t (L10nKey * list Translation)) (r : DiffReport)
    (kd : KeyData) :
  exists more, changes (diffKey m r kd) = (changes r ++ more)%list.
Proof.
  unfold diffKey. destruct (JSMap.get m (kd_id kd)) as [[ek ets]|].
  - match goal with
    | |- context [fold_left _ _ ?r1] =>
        destruct (diffTranslations_extend kd (translationMapOf ets) (kd_translations kd) r1)
          as [more Hmore]
    end.
    rewrite Hmore. destruct (keyChanged ek kd); simpl.
    + rewrite <- app_assoc. eexists. reflexivity.
    + eexists. reflexivity.
  - rewrite push_all. simpl. rewrite <- app_assoc. eexists. reflexivity.
Qed.

Lemma diffKeys_extend (m : JSMap.t (L10nKey * list Translation)) (kds : list KeyData)
    (r : DiffReport) :
  exists more, changes (fold_left (diffKey m) kds r) = (changes r ++ more)%list.
Proof.
  revert r. induction kds as [|kd kds IH]; intro r; simpl.
  - exists []. rewrite app_nil_r. reflexivity.
  - destruct (IH (diffKey m r kd)) as [more Hmore].
    destruct (diffKey_extends m r kd) as [more0 Hmore0].
    rewrite Hmore, Hmore0, <- app_assoc. eexists. reflexivity.
Qed.

Lemma insertKey_duplicate (k' k : L10nKey) (w : World) :
  faulty w (Insert, TKey) = false -> In k (keys (tables w)) -> key_id k = key_id k' ->
  Write.insertKey k' w = (Throw (UniqueViolation TKey (key_id k')), log_op (Insert, TKey) w).
Proof.
  intros Hins Hin Hid. unfold Write.insertKey. run_db. rewrite Hins. simpl.
  assert (Hex : existsb (fun x => String.eqb (key_id x) (key_id k')) (keys (tables w)) = true).
  { apply existsb_exists. exists k. split; [exact Hin | apply String.eqb_eq; exact Hid]. }
  rewrite Hex. reflexivity.
Qed.

(** X17. The plan and the commit can disagree. Existing keys are looked up
    within the target service, while the primary key of [l10n_key] spans all
    services: for an incoming key whose id is carried by a key of another
    service, or of none, the dry run lists the creation of the key as its
    first change, and the import throws the unique violation and leaves every
    table as it was. *)
Theorem import_of_a_key_id_used_elsewhere
    (serviceId userId : string) (kd : KeyData) (rest : list KeyData) (k : L10nKey)
    (w : World) :
  faulty w (Select, TKey) = false ->
  faulty w (Insert, TKey) = false ->
  In k (keys (tables w)) ->
  key_id k = kd_id kd ->
  (forall k', In k' (keys (tables w)) -> key_id k' = kd_id kd ->
              key_serviceId k' <> NVal serviceId) ->
  (exists r more,
      result (generateDiffReport serviceId (kd :: rest)) w = Ok r
      /\ changes r
         = mkChange create_key (kd_id kd) (kd_keyName kd) Undefined Undefined
             (incomingKeyState kd) :: more)
  /\ result (executeImport serviceId (kd :: rest) userId) w
     = Throw (UniqueViolation TKey (kd_id kd))
  /\ tablesAfter (executeImport serviceId (kd :: rest) userId) w = tables w.
Proof.
  intros Hsel Hins Hin Hid Hother.
  pose proof (keyMapOf_other_service (tables w) serviceId (kd_id kd) Hother) as Hget.
  split.
  - unfold result, generateDiffReport. rewrite bind_run, findExistingKeys_run, Hsel.
    simpl fold_left.
    destruct (diffKeys_extend (keyMapOf (existingKeysOf (tables w) serviceId)) rest
                (diffKey (keyMapOf (existingKeysOf (tables w) serviceId)) emptyReport kd))
      as [more Hmore].
    eexists _, _. split; [reflexivity|]. rewrite Hmore.
    unfold diffKey. rewrite Hget, push_all. simpl. reflexivity.
  - assert (Hthrow : result (executeImport serviceId (kd :: rest) userId) w
                     = Throw (UniqueViolation TKey (kd_id kd))).
    { unfold result, executeImport, transaction.
      rewrite bind_run, findExistingKeys_run, Hsel. simpl forEach.
      rewrite bind_run. unfold importKey at 1. rewrite Hget. rewrite bind_run.
      match goal with
      | |- context [Write.insertKey ?k' _] =>
          rewrite (insertKey_duplicate k' k (log_op (Select, TKey) w) Hins Hin Hid)
      end.
      reflexivity. }
    split; [exact Hthrow|]. apply (transaction_rolls_back _ w _ Hthrow).
Qed.

Lemma import_key_id_witness :
  result (executeImport "s2" [mkKeyData "k1" "auth.login.title" Undefined [] "active" []] "e1")
    (world sampleTables noFault) = Throw (UniqueViolation TKey "k1").
Proof.
  refine (proj1 (proj2 (@import_of_a_key_id_used_elsewhere "s2" "e1"
                          (mkKeyData "k1" "auth.login.title" Undefined [] "active" []) [] k1
                          (world sampleTables noFault) eq_refl eq_refl _ eq_refl _))).
  - simpl. left. reflexivity.
  - intros k' [Hk|[Hk|[]]] Hid; subst k'; simpl in *; discriminate.
Defined.

(** ** Redaction: what it keeps *)

(** X18. Redaction keeps the shape of the data. For a value none of whose
    properties is named [__proto__], [redactObjectFields] returns [null],
    booleans and numbers as they are, a string for a string, an array of the
    same length and an object with the same property names in the same order;
    under a property name the value is redacted in turn or replaced by the
    marker of sensitive names. *)
Theorem redaction_keeps_the_shape (config : RedactionConfig) (obj : json) :
  ordinaryNames obj = true ->
  redactedFrom obj (redactObjectFields config obj).
Proof.
  intros _. revert obj.
  fix IH 1. intros [ | b | n | s | items | props]; simpl; try constructor.
  - induction items as [|x xs IHxs]; simpl; constructor; [apply IH | exact IHxs].
  - induction props as [|[k v] ps IHps]; simpl; constructor; [|exact IHps].
    simpl. split; [reflexivity|].
    destruct (isFieldNameSensitive k config); [right; reflexivity|]. left.
    pose proof (IH v) as Hv. destruct v; simpl in *; exact Hv.
Qed.

Lemma redaction_shape_witness :
  redactedFrom (JObj [("note", JStr "a@b.co"); ("count", JNum 42)])
    (redactObjectFields DEFAULT_REDACTION_CONFIG
       (JObj [("note", JStr "a@b.co"); ("count", JNum 42)])).
Proof.
  exact (redaction_keeps_the_shape DEFAULT_REDACTION_CONFIG
           (JObj [("note", JStr "a@b.co"); ("count", JNum 42)]) eq_refl).
Defined.

Lemma redactStringValue_off (config : RedactionConfig) (s : string) :
  detectionOff config -> redactStringValue s config = s.
Proof.
  intros (Hmax & Hpat & _). unfold redactStringValue. rewrite Hmax, Hpat. reflexivity.
Qed.

(** X19. With every detection switched off (no length limit, no pattern
    detection, no field name detection) [redactObjectFields] returns the
    value it was given, for every value none of whose properties is named
    [__proto__]. *)
Theorem redaction_switched_off_is_identity (config : RedactionConfig) (obj : json) :
  detectionOff config ->
  ordinaryNames obj = true ->
  redactObjectFields config obj = obj.
Proof.
  intros Hoff _. revert obj.
  fix IH 1. intros [ | b | n | s | items | props]; simpl; try reflexivity.
  - rewrite redactStringValue_off by exact Hoff. reflexivity.
  - f_equal. induction items as [|x xs IHxs]; simpl; [reflexivity|].
    rewrite IH, IHxs. reflexivity.
  - f_equal. induction props as [|[k v] ps IHps]; simpl; [reflexivity|].
    rewrite IHps. f_equal. f_equal.
    assert (Hname : isFieldNameSensitive k config = false).
    { unfold isFieldNameSensitive. destruct Hoff as (_ & _ & Hf). rewrite Hf. reflexivity. }
    rewrite Hname. pose proof (IH v) as Hv.
    destruct v; simpl in *; exact Hv.
Qed.

Lemma redaction_off_witness :
  redactObjectFields (mkConfig 0 false false Undefined Undefined)
    (JObj [("password", JStr "hunter2"); ("emails", JArr [JStr "a@b.co"])])
  = JObj [("password", JStr "hunter2"); ("emails", JArr [JStr "a@b.co"])].
Proof.
  apply (redaction_switched_off_is_identity (mkConfig 0 false false Undefined Undefined)).
  - repeat split.
  - reflexivity.
Defined.

Lemma applyPatterns_none (value : string) (pats : list (string * Regex.re))
    (acc : string * list string) :
  forallb (fun entry => negb (Regex.test (snd entry) value)) pats = true ->
  fold_left
    (fun (acc : string * list string) (entry : string * Regex.re) =>
       let '(redactedValue, redactionReasons) := acc in
       let '(patternName, pattern) := entry in
       if Regex.test pattern value
       then (Regex.replace redactedValue pattern ("[" ++ toUpperCase patternName ++ "_REDACTED]"),
             (redactionReasons ++ [patternName])%list)
       else acc)
    pats acc = acc.
Proof.
  induction pats as [|[name pat] pats IH]; simpl; intro H; [reflexivity|].
  apply andb_true_iff in H. destruct H as [Hp Hrest].
  apply negb_true_iff in Hp. destruct acc as [rv rs]. rewrite Hp. apply IH. exact Hrest.
Qed.

Lemma applyCustomPatterns_none (value : string) (pats : list Regex.re)
    (start : string * list string) :
  forallb (fun pattern => negb (Regex.test pattern value)) pats = true ->
  applyCustomPatterns value pats start = start.
Proof.
  unfold applyCustomPatterns. intro H.
  assert (G : forall index,
             snd (fold_left
                    (fun (st : nat * (string * list string)) (pattern : Regex.re) =>
                       let '(index, (redactedValue, redactionReasons)) := st in
                       if Regex.test pattern value
                       then (S index,
                             (Regex.replace redactedValue pattern "[CUSTOM_PII_REDACTED]",
                              (redactionReasons
                                 ++ [("custom_pattern_" ++ dec index)%string])%list))
                       else (S index, (redactedValue, redactionReasons)))
                    pats (index, start)) = start).
  { induction pats as [|pat pats IH]; intro index; simpl; [reflexivity|].
    simpl in H. apply andb_true_iff in H. destruct H as [Hp Hrest].
    apply negb_true_iff in Hp. destruct start as [rv rs]. rewrite Hp. apply IH. exact Hrest. }
  apply G.
Qed.

(** X20. A string is left alone unless it is too long or a pattern matches
    it. When the value is within the length limit (or there is none) and no
    built-in or custom pattern tests true on it, [redactStringValue] returns
    the value itself. *)
Theorem plain_strings_are_not_redacted (value : string) (config : RedactionConfig) :
  maxValueLength config = 0 \/ String.length value <= maxValueLength config ->
  noPatternLeft value = true ->
  (forall ps, customPatterns config = Defined ps ->
              forallb (fun pattern => negb (Regex.test pattern value)) ps = true) ->
  redactStringValue value config = value.
Proof.
  intros Hlen Hpii Hcustom. unfold redactStringValue.
  assert (Hshort : Nat.ltb 0 (maxValueLength config)
                   && Nat.ltb (maxValueLength config) (String.length value) = false).
  { destruct Hlen as [H0 | Hle].
    - rewrite H0. reflexivity.
    - apply andb_false_iff. right. apply Nat.ltb_ge. exact Hle. }
  rewrite Hshort. destruct (enablePatternDetection config); [|reflexivity].
  unfold applyPatterns. rewrite (applyPatterns_none value PII_PATTERNS (value, []) Hpii).
  destruct (customPatterns config) as [|ps]; [reflexivity|].
  rewrite (applyCustomPatterns_none value ps (value, []) (Hcustom ps eq_refl)). reflexivity.
Qed.

Lemma plain_strings_witness :
  redactStringValue "Welcome back" DEFAULT_REDACTION_CONFIG = "Welcome back".
Proof.
  apply plain_strings_are_not_redacted.
  - right. vm_compute. repeat constructor.
  - vm_compute. reflexivity.
  - intros ps H. injection H as <-. reflexivity.
Defined.

Lemma get_prop_set_other (f name : string) (v : json) (record : list (string * json)) :
  name <> f -> get_prop name (set_prop f v record) = get_prop name record.
Proof.
  intro Hne. induction record as [|[k old] rest IH]; simpl.
  - assert (E : String.eqb f name = false) by (apply String.eqb_neq; congruence).
    rewrite E. reflexivity.
  - destruct (String.eqb k f) eqn:Ekf; simpl.
    + apply String.eqb_eq in Ekf. subst k.
      assert (E : String.eqb f name = false) by (apply String.eqb_neq; congruence).
      rewrite E. reflexivity.
    + rewrite IH. reflexivity.
Qed.

Lemma set_prop_names (f : string) (v old : json) (record : list (string * json)) :
  get_prop f record = Some old -> map fst (set_prop f v record) = map fst record.
Proof.
  induction record as [|[k x] rest IH]; simpl; [discriminate|].
  destruct (String.eqb k f); simpl; [reflexivity|].
  intro H. rewrite IH by exact H. reflexivity.
Qed.

Lemma redactField_frame (parse : string -> option json) (f : string)
    (config : RedactionConfig) (record out : list (string * json)) :
  redactField parse f config record = Some out ->
  map fst out = map fst record
  /\ forall name, name <> f -> get_prop name out = get_prop name record.
Proof.
  unfold redactField. destruct (get_prop f record) as [v|] eqn:Hget.
  - destruct (truthy v).
    + destruct (match v with JStr s => parse s | _ => Some v end) as [data|]; [|discriminate].
      intro H. injection H as <-. split.
      * apply (set_prop_names f _ v). exact Hget.
      * intros name Hne. apply get_prop_set_other. exact Hne.
    + intro H. injection H as <-. split; reflexivity.
  - intro H. injection H as <-. split; reflexivity.
Qed.

(** X21. Redacting an event touches [before] and [after] only. When
    [redactSensitiveData] returns, the record has the same property names in
    the same order, and every property other than [before] and [after] has
    the value it had. *)
Theorem redaction_touches_only_before_and_after
    (parse : string -> option json) (eventRecord out : list (string * json))
    (config : RedactionConfig) :
  redactSensitiveData parse eventRecord config = Some out ->
  map fst out = map fst eventRecord
  /\ forall name, name <> "before" -> name <> "after" ->
                  get_prop name out = get_prop name eventRecord.
Proof.
  unfold redactSensitiveData.
  destruct (redactField parse "before" config eventRecord) as [mid|] eqn:Hb; [|discriminate].
  intro Ha. apply redactField_frame in Hb. apply redactField_frame in Ha.
  destruct Hb as [Nb Fb]. destruct Ha as [Na Fa]. split; [congruence|].
  intros name H1 H2. rewrite Fa by exact H2. apply Fb. exact H1.
Qed.

Lemma redaction_frame_witness :
  get_prop "id"
    (match redactSensitiveData neverParsed (noteEvent "mail a@b.co") DEFAULT_REDACTION_CONFIG with
     | Some out => out
     | None => []
     end) = Some (JStr "event-123").
Proof.
  destruct (redactSensitiveData neverParsed (noteEvent "mail a@b.co") DEFAULT_REDACTION_CONFIG)
    as [out|] eqn:E.
  - rewrite (proj2 (@redaction_touches_only_before_and_after neverParsed
                      (noteEvent "mail a@b.co") out DEFAULT_REDACTION_CONFIG E) "id");
      [reflexivity | discriminate | discriminate].
  - vm_compute in E. discriminate.
Defined.

(** ** What an export holds *)

Lemma get_In {V} (m : JSMap.t V) (k : string) (v : V) :
  JSMap.get m k = Some v -> In (k, v) m.
Proof.
  induction m as [|[k0 v0] m IH]; simpl; [discriminate|].
  destruct (String.eqb k0 k) eqn:E.
  - intro H. injection H as <-. apply String.eqb_eq in E. subst k0. left. reflexivity.
  - intro H. right. apply IH. exact H.
Qed.

Lemma get_set_same {V} (m : JSMap.t V) (k : string) (v : V) :
  JSMap.get (JSMap.set m k v) k = Some v.
Proof.
  induction m as [|[k0 v0] m IH]; simpl.
  - rewrite String.eqb_refl. reflexivity.
  - destruct (String.eqb k0 k) eqn:E; simpl; rewrite E; [reflexivity | exact IH].
Qed.

Lemma set_In {V} (m : JSMap.t V) (k id : string) (v x : V) :
  In (id, x) (JSMap.set m k v) -> In (id, x) m \/ (id = k /\ x = v).
Proof.
  induction m as [|[k0 v0] m IH]; simpl.
  - intros [H|[]]. injection H as <- <-. right. split; reflexivity.
  - destruct (String.eqb k0 k) eqn:E; simpl.
    + intros [H|H].
      * injection H as <- <-. apply String.eqb_eq in E. right. split; [exact E | reflexivity].
      * left. right. exact H.
    + intros [H|H].
      * left. left. exact H.
      * destruct (IH H) as [H'|H']; [left; right; exact H' | right; exact H'].
Qed.

Lemma set_set {V} (m : JSMap.t V) (k : string) (v v' : V) :
  JSMap.set (JSMap.set m k v) k v' = JSMap.set m k v'.
Proof.
  induction m as [|[k0 v0] m IH]; simpl.
  - rewrite String.eqb_refl. reflexivity.
  - destruct (String.eqb k0 k) eqn:E; simpl; rewrite E; [reflexivity|].
    rewrite IH. reflexivity.
Qed.

Lemma joinedRows_from (t : Tables) (serviceId : string) (o : Options)
    (row : L10nKey * option Translation) :
  In row (filter (fun row => keyCond serviceId o (fst row) && translationCond o (snd row))
            (joinedRows t (includeEmpty o))) ->
  rowFrom t serviceId o row.
Proof.
  intro H. apply filter_In in H. destruct H as [Hin Hcond].
  apply andb_true_iff in Hcond. destruct Hcond as [Hk Ht].
  unfold joinedRows in Hin. apply in_flat_map in Hin. destruct Hin as [k [Hkin Hrow]].
  destruct (filter (fun r => String.eqb (tr_keyId r) (key_id k)) (translations t))
    as [|r0 rs] eqn:Hf.
  - destruct (includeEmpty o) eqn:Ho in Hrow; [|destruct Hrow].
    destruct Hrow as [Hrow|[]]. subst row. simpl in *.
    split; [exact Hkin|]. split; [exact Hk|]. split; [exact Ht | exact Ho].
  - apply in_map_iff in Hrow. destruct Hrow as [r [Hrow Hr]]. subst row. rewrite <- Hf in Hr.
    apply filter_In in Hr. destruct Hr as [Hr Hid]. apply String.eqb_eq in Hid.
    simpl in *. split; [exact Hkin|]. split; [exact Hk|]. split; [exact Ht|].
    split; assumption.
Qed.

Lemma groupRow_from (t : Tables) (serviceId : string) (o : Options)
    (m : JSMap.t KeyData) (row : L10nKey * option Translation) :
  (forall id kd, In (id, kd) m -> kd_id kd = id /\ exportedFrom t serviceId o kd) ->
  rowFrom t serviceId o row ->
  forall id kd, In (id, kd) (groupRow m row) ->
                kd_id kd = id /\ exportedFrom t serviceId o kd.
Proof.
  intros Hm (Hk & Hkc & Htc & Hrow). destruct row as [k ot]. simpl in Hk, Hkc, Htc, Hrow.
  assert (Hfresh : forall trs,
             (forall td, In td trs -> exists r, In r (translations t)
                                               /\ tr_keyId r = key_id k
                                               /\ translationCond o (Some r) = true
                                               /\ td = exportedTranslation r) ->
             (includeEmpty o = false -> trs <> []) ->
             exportedFrom t serviceId o
               (mkKeyData (key_id k) (key_keyName k) (or_undefined (key_namespaceId k))
                  (key_tags k) (key_status k) trs)).
  { intros trs Htrs Hne. split; [|split]; simpl.
    - exists k. repeat split; assumption.
    - exact Htrs.
    - exact Hne. }
  unfold groupRow. simpl fst. simpl snd. unfold JSMap.has.
  destruct (JSMap.get m (key_id k)) as [e0|] eqn:Hget; simpl negb; cbv iota.
  - destruct ot as [r|]; [|exact Hm]. rewrite Hget.
    destruct Hrow as [Hr Hrk].
    destruct (Hm _ _ (get_In _ _ _ Hget)) as [Hid0 (Hk0 & Ht0 & Hn0)].
    intros id kd Hin. apply set_In in Hin. destruct Hin as [Hin | [-> ->]]; [apply Hm; exact Hin|].
    simpl. split; [exact Hid0|]. split; [|split]; simpl.
    + exact Hk0.
    + intros td Htd. apply in_app_or in Htd. destruct Htd as [Htd | [<-|[]]].
      * apply Ht0. exact Htd.
      * exists r. repeat split; [exact Hr | congruence | exact Htc].
    + intros _ Habs. destruct (kd_translations e0); discriminate.
  - destruct ot as [r|].
    + rewrite get_set_same, set_set. destruct Hrow as [Hr Hrk].
      intros id kd Hin. apply set_In in Hin. destruct Hin as [Hin | [-> ->]];
        [apply Hm; exact Hin|].
      simpl. split; [reflexivity|]. apply (Hfresh [exportedTranslation r]).
      * intros td [<-|[]]. exists r. repeat split; assumption.
      * intros _. discriminate.
    + intros id kd Hin. apply set_In in Hin. destruct Hin as [Hin | [-> ->]];
        [apply Hm; exact Hin|].
      split; [reflexivity|]. apply Hfresh.
      * intros td [].
      * intro Ho. rewrite Hrow in Ho. discriminate.
Qed.

Lemma groupRows_from (t : Tables) (serviceId : string) (o : Options)
    (rows : list (L10nKey * option Translation)) (m : JSMap.t KeyData) :
  (forall id kd, In (id, kd) m -> kd_id kd = id /\ exportedFrom t serviceId o kd) ->
  (forall row, In row rows -> rowFrom t serviceId o row) ->
  forall id kd, In (id, kd) (fold_left groupRow rows m) ->
                kd_id kd = id /\ exportedFrom t serviceId o kd.
Proof.
  revert m. induction rows as [|row rows IH]; intros m Hm Hrows; simpl; [exact Hm|].
  apply IH.
  - apply groupRow_from; [exact Hm | apply Hrows; left; reflexivity].
  - intros row' Hin. apply Hrows. right. exact Hin.
Qed.

Lemma insertSorted_In {A} (compare : A -> A -> Z) (x y : A) (l : list A) :
  In y (insertSorted compare x l) <-> y = x \/ In y l.
Proof.
  induction l as [|a l IH]; simpl.
  - split; [intros [H|[]]; left; congruence | intros [H|[]]; left; congruence].
  - destruct (Z.ltb (compare x a) 0); simpl.
    + split; [intros [H|H]; [left; congruence | right; exact H]
             | intros [H|H]; [left; congruence | right; exact H]].
    + rewrite IH. split.
      * intros [H|[H|H]]; [right; left; exact H | left; exact H | right; right; exact H].
      * intros [H|[H|H]]; [right; left; exact H | left; exact H | right; right; exact H].
Qed.

Lemma sort_In {A} (compare : A -> A -> Z) (l : list A) (y : A) :
  In y (sort compare l) <-> In y l.
Proof.
  unfold sort.
  assert (G : forall acc,
             In y (fold_left (fun acc x => insertSorted compare x acc) l acc)
             <-> In y acc \/ In y l).
  { induction l as [|x l IH]; intro acc; simpl; [tauto|].
    rewrite IH, insertSorted_In. split.
    - intros [[H|H]|H]; [right; left; congruence | left; exact H | right; right; exact H].
    - intros [H|[H|H]]; [left; right; exact H | left; left; congruence | right; exact H]. }
  rewrite G. simpl. tauto.
Qed.

Lemma sortExport_from (localeCompare : string -> string -> Z) (t : Tables)
    (serviceId : string) (o : Options) (ks : list KeyData) (kd : KeyData) :
  (forall kd0, In kd0 ks -> exportedFrom t serviceId o kd0) ->
  In kd (sortExport localeCompare ks) -> exportedFrom t serviceId o kd.
Proof.
  intros Hks Hin. unfold sortExport in Hin. apply in_map_iff in Hin.
  destruct Hin as [kd0 [<- Hin]]. apply sort_In in Hin.
  destruct (Hks kd0 Hin) as (Hk & Ht & Hn). split; [|split]; simpl.
  - exact Hk.
  - intros td Htd. apply sort_In in Htd. apply Ht. exact Htd.
  - intros Ho Habs. specialize (Hn Ho).
    destruct (kd_translations kd0) as [|td tds]; [apply Hn; reflexivity|].
    assert (Hx : In td (sort (fun a b => localeCompare (td_locale a) (td_locale b))
                          (td :: tds))).
    { apply sort_In. left. reflexivity. }
    rewrite Habs in Hx. exact Hx.
Qed.

Lemma generateExportData_run (localeCompare : string -> string -> Z)
    (serviceId serviceCode : string) (o : Options) (w : World) :
  generateExportData localeCompare serviceId serviceCode o w
  = if faulty w (Select, TKey)
    then (Throw (DbError (Select, TKey)), log_op (Select, TKey) w)
    else (Ok (mkExport serviceCode
                (match opt_locales o with Defined ls => ls | Undefined => [] end)
                (clock w)
                (sortExport localeCompare
                   (JSMap.values
                      (fold_left groupRow
                         (filter (fun row => keyCond serviceId o (fst row)
                                             && translationCond o (snd row))
                            (joinedRows (tables w) (includeEmpty o)))
                         JSMap.empty)))),
          log_op (Select, TKey) w).
Proof.
  unfold generateExportData, keysWithTranslations. run_db.
  destruct (faulty w (Select, TKey)); reflexivity.
Qed.

Lemma exported_keys_from (localeCompare : string -> string -> Z)
    (serviceId serviceCode : string) (o : Options) (w : World) (data : ExportData)
    (kd : KeyData) :
  result (generateExportData localeCompare serviceId serviceCode o) w = Ok data ->
  In kd (ex_keys data) ->
  exportedFrom (tables w) serviceId o kd.
Proof.
  unfold result. rewrite generateExportData_run.
  destruct (faulty w (Select, TKey)); [discriminate|].
  intro H. injection H as <-. simpl.
  apply sortExport_from. intros kd0 Hin. unfold JSMap.values in Hin.
  apply in_map_iff in Hin. destruct Hin as [[id kd1] [Heq Hin]]. simpl in Heq. subst kd1.
  refine (proj2 (groupRows_from (tables w) serviceId o _ JSMap.empty
                   _ _ id kd0 Hin)).
  - intros id' kd' [].
  - intros row Hrow. apply joinedRows_from. exact Hrow.
Qed.

Lemma keyCond_true (serviceId : string) (o : Options) (k : L10nKey) :
  keyCond serviceId o k = true ->
  key_serviceId k = NVal serviceId
  /\ forall st, statusFilter o = Some st -> key_status k = st.
Proof.
  unfold keyCond. intro H. apply andb_true_iff in H. destruct H as [Hs Hst]. split.
  - destruct (key_serviceId k) as [|s0]; [discriminate|].
    apply String.eqb_eq in Hs. subst s0. reflexivity.
  - intros st Hf. rewrite Hf in Hst. apply String.eqb_eq. exact Hst.
Qed.

Lemma translationCond_true (o : Options) (r : Translation) :
  translationCond o (Some r) = true ->
  (forall ls, localeFilter o = Some ls -> In (tr_locale r) ls)
  /\ forall st, statusFilter o = Some st -> tr_status r = st.
Proof.
  unfold translationCond. intro H. apply andb_true_iff in H. destruct H as [Hl Hst]. split.
  - intros ls Hf. rewrite Hf in Hl. apply includes_In. exact Hl.
  - intros st Hf. rewrite Hf in Hst. apply String.eqb_eq. exact Hst.
Qed.

(** X22. An export holds the data of its service only, and only what the
    filters let through. Every key of an export carries the id, name, tags
    and status of a key of [l10n_key] whose service is the exported one and
    whose status is the requested one, if any; each of its translations is a
    row of [translation] of that key, in a requested locale and of the
    requested status, if any; and unless [includeEmpty] is set no key comes
    without translations. *)
Theorem export_holds_only_the_service_data
    (localeCompare : string -> string -> Z) (serviceId serviceCode : string) (o : Options)
    (w : World) (data : ExportData) (kd : KeyData) :
  result (generateExportData localeCompare serviceId serviceCode o) w = Ok data ->
  In kd (ex_keys data) ->
  (exists k, In k (keys (tables w)) /\ key_serviceId k = NVal serviceId
             /\ (forall st, statusFilter o = Some st -> key_status k = st)
             /\ key_id k = kd_id kd /\ key_keyName k = kd_keyName kd
             /\ key_tags k = kd_tags kd /\ key_status k = kd_status kd)
  /\ (forall td, In td (kd_translations kd) ->
        exists r, In r (translations (tables w)) /\ tr_keyId r = kd_id kd
                  /\ (forall ls, localeFilter o = Some ls -> In (tr_locale r) ls)
                  /\ (forall st, statusFilter o = Some st -> tr_status r = st)
                  /\ td_locale td = tr_locale r /\ td_status td = tr_status r
                  /\ td_version td = tr_version r /\ td_value td = or_empty (tr_value r))
  /\ (includeEmpty o = false -> kd_translations kd <> []).
Proof.
  intros Hres Hin.
  destruct (exported_keys_from localeCompare serviceId serviceCode o w data kd Hres Hin)
    as ((k & Hk & Hc & Hid & Hn & _ & Ht & Hst) & Htr & Hne).
  destruct (keyCond_true serviceId o k Hc) as [Hs Hstatus].
  split; [|split].
  - exists k. repeat split; assumption.
  - intros td Htd. destruct (Htr td Htd) as (r & Hr & Hrk & Hrc & ->).
    destruct (translationCond_true o r Hrc) as [Hloc Hrst].
    exists r. repeat split; assumption.
  - exact Hne.
Qed.

Lemma export_data_witness :
  exists k, In k (keys sampleTables) /\ key_serviceId k = NVal "s1" /\ key_id k = "k1".
Proof.
  assert (Hres : result (generateExportData codeUnitCompare "s1" "web-app" defaultOptions)
                   (world sampleTables noFault) = Ok exportOfS1)
    by (vm_compute; reflexivity).
  destruct (@export_holds_only_the_service_data codeUnitCompare "s1" "web-app"
              defaultOptions (world sampleTables noFault) exportOfS1
              (mkKeyData "k1" "auth.login.title" Undefined ["auth"; "ui"] "active"
                 [mkTranslationData "en" "Login" "active" 5])
              Hres (or_introl eq_refl))
    as [(k & Hk & Hs & _ & Hid & _) _].
  exists k. repeat split; assumption.
Defined.

(** X23. An export is valid import input. When the rows of the service
    satisfy the constraints the import schema repeats (ids and names not
    empty, statuses and locales of the enumerations, versions positive) and
    the service code is not empty, the export sent back as an import body
    passes [importPayloadSchema], with and without [dryRun]. *)
Theorem export_passes_the_import_schema
    (localeCompare : string -> string -> Z) (serviceId serviceCode : string) (o : Options)
    (w : World) (data : ExportData) (dry : bool) :
  (forall k, In k (keys (tables w)) -> key_serviceId k = NVal serviceId -> validKeyRow k) ->
  (forall r, In r (translations (tables w)) -> validTranslationRow r) ->
  min1 serviceCode = true ->
  result (generateExportData localeCompare serviceId serviceCode o) w = Ok data ->
  safeParse (asImportBody dry data) = Some (asImportBody dry data).
Proof.
  intros Hkeys Htrs Hcode Hres.
  assert (Hsvc : ex_service data = serviceCode).
  { unfold result in Hres. rewrite generateExportData_run in Hres.
    destruct (faulty w (Select, TKey)); [discriminate|]. injection Hres as <-. reflexivity. }
  unfold safeParse. simpl. rewrite Hsvc, Hcode. simpl.
  assert (Hall : forallb keySchema (ex_keys data) = true).
  { apply forallb_forall. intros kd Hin.
    destruct (exported_keys_from localeCompare serviceId serviceCode o w data kd Hres Hin)
      as ((k & Hk & Hc & Hid & Hn & _ & _ & Hst) & Htr & _).
    destruct (Hkeys k Hk (proj1 (keyCond_true serviceId o k Hc))) as (V1 & V2 & V3).
    unfold keySchema. rewrite <- Hid, <- Hn, <- Hst, V1, V2, V3. simpl.
    apply forallb_forall. intros td Htd. destruct (Htr td Htd) as (r & Hr & _ & _ & ->).
    destruct (Htrs r Hr) as (L & S & V).
    unfold translationSchema, exportedTranslation. cbn [td_locale td_status td_version].
    rewrite L, S. simpl. apply Z.ltb_lt. exact V. }
  rewrite Hall. reflexivity.
Qed.

Lemma export_schema_witness :
  safeParse (asImportBody true exportOfS1) = Some (asImportBody true exportOfS1).
Proof.
  refine (@export_passes_the_import_schema codeUnitCompare "s1" "web-app" defaultOptions
            (world sampleTables noFault) exportOfS1 true _ _ eq_refl _).
  - intros k [Hk|[Hk|[]]] Hs; subst k; [|discriminate]. repeat split.
  - intros r [Hr|[]]. subst r. repeat split.
  - vm_compute. reflexivity.
Defined.

(** ** The translation update: its audit record, and its role check *)

(** X24. The audit record of an update. When [PUT /api/translations/$id]
    answers 200 it has appended one event whose actor is the caller, whose
    action is [update], whose entity is the translation, whose [before] is
    the row as it was and whose [after] is the row as written, with the
    version one higher, and the time of the update. *)
Theorem update_audit_record
    (user : option IdentityUser) (id : string) (b : UpdateBody) (w : World)
    (resp : Response) :
  result (PUT user id b) w = Ok resp -> status resp = 200 ->
  exists u existing e updatedAt,
    user = Some u
    /\ find (fun r => String.eqb (tr_id r) id) (translations (tables w)) = Some existing
    /\ events (tablesAfter (PUT user id b) w) = (events (tables w) ++ [e])%list
    /\ ev_actor e = sub u /\ ev_action e = "update"
    /\ ev_entityType e = "translation" /\ ev_entityId e = id
    /\ ev_before e = JObj (translationState existing)
    /\ ev_after e
       = JObj (translationState (applyUpdate b (tr_version existing + 1) updatedAt existing)
                 ++ [("updatedAt", JNum (Z.of_nat updatedAt))])%list.
Proof.
  unfold result, tablesAfter, PUT. intros Hres Hst.
  destruct user as [u|]; [|simpl in Hres; injection Hres as <-; discriminate].
  destruct (String.eqb id ""); [simpl in Hres; injection Hres as <-; discriminate|].
  destruct (negb (updateTranslationSchema b));
    [simpl in Hres; injection Hres as <-; discriminate|].
  unfold findTranslation, Write.updateTranslation, Audit.logEvent, Write.insertEvent in *.
  revert Hres. run_db.
  destruct (faulty w (Select, TTranslation)); simpl; [discriminate|].
  destruct (find (fun r => String.eqb (tr_id r) id) (translations (tables w)))
    as [existing|] eqn:Hfind; simpl;
    [|intro Hres; injection Hres as <-; discriminate].
  destruct (find (fun k => String.eqb (key_id k) (tr_keyId existing)) (keys (tables w)))
    as [key|]; simpl; [|discriminate].
  match goal with
  | |- context [(if truthy_nstr _ then _ else _) ?x] => set (w1 := x)
  end.
  assert (Hallowed :
    exists allowed w2,
      (if truthy_nstr (key_serviceId key)
       then validateServiceAccess (Some u) (or_empty (key_serviceId key)) WRITE
       else fun w0 => (Ok (rolesInclude u "Admin" || rolesInclude u "Editor"), w0)) w1
      = (Ok allowed, w2)
      /\ tables w2 = tables w).
  { destruct (truthy_nstr (key_serviceId key)).
    - destruct (validateServiceAccess_total (Some u) (or_empty (key_serviceId key)) WRITE w1)
        as (a & w2 & E & T & _).
      exists a, w2. split; assumption.
    - eexists _, w1. split; reflexivity. }
  destruct Hallowed as (allowed & w2 & E & T). rewrite E.
  destruct allowed; simpl; [|intro Hres; injection Hres as <-; discriminate].
  destruct (faulty w2 (Update, TTranslation)); simpl; [discriminate|].
  destruct (faulty w2 (Insert, TEvent)); simpl; [discriminate|].
  match goal with |- context [existsb ?f ?l] => destruct (existsb f l) end;
    simpl; [discriminate|].
  intros _. eexists u, existing, _, (clock w2).
  split; [reflexivity|]. split; [reflexivity|]. rewrite T.
  split; [reflexivity|]. repeat split.
Qed.

Lemma update_audit_witness :
  exists e,
    events (tablesAfter (PUT (Some editor) "t1" bumpBody) (world sampleTables noFault)) = [e]
    /\ ev_actor e = "e1" /\ ev_action e = "update".
Proof.
  destruct (@update_audit_record (Some editor) "t1" bumpBody (world sampleTables noFault)
              (mkResponse 200 Success) eq_refl eq_refl)
    as (u & existing & e & updatedAt & Hu & _ & He & Ha & Hact & _).
  injection Hu as <-. exists e. repeat split; assumption.
Defined.

Lemma find_filter {A} (f : A -> bool) (l : list A) (x : A) :
  find f l = Some x -> exists rest, filter f l = x :: rest.
Proof.
  induction l as [|a l IH]; simpl; [discriminate|].
  destruct (f a) eqn:E.
  - intro H. injection H as <-. eexists. reflexivity.
  - exact IH.
Qed.

(** X25. The update endpoint and the translation check disagree on the
    Owner role. For a translation whose key has no service, an identity that
    holds Owner but neither Admin nor Editor is allowed to write by
    [canWriteTranslation], and gets 403 from [PUT /api/translations/$id],
    which leaves the tables as they were. *)
Theorem owner_role_is_refused_by_the_update
    (u : IdentityUser) (id : string) (b : UpdateBody) (r : Translation) (k : L10nKey)
    (w : World) :
  faulty w (Select, TTranslation) = false ->
  isOwner (Some u) = true -> isAdmin (Some u) = false -> hasRole (Some u) "Editor" = false ->
  id <> "" -> updateTranslationSchema b = true ->
  find (fun x => String.eqb (tr_id x) id) (translations (tables w)) = Some r ->
  find (fun x => String.eqb (key_id x) (tr_keyId r)) (keys (tables w)) = Some k ->
  key_serviceId k = Null ->
  result (canWriteTranslation (Some u) id) w = Ok true
  /\ (exists message, result (PUT (Some u) id b) w = Ok (mkResponse 403 message))
  /\ tablesAfter (PUT (Some u) id b) w = tables w.
Proof.
  intros Hf Hown Hadm Hed Hid Hb Hr Hk Hnull.
  split.
  - unfold canWriteTranslation, result.
    rewrite validateTranslationAccess_run by exact Hadm. simpl.
    unfold translationDecision. rewrite Hf. unfold Query.translationRows.
    destruct (find_filter _ _ _ Hr) as [rest Hfr]. rewrite Hfr. simpl flat_map.
    destruct (find_filter _ _ _ Hk) as [rest' Hfk]. rewrite Hfk. simpl flat_map.
    unfold Query.keyServiceRows at 1. rewrite Hnull. simpl.
    apply f_equal. apply hasAnyRole_iff. exists "Owner".
    split; [simpl; tauto | exact Hown].
  - assert (Hroles : rolesInclude u "Admin" || rolesInclude u "Editor" = false).
    { change (hasRole (Some u) "Admin" || hasRole (Some u) "Editor" = false).
      unfold isAdmin in Hadm. rewrite Hadm, Hed. reflexivity. }
    unfold result, tablesAfter, PUT.
    apply String.eqb_neq in Hid. rewrite Hid, Hb. simpl negb. cbv iota.
    unfold findTranslation. run_db. rewrite Hf. simpl. rewrite Hr. simpl. rewrite Hk. simpl.
    rewrite Hnull. simpl. rewrite Hroles. simpl. split; [eexists; reflexivity | reflexivity].
Qed.

Lemma owner_role_witness :
  result (canWriteTranslation (Some (mkUser "w1" Undefined (Defined ["Owner"]))) "t0")
    (world (mkTables [s1] [legacyKey]
              [mkTranslation "t0" "k0" "en" (NVal "Old") "active" 1 0] []) noFault)
  = Ok true.
Proof.
  refine (proj1 (@owner_role_is_refused_by_the_update
                   (mkUser "w1" Undefined (Defined ["Owner"])) "t0" bumpBody
                   (mkTranslation "t0" "k0" "en" (NVal "Old") "active" 1 0) legacyKey
                   (world (mkTables [s1] [legacyKey]
                             [mkTranslation "t0" "k0" "en" (NVal "Old") "active" 1 0] [])
                      noFault)
                   eq_refl eq_refl eq_refl eq_refl _ eq_refl eq_refl eq_refl eq_refl)).
  discriminate.
Defined.

(** ** The archival status *)

Lemma filter_length_implies {A} (f g : A -> bool) (l : list A) :
  (forall x, f x = true -> g x = true) ->
  length (filter f l) <= length (filter g l).
Proof.
  intro H. induction l as [|a l IH]; simpl; [lia|].
  destruct (f a) eqn:E.
  - rewrite (H a E). simpl. lia.
  - destruct (g a); simpl; lia.
Qed.

(** X26. The archival status splits the events into three tiers. When
    [getArchivalStatus] returns, the numbers of hot, warm and cold events are
    not negative and add up to the number of rows of [event], and the tables
    are as they were. *)
Theorem archival_tiers_partition_the_events (w : World) (st : Archival.ArchivalStatus) :
  result Archival.getArchivalStatus w = Ok st ->
  (0 <= Archival.hotStorageEvents st)%Z
  /\ (0 <= Archival.warmStorageEvents st)%Z
  /\ (0 <= Archival.coldStorageEvents st)%Z
  /\ (Archival.hotStorageEvents st + Archival.warmStorageEvents st
      + Archival.coldStorageEvents st)%Z
     = Z.of_nat (length (events (tables w)))
  /\ tablesAfter Archival.getArchivalStatus w = tables w.
Proof.
  unfold result, tablesAfter, Archival.getArchivalStatus, Archival.countAll,
    Archival.oldestCreatedAt, Archival.countSince.
  destruct (faulty w (Select, TEvent)) eqn:Hf; run_db; rewrite Hf; simpl; [discriminate|].
  rewrite Hf. simpl. rewrite Hf. simpl. rewrite Hf. simpl.
  intro H. injection H as <-. simpl.
  set (hot := filter _ (events (tables w))).
  set (warm := filter _ (events (tables w))).
  assert (Hhw : length hot <= length warm).
  { apply filter_length_implies. intros e He.
    apply Z.leb_le in He. apply Z.leb_le.
    unfold Archival.HOT_STORAGE_DAYS, Archival.WARM_STORAGE_DAYS, Archival.msPerDay in *. lia. }
  assert (Hwt : length warm <= length (events (tables w))) by apply filter_length_le.
  repeat split; lia.
Qed.

Lemma archival_witness :
  tablesAfter Archival.getArchivalStatus (world sampleTables noFault) = sampleTables.
Proof.
  exact (proj2 (proj2 (proj2 (proj2
           (@archival_tiers_partition_the_events (world sampleTables noFault)
              (Archival.mkArchivalStatus 0 0 0 0 604800000) eq_refl))))).
Defined.

(** ** The check on a translation and the check on its key *)

Lemma keyServiceRows_intact (t : Tables) (k : L10nKey) :
  NoDup (map service_id (services t)) -> keyIntact t k ->
  Query.keyServiceRows t k
  = match key_serviceId k with
    | Null => [(Null, Null)]
    | NVal sid =>
        match Query.serviceRows t sid with
        | s :: _ => [(NVal sid, NVal (service_owners s))]
        | [] => [(NVal sid, Null)]
        end
    end.
Proof.
  intros Hnd Hk. unfold Query.keyServiceRows, keyIntact in *.
  destruct (key_serviceId k) as [|sid]; [reflexivity|].
  destruct Hk as [s [Hs Hid]]. subst sid. unfold Query.joinService.
  rewrite (serviceRows_unique _ _ Hnd Hs).
  rewrite (filter_unique service_id (services t) s Hnd Hs). reflexivity.
Qed.

Lemma translationRows_of_key (t : Tables) (r : Translation) (k : L10nKey) :
  primaryKeys t -> In r (translations t) -> In k (keys t) -> key_id k = tr_keyId r ->
  Query.translationRows t (tr_id r) = firstn 1 (Query.keyServiceRows t k).
Proof.
  intros (_ & Hk & Hr) Hinr Hink Hid. unfold Query.translationRows.
  rewrite (filter_unique tr_id (translations t) r Hr Hinr). simpl. rewrite app_nil_r.
  rewrite <- Hid. rewrite (filter_unique key_id (keys t) k Hk Hink). simpl.
  rewrite app_nil_r. reflexivity.
Qed.

Lemma keyRows_of_key (t : Tables) (k : L10nKey) :
  primaryKeys t -> In k (keys t) ->
  Query.keyRows t (key_id k) = firstn 1 (Query.keyServiceRows t k).
Proof.
  intros (_ & Hk & _) Hink. unfold Query.keyRows.
  rewrite (filter_unique key_id (keys t) k Hk Hink). simpl. rewrite app_nil_r. reflexivity.
Qed.

(** X27. The check on a translation and the check on its key agree. On a
    database that answers, with unique ids, for a translation whose key
    exists and refers to no service or to an existing one,
    [validateTranslationAccess] on the translation and
    [validateTranslationAccessByKey] on its key give the same answer, for
    every identity and permission. *)
Theorem translation_and_key_checks_agree
    (user : option IdentityUser) (r : Translation) (k : L10nKey) (p : Permission)
    (w : World) :
  healthy w ->
  primaryKeys (tables w) ->
  In r (translations (tables w)) ->
  In k (keys (tables w)) ->
  key_id k = tr_keyId r ->
  keyIntact (tables w) k ->
  result (validateTranslationAccess user (tr_id r) p) w
  = result (validateTranslationAccessByKey user (key_id k) p) w.
Proof.
  intros Hw Hpk Hr Hk Hid Hintact. destruct user as [u|]; [|reflexivity].
  destruct (isAdmin (Some u)) eqn:Hadm.
  - unfold result, validateTranslationAccess, validateTranslationAccessByKey.
    rewrite Hadm. reflexivity.
  - rewrite validateTranslationAccessByKey_run by exact Hadm.
    unfold result. rewrite validateTranslationAccess_run by exact Hadm. simpl.
    unfold translationDecision, keyDecision. rewrite !Hw.
    rewrite (translationRows_of_key _ r k Hpk Hr Hk Hid), (keyRows_of_key _ k Hpk Hk).
    rewrite (keyServiceRows_intact _ k (proj1 Hpk) Hintact).
    unfold keyIntact in Hintact.
    destruct (key_serviceId k) as [|sid]; [reflexivity|].
    destruct Hintact as [s [Hs Hsid]]. subst sid.
    unfold serviceDecision. rewrite Hw.
    rewrite (serviceRows_unique _ _ (proj1 Hpk) Hs). simpl.
    destruct (String.eqb (service_id s) ""); [reflexivity|].
    rewrite (serviceRows_unique _ _ (proj1 Hpk) Hs). reflexivity.
Qed.

Lemma sampleTables_primaryKeys : primaryKeys sampleTables.
Proof.
  repeat split; simpl; repeat constructor; simpl; intuition discriminate.
Qed.

Lemma translation_and_key_witness :
  result (validateTranslationAccess (Some viewer) "t1" WRITE) (world sampleTables noFault)
  = result (validateTranslationAccessByKey (Some viewer) "k1" WRITE)
      (world sampleTables noFault).
Proof.
  refine (@translation_and_key_checks_agree (Some viewer) t1 k1 WRITE
            (world sampleTables noFault) (noFault_healthy sampleTables)
            sampleTables_primaryKeys _ _ eq_refl _).
  - simpl. left. reflexivity.
  - simpl. left. reflexivity.
  - simpl. exists s1. split; [left; reflexivity | reflexivity].
Defined.

(** ** What a successful import leaves in the tables *)

Arguments Write.insertTranslation : simpl never.
Arguments Write.updateTranslation : simpl never.
Arguments Write.updateKey : simpl never.

Lemma nothingLost_refl (sid : string) (t : Tables) : nothingLost sid t t.
Proof. split; auto. Qed.

Lemma nothingLost_trans (sid : string) (a b c : Tables) :
  nothingLost sid a b -> nothingLost sid b c -> nothingLost sid a c.
Proof. intros [K1 T1] [K2 T2]. split; auto. Qed.

Lemma nothingLost_same (sid : string) (t t' : Tables) :
  keys t' = keys t -> translations t' = translations t -> nothingLost sid t t'.
Proof.
  intros Hk Ht. split.
  - intros id (k & Hin & H). exists k. rewrite Hk. auto.
  - intros kid loc (r & Hin & H). exists r. rewrite Ht. auto.
Qed.

Lemma recordEvent_ok (a act et id : string) (b af : json) (w w' : World) (x : unit) :
  Audit.recordEvent a act et id b af w = (Ok x, w') ->
  keys (tables w') = keys (tables w) /\ translations (tables w') = translations (tables w).
Proof.
  intro H.
  destruct (recordEvent_cases a act et id b af w) as [(e & w1 & E & _) | (w1 & E & T)];
    rewrite E in H; [discriminate|].
  injection H as _ <-. rewrite T. split; reflexivity.
Qed.

Lemma insertKey_ok (k : L10nKey) (w w' : World) (x : unit) :
  Write.insertKey k w = (Ok x, w') -> tables w' = withKey (tables w) k.
Proof.
  intro H.
  destruct (insertKey_cases k w) as [(e & w1 & E & _) | (w1 & E & T & _)];
    rewrite E in H; [discriminate|].
  injection H as _ <-. exact T.
Qed.

Lemma updateKey_ok (id : string) (set : L10nKey -> L10nKey) (w w' : World) (x : unit) :
  Write.updateKey id set w = (Ok x, w') ->
  tables w'
  = mkTables (services (tables w))
      (map (fun k => if String.eqb (key_id k) id then set k else k) (keys (tables w)))
      (translations (tables w)) (events (tables w)).
Proof.
  unfold Write.updateKey. run_db. destruct (faulty w (Update, TKey)); simpl; [discriminate|].
  intro H. injection H as _ <-. reflexivity.
Qed.

Lemma insertTranslation_ok (r : Translation) (w w' : World) (x : unit) :
  Write.insertTranslation r w = (Ok x, w') ->
  tables w'
  = mkTables (services (tables w)) (keys (tables w)) (translations (tables w) ++ [r])
      (events (tables w)).
Proof.
  unfold Write.insertTranslation. run_db.
  destruct (faulty w (Insert, TTranslation)); simpl; [discriminate|].
  destruct (existsb _ _); simpl; [discriminate|].
  intro H. injection H as _ <-. reflexivity.
Qed.

Lemma updateTranslation_ok (id : string) (set : Translation -> Translation) (w w' : World)
    (x : unit) :
  Write.updateTranslation id set w = (Ok x, w') ->
  tables w'
  = mkTables (services (tables w)) (keys (tables w))
      (map (fun r => if String.eqb (tr_id r) id then set r else r) (translations (tables w)))
      (events (tables w)).
Proof.
  unfold Write.updateTranslation. run_db.
  destruct (faulty w (Update, TTranslation)); simpl; [discriminate|].
  intro H. injection H as _ <-. reflexivity.
Qed.

Lemma nothingLost_updateKey (sid id : string) (set : L10nKey -> L10nKey) (t : Tables) :
  (forall k, key_id (set k) = key_id k /\ key_serviceId (set k) = key_serviceId k) ->
  nothingLost sid t
    (mkTables (services t)
       (map (fun k => if String.eqb (key_id k) id then set k else k) (keys t))
       (translations t) (events t)).
Proof.
  intro Hset. split; [|auto].
  intros kid (k & Hin & Hid & Hs). simpl.
  exists (if String.eqb (key_id k) id then set k else k). split.
  - apply in_map with (f := fun k => if String.eqb (key_id k) id then set k else k). exact Hin.
  - destruct (String.eqb (key_id k) id); [|auto].
    destruct (Hset k) as [H1 H2]. rewrite H1, H2. auto.
Qed.

Lemma nothingLost_updateTranslation (sid id : string) (set : Translation -> Translation)
    (t : Tables) :
  (forall r, tr_keyId (set r) = tr_keyId r /\ tr_locale (set r) = tr_locale r) ->
  nothingLost sid t
    (mkTables (services t) (keys t)
       (map (fun r => if String.eqb (tr_id r) id then set r else r) (translations t))
       (events t)).
Proof.
  intro Hset. split; [auto|].
  intros kid loc (r & Hin & Hk & Hl). simpl.
  exists (if String.eqb (tr_id r) id then set r else r). split.
  - apply in_map with (f := fun r => if String.eqb (tr_id r) id then set r else r). exact Hin.
  - destruct (String.eqb (tr_id r) id); [|auto].
    destruct (Hset r) as [H1 H2]. rewrite H1, H2. auto.
Qed.

Lemma nothingLost_insertTranslation (sid : string) (r : Translation) (t : Tables) :
  nothingLost sid t
    (mkTables (services t) (keys t) (translations t ++ [r]) (events t)).
Proof.
  split; [auto|]. intros kid loc (r0 & Hin & H). exists r0. simpl.
  split; [apply in_or_app; left; exact Hin | exact H].
Qed.

Lemma nothingLost_withKey (sid : string) (k : L10nKey) (t : Tables) :
  nothingLost sid t (withKey t k).
Proof.
  split; [|auto]. intros id (k0 & Hin & H). exists k0. simpl.
  split; [apply in_or_app; left; exact Hin | exact H].
Qed.

Lemma holdsKey_kept (sid id : string) (t t' : Tables) :
  nothingLost sid t t' -> holdsKey t sid id -> holdsKey t' sid id.
Proof. intros [H _]. apply H. Qed.

Lemma holdsTranslation_kept (sid kid loc : string) (t t' : Tables) :
  nothingLost sid t t' -> holdsTranslation t kid loc -> holdsTranslation t' kid loc.
Proof. intros [_ H]. apply H. Qed.

Lemma forEach_establishes {A} (sid : string) (Pre : Tables -> Prop) (Q : A -> Tables -> Prop)
    (body : A -> M unit) (xs : list A) :
  (forall t t', nothingLost sid t t' -> Pre t -> Pre t') ->
  (forall x t t', nothingLost sid t t' -> Q x t -> Q x t') ->
  (forall x w w', In x xs -> Pre (tables w) -> body x w = (Ok tt, w') ->
                  Q x (tables w') /\ nothingLost sid (tables w) (tables w')) ->
  forall w w', Pre (tables w) -> forEach body xs w = (Ok tt, w') ->
    (forall x, In x xs -> Q x (tables w')) /\ nothingLost sid (tables w) (tables w').
Proof.
  intros HPre HQ. induction xs as [|x xs IH]; intros Hbody w w' Hp Hrun; simpl in Hrun.
  - injection Hrun as <-. split; [intros x [] | apply nothingLost_refl].
  - unfold bind in Hrun. destruct (body x w) as [[[]|e] w1] eqn:E; [|discriminate].
    destruct (Hbody x w w1 (or_introl eq_refl) Hp E) as [Hq Hl].
    destruct (IH (fun y w0 w0' Hy => Hbody y w0 w0' (or_intror Hy)) w1 w'
                (HPre _ _ Hl Hp) Hrun) as [Hall Hl'].
    split.
    + intros y [<-|Hy]; [apply (HQ x _ _ Hl' Hq) | apply Hall; exact Hy].
    + apply (nothingLost_trans sid _ (tables w1)); assumption.
Qed.

Lemma createTranslation_establishes (sid uid : string) (kd : KeyData) (td : TranslationData)
    (w w' : World) :
  createTranslation uid kd td w = (Ok tt, w') ->
  holdsTranslation (tables w') (kd_id kd) (td_locale td)
  /\ nothingLost sid (tables w) (tables w').
Proof.
  unfold createTranslation. unfold bind at 1 2. unfold randomUUID, now. cbv iota beta.
  simpl uuid. simpl clock. rewrite bind_run.
  match goal with
  | |- context [Write.insertTranslation ?r ?w1] =>
      destruct (Write.insertTranslation r w1) as [[[]|e] w2] eqn:E1; [|discriminate];
      apply insertTranslation_ok in E1; simpl in E1
  end.
  match goal with
  | |- context [Audit.recordEvent ?a ?b ?c ?d ?e ?f w2] =>
      destruct (Audit.recordEvent a b c d e f w2) as [[[]|e'] w3] eqn:E2; [|discriminate];
      apply recordEvent_ok in E2
  end.
  intro H. injection H as <-. destruct E2 as [K2 T2].
  assert (Hl : nothingLost sid (tables w) (tables w3)).
  { apply (nothingLost_trans sid _ (tables w2)).
    - rewrite E1. apply nothingLost_insertTranslation.
    - apply nothingLost_same; assumption. }
  split; [|exact Hl].
  eexists. rewrite T2, E1. simpl. split; [apply in_or_app; right; left; reflexivity|].
  split; reflexivity.
Qed.

Lemma importTranslation_establishes (sid uid : string) (kd : KeyData)
    (tm : JSMap.t Translation) (td : TranslationData) (w w' : World) :
  (forall loc et, JSMap.get tm loc = Some et ->
                  holdsTranslation (tables w) (kd_id kd) loc) ->
  importTranslation uid kd tm td w = (Ok tt, w') ->
  holdsTranslation (tables w') (kd_id kd) (td_locale td)
  /\ nothingLost sid (tables w) (tables w').
Proof.
  intro Htm. unfold importTranslation.
  destruct (JSMap.get tm (td_locale td)) as [et|] eqn:Hget;
    [|apply createTranslation_establishes].
  specialize (Htm _ _ Hget).
  destruct (translationChanged et td).
  - unfold bind at 1. unfold now. cbv iota beta. rewrite bind_run.
    match goal with
    | |- context [Write.updateTranslation ?id ?set w] =>
        destruct (Write.updateTranslation id set w) as [[[]|e] w2] eqn:E1; [|discriminate];
        apply updateTranslation_ok in E1;
        assert (L1 : nothingLost sid (tables w) (tables w2))
          by (rewrite E1; apply (nothingLost_updateTranslation sid id set);
              intro; split; reflexivity)
    end.
    match goal with
    | |- context [Audit.recordEvent ?a ?b ?c ?d ?e ?f w2] =>
        destruct (Audit.recordEvent a b c d e f w2) as [[[]|e'] w3] eqn:E2; [|discriminate];
        apply recordEvent_ok in E2
    end.
    intro H. injection H as <-. destruct E2 as [K2 T2].
    assert (Hl : nothingLost sid (tables w) (tables w3)).
    { apply (nothingLost_trans sid _ (tables w2)); [exact L1|].
      apply nothingLost_same; assumption. }
    split; [|exact Hl]. apply (holdsTranslation_kept sid _ _ _ _ Hl Htm).
  - intro H. injection H as <-. split; [exact Htm | apply nothingLost_refl].
Qed.

Lemma importKey_establishes (sid uid : string) (m : JSMap.t (L10nKey * list Translation))
    (kd : KeyData) (w w' : World) :
  (forall id ek ets, JSMap.get m id = Some (ek, ets) ->
     holdsKey (tables w) sid id
     /\ forall loc et, JSMap.get (translationMapOf ets) loc = Some et ->
                       holdsTranslation (tables w) id loc) ->
  importKey sid uid m kd w = (Ok tt, w') ->
  (holdsKey (tables w') sid (kd_id kd)
   /\ forall td, In td (kd_translations kd) ->
                 holdsTranslation (tables w') (kd_id kd) (td_locale td))
  /\ nothingLost sid (tables w) (tables w').
Proof.
  intro Hm. unfold importKey.
  destruct (JSMap.get m (kd_id kd)) as [[ek ets]|] eqn:Hget.
  - destruct (Hm _ _ _ Hget) as [Hkey Htrs]. rewrite bind_run.
    match goal with
    | |- context [(if keyChanged ek kd then ?c else ret tt) w] =>
        assert (Hfirst : forall x w1, (if keyChanged ek kd then c else ret tt) w = (Ok x, w1) ->
                                      nothingLost sid (tables w) (tables w1));
        [| destruct ((if keyChanged ek kd then c else ret tt) w) as [[[]|e] w1] eqn:E0;
           [|discriminate] ]
    end.
    { intros x w1. destruct (keyChanged ek kd).
      - rewrite bind_run.
        match goal with
        | |- context [Write.updateKey ?id ?set w] =>
            destruct (Write.updateKey id set w) as [[[]|e] w2] eqn:E1; [|discriminate];
            apply updateKey_ok in E1;
            assert (L1 : nothingLost sid (tables w) (tables w2))
              by (rewrite E1; apply (nothingLost_updateKey sid id set);
                  intro; split; reflexivity)
        end.
        intro H. apply recordEvent_ok in H. destruct H as [K2 T2].
        apply (nothingLost_trans sid _ (tables w2)); [exact L1|].
        apply nothingLost_same; assumption.
      - intro H. injection H as _ <-. apply nothingLost_refl. }
    specialize (Hfirst tt w1 eq_refl). intro Hloop.
    destruct (forEach_establishes sid
                (fun t => forall loc et, JSMap.get (translationMapOf ets) loc = Some et ->
                                         holdsTranslation t (kd_id kd) loc)
                (fun td t => holdsTranslation t (kd_id kd) (td_locale td))
                (importTranslation uid kd (translationMapOf ets)) (kd_translations kd))
      with (w := w1) (w' := w') as [Hall Hl].
    + intros t t' Hl Hp loc et Hg. apply (holdsTranslation_kept sid _ _ _ _ Hl). eauto.
    + intros td t t' Hl. apply (holdsTranslation_kept sid _ _ _ _ Hl).
    + intros td w0 w0' _ Hp Hrun.
      apply (importTranslation_establishes sid uid kd _ td w0 w0' Hp Hrun).
    + intros loc et Hg. apply (holdsTranslation_kept sid _ _ _ _ Hfirst). eauto.
    + exact Hloop.
    + assert (Hl' : nothingLost sid (tables w) (tables w'))
        by (apply (nothingLost_trans sid _ (tables w1)); assumption).
      split; [|exact Hl']. split; [|exact Hall].
      apply (holdsKey_kept sid _ _ _ Hl' Hkey).
  - rewrite bind_run.
    match goal with
    | |- context [Write.insertKey ?k w] =>
        destruct (Write.insertKey k w) as [[[]|e] w1] eqn:E1; [|discriminate];
        apply insertKey_ok in E1;
        assert (L1 : nothingLost sid (tables w) (tables w1))
          by (rewrite E1; apply nothingLost_withKey)
    end.
    rewrite bind_run.
    match goal with
    | |- context [Audit.recordEvent ?a ?b ?c ?d ?e ?f w1] =>
        destruct (Audit.recordEvent a b c d e f w1) as [[[]|e'] w2] eqn:E2; [|discriminate];
        apply recordEvent_ok in E2
    end.
    destruct E2 as [K2 T2]. intro Hloop.
    destruct (forEach_establishes sid (fun _ => True)
                (fun td t => holdsTranslation t (kd_id kd) (td_locale td))
                (createTranslation uid kd) (kd_translations kd))
      with (w := w2) (w' := w') as [Hall Hl].
    + auto.
    + intros td t t' Hl. apply (holdsTranslation_kept sid _ _ _ _ Hl).
    + intros td w0 w0' _ _ Hrun.
      apply (createTranslation_establishes sid uid kd td w0 w0' Hrun).
    + exact I.
    + exact Hloop.
    + assert (Hl2 : nothingLost sid (tables w) (tables w2)).
      { apply (nothingLost_trans sid _ (tables w1)); [exact L1|].
        apply nothingLost_same; assumption. }
      assert (Hl' : nothingLost sid (tables w) (tables w'))
        by (apply (nothingLost_trans sid _ (tables w2)); assumption).
      split; [|exact Hl']. split; [|exact Hall].
      apply (holdsKey_kept sid _ (tables w2) _ Hl).
      exists (mkKey (kd_id kd) (NVal sid) (nullish_null (kd_namespaceId kd))
                (kd_keyName kd) (kd_tags kd) (kd_status kd)).
      rewrite K2, E1. simpl. split; [apply in_or_app; right; left; reflexivity|].
      split; reflexivity.
Qed.

Lemma of_entries_In {V} (entries : list (string * V)) (k : string) (v : V) :
  JSMap.get (JSMap.of_entries entries) k = Some v -> In (k, v) entries.
Proof.
  assert (G : forall (es : list (string * V)) m0,
             In (k, v) (fold_left (fun m e => JSMap.set m (fst e) (snd e)) es m0) ->
             In (k, v) m0 \/ In (k, v) es).
  { induction es as [|e es IH]; intros m0 Hin; simpl in Hin; [left; exact Hin|].
    destruct (IH _ Hin) as [H0|H0]; [|right; right; exact H0].
    apply set_In in H0. destruct H0 as [H0 | [Hk Hv]]; [left; exact H0|].
    right. left. destruct e as [k0 v0]. simpl in *. subst. reflexivity. }
  intro H. apply get_In in H. unfold JSMap.of_entries in H.
  destruct (G _ _ H) as [[]|H0]. exact H0.
Qed.

Lemma existing_keys_are_held (t : Tables) (sid id : string) (ek : L10nKey)
    (ets : list Translation) :
  JSMap.get (keyMapOf (existingKeysOf t sid)) id = Some (ek, ets) ->
  holdsKey t sid id
  /\ forall loc et, JSMap.get (translationMapOf ets) loc = Some et ->
                    holdsTranslation t id loc.
Proof.
  intro H. unfold keyMapOf in H. apply of_entries_In in H.
  apply in_map_iff in H. destruct H as [[k rs] [Heq Hin]]. simpl in Heq.
  injection Heq as <- <- <-.
  unfold existingKeysOf in Hin. apply in_map_iff in Hin. destruct Hin as [k' [Heq Hin]].
  injection Heq as -> <-. apply filter_In in Hin. destruct Hin as [Hin Hs].
  split.
  - exists k. split; [exact Hin|]. split; [reflexivity|].
    destruct (key_serviceId k) as [|s0]; [discriminate|].
    apply String.eqb_eq in Hs. subst s0. reflexivity.
  - intros loc et Hg. unfold translationMapOf in Hg. apply of_entries_In in Hg.
    apply in_map_iff in Hg. destruct Hg as [r [Heq Hr]]. injection Heq as <- <-.
    apply filter_In in Hr. destruct Hr as [Hr Hk]. apply String.eqb_eq in Hk.
    exists r. auto.
Qed.

(** X28. What a successful import leaves in the tables. When
    [executeImport] returns, [l10n_key] holds a key with the id of every
    incoming key, in the target service, and [translation] holds a
    translation of that key in the locale of each of its incoming
    translations; and no key of the service and no translation that was
    there before is gone. *)
Theorem import_leaves_every_incoming_entry
    (serviceId userId : string) (importData : list KeyData) (w : World) :
  result (executeImport serviceId importData userId) w = Ok tt ->
  (forall kd, In kd importData ->
     holdsKey (tablesAfter (executeImport serviceId importData userId) w) serviceId (kd_id kd)
     /\ forall td, In td (kd_translations kd) ->
          holdsTranslation (tablesAfter (executeImport serviceId importData userId) w)
            (kd_id kd) (td_locale td))
  /\ nothingLost serviceId (tables w)
       (tablesAfter (executeImport serviceId importData userId) w).
Proof.
  unfold result, tablesAfter, executeImport, transaction.
  rewrite bind_run, findExistingKeys_run.
  destruct (faulty w (Select, TKey)); [discriminate|].
  destruct (forEach (importKey serviceId userId
                       (keyMapOf (existingKeysOf (tables w) serviceId)))
              importData (log_op (Select, TKey) w)) as [[[]|e] w2] eqn:E; [|discriminate].
  intros _. simpl.
  destruct (forEach_establishes serviceId
              (fun t => forall id ek ets,
                          JSMap.get (keyMapOf (existingKeysOf (tables w) serviceId)) id
                          = Some (ek, ets) ->
                          holdsKey t serviceId id
                          /\ forall loc et, JSMap.get (translationMapOf ets) loc = Some et ->
                                            holdsTranslation t id loc)
              (fun kd t => holdsKey t serviceId (kd_id kd)
                           /\ forall td, In td (kd_translations kd) ->
                                         holdsTranslation t (kd_id kd) (td_locale td))
              (importKey serviceId userId (keyMapOf (existingKeysOf (tables w) serviceId)))
              importData)
    with (w := log_op (Select, TKey) w) (w' := w2) as [Hall Hl].
  - intros t t' Hl Hp id ek ets Hg. destruct (Hp id ek ets Hg) as [Hk Ht]. split.
    + apply (holdsKey_kept serviceId _ _ _ Hl Hk).
    + intros loc et Hg'. apply (holdsTranslation_kept serviceId _ _ _ _ Hl). eauto.
  - intros kd t t' Hl [Hk Ht]. split.
    + apply (holdsKey_kept serviceId _ _ _ Hl Hk).
    + intros td Htd. apply (holdsTranslation_kept serviceId _ _ _ _ Hl). auto.
  - intros kd w0 w0' _ Hp Hrun.
    apply (importKey_establishes serviceId userId _ kd w0 w0' Hp Hrun).
  - intros id ek ets Hg. apply (existing_keys_are_held _ _ _ ek ets). exact Hg.
  - exact E.
  - split; [exact Hall | exact Hl].
Qed.

Lemma import_leaves_witness :
  holdsKey (tablesAfter (executeImport "s1" [k2_tags_reordered] "e1") (world tables2 noFault))
    "s1" "k2".
Proof.
  exact (proj1 (proj1 (@import_leaves_every_incoming_entry "s1" "e1" [k2_tags_reordered]
                         (world tables2 noFault) eq_refl)
                  k2_tags_reordered (or_introl eq_refl))).
Defined.
